(** * Topological1D-WassersteinDistance: the Voronoi interpolation engine and
      the periodic Wasserstein metric

    A shallow embedding of [src/metrics/voronoi.py] (class [VoronoiAnalyzer])
    and [weaver/metrics/wasserstein.py] (class [WassersteinMetric]), and of
    the two functions of the scripts that call them and post-process their
    results: [process_structure] of [scripts/3_calculate_distances.py] and
    [process_distances] of [scripts/4_process_distances.py].

    Conventions of the embedding.
    - A 2-D numpy array is the list of its rows; a row is the list of its
      entries.  [shape[-1]] is the width of the rows, [len] the number of
      rows, [size] their product.
    - float64 entries are idealised as real numbers: arithmetic is exact and
      never overflows.  Where the source tests for NaN or infinity the entries
      are of type [num], a real number or a non-finite value.
    - A method that catches every exception and returns [None] has an
      [option] result; a method that lets exceptions escape has a [py] result
      ([Raise e] is the escaping exception).
    - Calls into scipy, POT and scikit-learn that solve a problem (Delaunay,
      Voronoi, RBFInterpolator, linear_sum_assignment, ot.emd) are operations
      of a type class: the embedding is parametric in them and theorems state
      the part of their documented contract they rely on.  [KernelDensity],
      [cdist], [arctan2], [argsort], [argmin] and the reductions are written
      out. *)

From Stdlib Require Import List ZArith Lia Bool Arith Permutation.
From Stdlib Require Import Reals Lra Psatz QArith.
From Stdlib Require Import Sorted RelationClasses.
Import ListNotations.

Close Scope Q_scope.
Open Scope R_scope.

(* ================================================================== *)
(** * Part I: definitions *)
(* ================================================================== *)

(** ** Python results *)

Inductive exn : Type :=
| ValueError
| TypeError
| NameError
| IndexError
| LibraryError.

Inductive py (A : Type) : Type :=
| Ok (a : A)
| Raise (e : exn).

Arguments Ok {A} a.
Arguments Raise {A} e.

Definition py_bind {A B} (m : py A) (k : A -> py B) : py B :=
  match m with
  | Ok a => k a
  | Raise e => Raise e
  end.

(** [try: m except Exception: return None] *)
Definition catch_none {A} (m : py A) : option A :=
  match m with
  | Ok a => Some a
  | Raise _ => None
  end.

Definition of_option {A} (e : exn) (o : option A) : py A :=
  match o with
  | Some a => Ok a
  | None => Raise e
  end.

Declare Scope py_scope.
Delimit Scope py_scope with py.
Notation "x <- m ;; k" := (py_bind m (fun x => k))
  (at level 61, m at next level, right associativity) : py_scope.
Notation "' pat <- m ;; k" := (py_bind m (fun x => match x with pat => k end))
  (at level 61, pat pattern, m at next level, right associativity) : py_scope.

(** [if c: raise e] *)
Definition raise_if (c : bool) (e : exn) : py unit :=
  if c then Raise e else Ok tt.

(** ** numpy arrays *)

Module Numpy.

(** The scalar operations a dtype provides. *)
Class Scalar (F : Type) : Type := {
  s_add : F -> F -> F;
  s_sub : F -> F -> F;
  s_mul : F -> F -> F;
  s_of_int : Z -> F
}.

#[export] Instance Scalar_R : Scalar R :=
  {| s_add := Rplus; s_sub := Rminus; s_mul := Rmult; s_of_int := IZR |}.

#[export] Instance Scalar_Q : Scalar Q :=
  {| s_add := Qplus; s_sub := Qminus; s_mul := Qmult; s_of_int := inject_Z |}.

#[export] Instance Scalar_Z : Scalar Z :=
  {| s_add := Z.add; s_sub := Z.sub; s_mul := Z.mul; s_of_int := fun z => z |}.

Section Arrays.
Context {A : Type}.

Definition nrows (M : list (list A)) : nat := length M.
Definition ncols (M : list (list A)) : nat := length (hd [] M).

(** [M.size] *)
Definition size (M : list (list A)) : nat := (nrows M * ncols M)%nat.

(** [M.shape == (r, c)] *)
Definition shape_is (r c : nat) (M : list (list A)) : bool :=
  (length M =? r)%nat && forallb (fun row => (length row =? c)%nat) M.

(** [M.shape[-1] == c] for an array with at least one row *)
Definition width_is (c : nat) (M : list (list A)) : bool :=
  forallb (fun row => (length row =? c)%nat) M.

(** Broadcasting of two 1-D operands under a binary operation: equal
    lengths combine entry by entry, a length-1 operand is stretched, and
    anything else is the ValueError "operands could not be broadcast". *)
Definition broadcast (f : A -> A -> A) (u v : list A) : py (list A) :=
  if (length u =? length v)%nat then Ok (map (fun p => f (fst p) (snd p)) (combine u v))
  else match u, v with
       | [x], _ => Ok (map (fun y => f x y) v)
       | _, [y] => Ok (map (fun x => f x y) u)
       | _, _ => Raise ValueError
       end.

(** [sequence] of results: the first exception escapes. *)
Fixpoint py_all {B} (l : list (py B)) : py (list B) :=
  match l with
  | [] => Ok []
  | m :: l' =>
      match m with
      | Raise e => Raise e
      | Ok b => match py_all l' with
                | Raise e => Raise e
                | Ok bs => Ok (b :: bs)
                end
      end
  end.

(** Cut a flat buffer into rows of width [d]: [buf.reshape(-1, d)]. *)
Fixpoint chunks (fuel d : nat) (l : list A) : list (list A) :=
  match fuel with
  | O => []
  | S fuel' =>
      match l with
      | [] => []
      | _ => firstn d l :: chunks fuel' d (skipn d l)
      end
  end.

Definition reshape_rows (d : nat) (buf : list A) : list (list A) :=
  chunks (length buf) d buf.

End Arrays.

(** [np.arange(a, b)] on integers *)
Definition arange (a b : Z) : list Z :=
  map (fun k => (a + Z.of_nat k)%Z) (seq 0 (Z.to_nat (b - a))).

End Numpy.

Import Numpy.

(** ** VoronoiAnalyzer.pad_periodic_image *)

Module Periodic.
Section Pad.
Context {F : Type} `{Scalar F}.

(** [np.concatenate((np.arange(0, n + 1), np.arange(-n, 0)))] *)
Definition repeat_range (n : Z) : list Z :=
  arange 0 (n + 1) ++ arange (- n) 0.

(** [np.meshgrid(i_range, j_range)] followed by [flatten] on both
    outputs: the grids have one row per entry of [j_range], so the flat
    index runs over [j_range] in the outer position and over [i_range] in
    the inner one. *)
Definition meshgrid_flat (i_range j_range : list Z) : list (Z * Z) :=
  flat_map (fun j => map (fun i => (i, j)) i_range) j_range.

(** One row of [i[:, np.newaxis] * cell[0] + j[:, np.newaxis] * cell[1]] *)
Definition offset_row (a1 a2 : list F) (ij : Z * Z) : py (list F) :=
  broadcast s_add (map (s_mul (s_of_int (fst ij))) a1)
                  (map (s_mul (s_of_int (snd ij))) a2).

Definition pad_periodic_image_body
    (positions cell : list (list F)) (n_a1 n_a2 : Z) : py (list (list F)) :=
  (_ <- raise_if (size positions =? 0)%nat ValueError ;;
   _ <- raise_if (negb (shape_is 2 2 cell)) ValueError ;;
   _ <- raise_if ((n_a1 <? 1)%Z || (n_a2 <? 1)%Z) ValueError ;;
   let i_range := repeat_range n_a1 in
   let j_range := repeat_range n_a2 in
   let ij := meshgrid_flat i_range j_range in
   let a1 := nth 0 cell [] in
   let a2 := nth 1 cell [] in
   offsets <- py_all (map (offset_row a1 a2) ij) ;;
   padded_pos <-
     py_all (map (fun o => py_all (map (fun p => broadcast s_add p o) positions))
                 offsets) ;;
   Ok (reshape_rows (ncols positions) (concat (concat padded_pos))))%py.

Definition pad_periodic_image
    (positions cell : list (list F)) (n_a1 n_a2 : Z) : option (list (list F)) :=
  catch_none (pad_periodic_image_body positions cell n_a1 n_a2).

(** The translate [p + (i * a1 + j * a2)] of a point [p], with the
    operations in the order the source applies them: the statement of
    what one output row is. *)
Definition translate (a1x a1y a2x a2y : F) (p : list F) (ij : Z * Z) : list F :=
  match p with
  | [px; py] =>
      [ s_add px (s_add (s_mul (s_of_int (fst ij)) a1x) (s_mul (s_of_int (snd ij)) a2x));
        s_add py (s_add (s_mul (s_of_int (fst ij)) a1y) (s_mul (s_of_int (snd ij)) a2y)) ]
  | _ => p
  end.

End Pad.
End Periodic.

(** ** Real-valued array operations *)

Module RealArrays.

Definition sum (l : list R) : R := fold_right Rplus 0 l.

(** [arr[i]] for a valid non-negative index; IndexError otherwise. *)
Definition index {A} (l : list A) (i : nat) : py A :=
  of_option IndexError (nth_error l i).

(** [arr[z]] for a Python integer: negative indices count from the end. *)
Definition index_int {A} (l : list A) (z : Z) : py A :=
  if (z <? 0)%Z
  then (if (z <? - Z.of_nat (length l))%Z then Raise IndexError
        else index l (Z.to_nat (Z.of_nat (length l) + z)))
  else index l (Z.to_nat z).

(** [arr[indices]] with an integer index array. *)
Definition take {A} (l : list A) (indices : list nat) : py (list A) :=
  py_all (map (index l) indices).

Definition take_int {A} (l : list A) (indices : list Z) : py (list A) :=
  py_all (map (index_int l) indices).

(** [np.vstack([row, M])]: the widths have to agree. *)
Definition vstack_row_first (row : list R) (M : list (list R)) : py (list (list R)) :=
  if forallb (fun r => (length r =? length row)%nat) M
  then Ok (row :: M) else Raise ValueError.

(** [np.vstack([M, row])] *)
Definition vstack_row_last (M : list (list R)) (row : list R) : py (list (list R)) :=
  if forallb (fun r => (length r =? length row)%nat) M
  then Ok (M ++ [row]) else Raise ValueError.

(** [M op row] with the row broadcast over the rows of [M]. *)
Definition rows_op (f : R -> R -> R) (M : list (list R)) (row : list R)
  : py (list (list R)) :=
  py_all (map (fun r => broadcast f r row) M).

(** [np.sum(M, axis=0)] of an array with at least one row *)
Definition sum_axis0 (M : list (list R)) : list R :=
  match M with
  | [] => []
  | r :: rest =>
      fold_left (fun acc row => map (fun p => fst p + snd p) (combine acc row)) rest r
  end.

(** [np.mean(M, axis=0)] *)
Definition mean_axis0 (M : list (list R)) : list R :=
  map (fun s => s / INR (length M)) (sum_axis0 M).

(** [np.linalg.norm(v)] of a 1-D array *)
Definition norm (v : list R) : R := sqrt (sum (map (fun x => x * x) v)).

(** Euclidean distance of two points with the same number of coordinates *)
Definition distance (u v : list R) : R :=
  norm (map (fun p => fst p - snd p) (combine u v)).

(** [scipy.spatial.distance.cdist(XA, XB)] with the default Euclidean
    metric: entry [i, j] is the distance of [XA[i]] and [XB[j]]; the two
    arrays must have the same number of columns. *)
Definition cdist (XA XB : list (list R)) : py (list (list R)) :=
  py_all (map (fun a =>
    py_all (map (fun b =>
      if (length a =? length b)%nat then Ok (distance a b)
      else Raise ValueError) XB)) XA).

(** [np.argmin]: the first position of the least entry. *)
Fixpoint argmin_from (best_i : nat) (best : R) (i : nat) (l : list R) : nat :=
  match l with
  | [] => best_i
  | x :: l' =>
      if Rlt_dec x best then argmin_from i x (S i) l'
      else argmin_from best_i best (S i) l'
  end.

Definition argmin (l : list R) : py nat :=
  match l with
  | [] => Raise ValueError
  | x :: l' => Ok (argmin_from 0 x 1 l')
  end.

(** [np.argsort]: positions in increasing order of their keys (numpy sorts
    short arrays by insertion, which keeps equal keys in place). *)
Fixpoint insert_key (k : R) (i : nat) (l : list (R * nat)) : list (R * nat) :=
  match l with
  | [] => [(k, i)]
  | (k', i') :: l' =>
      if Rlt_dec k k' then (k, i) :: l else (k', i') :: insert_key k i l'
  end.

Definition argsort (keys : list R) : list nat :=
  map snd (fold_left (fun acc ki => insert_key (fst ki) (snd ki) acc)
                     (combine keys (seq 0 (length keys))) []).

(** [np.arctan2(y, x)] *)
Definition arctan2 (y x : R) : R :=
  if Rlt_dec 0 x then atan (y / x)
  else if Rlt_dec x 0
       then (if Rle_dec 0 y then atan (y / x) + PI else atan (y / x) - PI)
       else if Rlt_dec 0 y then PI / 2
            else if Rlt_dec y 0 then - (PI / 2) else 0.

(** [A @ B] for 2-D arrays: row [i] of the product is the sum over [k] of
    [A[i][k] * B[k]]. *)
Definition matmul (A B : list (list R)) : py (list (list R)) :=
  if forallb (fun a => (length a =? length B)%nat) A
  then Ok (map (fun a =>
             fold_left (fun acc row => map (fun p => fst p + snd p) (combine acc row))
                       (map (fun p => map (Rmult (fst p)) (snd p)) (combine a B))
                       (repeat 0 (ncols B))) A)
  else Raise ValueError.

End RealArrays.

Import RealArrays.

(** ** VoronoiAnalyzer *)

Module VoronoiAnalyzer.

(** What the code reads of a [scipy.spatial.Voronoi] object. *)
Record voronoi_diagram : Type := {
  vertices : list (list R);
  regions : list (list Z);
  point_region : list nat
}.

(** The scipy entry points the class calls.  [Delaunay] gives the
    [simplices] of the triangulation; [RBFInterpolator] (always used with
    [kernel='thin_plate_spline']) gives the fitted interpolant, itself a
    fallible function on arrays of points. *)
Class SciPy : Type := {
  Voronoi : list (list R) -> py voronoi_diagram;
  Delaunay : list (list R) -> py (list (list nat));
  RBFInterpolator :
    list (list R) -> list (list R) -> py (list (list R) -> py (list (list R)));
  linear_sum_assignment : list (list R) -> py (list nat * list nat)
}.

Definition epsilon : R := 1e-10.

(** The determinant [d] of the circumcenter formula, for the triangle
    [(x0, y0), (x1, y1), (x2, y2)]. *)
Definition determinant (x0 y0 x1 y1 x2 y2 : R) : R :=
  2 * (x0 * (y1 - y2) + x1 * (y2 - y0) + x2 * (y0 - y1)).

(** [np.column_stack((x.ravel(), y.ravel()))] for
    [x, y = np.meshgrid([-1, 0, 1], [-1, 0, 1])] *)
Definition grid_points : list (list R) :=
  flat_map (fun y => map (fun x => [IZR x; IZR y]) [-1; 0; 1]%Z) [-1; 0; 1]%Z.

Section Methods.
Context {scipy : SciPy}.

(** The [try] block of [get_primitive_voronoi_cell]. *)
Definition get_primitive_voronoi_cell_try (lattice_vectors : list (list R))
  : py (option (list (list R))) :=
  (lattice_points <- matmul grid_points lattice_vectors ;;
   vor <- Voronoi lattice_points ;;
   let central_point_index := 4%nat in
   r <- index (point_region vor) central_point_index ;;
   central_region <- index (regions vor) r ;;
   if negb (existsb (Z.eqb (-1)) central_region)
   then (cell <- take_int (vertices vor) central_region ;; Ok (Some cell))
   else Ok None)%py.

(** The method is a [@staticmethod]: it has no [self].  Its handler is
    [self.logger.error(...)], so once the handler runs the lookup of the
    name [self] fails and a NameError leaves the function. *)
Definition get_primitive_voronoi_cell (lattice_vectors : list (list R))
  : py (option (list (list R))) :=
  match get_primitive_voronoi_cell_try lattice_vectors with
  | Ok r => Ok r
  | Raise _ => Raise NameError
  end.

(** [_calculate_circumcenter]: logs and re-raises. *)
Definition _calculate_circumcenter (triangle : list (list R)) : py (list R) :=
  match triangle with
  | [a; b; c] =>
      (a0 <- index a 0 ;; a1 <- index a 1 ;;
       b0 <- index b 0 ;; b1 <- index b 1 ;;
       c0 <- index c 0 ;; c1 <- index c 1 ;;
       let d := 2 * (a0 * (b1 - c1) + b0 * (c1 - a1) + c0 * (a1 - b1)) in
       if Rlt_dec (Rabs d) epsilon then Ok (mean_axis0 triangle)
       else
         let ux := ((a0 ^ 2 + a1 ^ 2) * (b1 - c1) +
                    (b0 ^ 2 + b1 ^ 2) * (c1 - a1) +
                    (c0 ^ 2 + c1 ^ 2) * (a1 - b1)) / d in
         let uy := ((a0 ^ 2 + a1 ^ 2) * (c0 - b0) +
                    (b0 ^ 2 + b1 ^ 2) * (a0 - c0) +
                    (c0 ^ 2 + c1 ^ 2) * (b0 - a0)) / d in
         Ok [ux; uy])%py
  | _ => Raise ValueError
  end.

(** [np.where((tri.simplices == k).any(axis=1))[0]] *)
Definition simplices_with (tri : list (list nat)) (k : nat) : list nat :=
  map fst (filter (fun p => existsb (Nat.eqb k) (snd p))
                  (combine (seq 0 (length tri)) tri)).

Definition _find_voronoi_cell (query_point : list R) (points : list (list R))
    (tri : list (list nat)) (circumcenters : list (list R))
  : option (list nat * nat) :=
  catch_none
    (diffs <- rows_op Rminus points query_point ;;
     let distances := map (fun d => sum (map (fun x => x ^ 2) d)) diffs in
     nearest_point_index <- argmin distances ;;
     let simplices_containing_point := simplices_with tri nearest_point_index in
     _ <- raise_if (length simplices_containing_point =? 0)%nat ValueError ;;
     cs <- take circumcenters simplices_containing_point ;;
     nearest <- index points nearest_point_index ;;
     n0 <- index nearest 0 ;;
     n1 <- index nearest 1 ;;
     angles <- py_all (map (fun c => c1 <- index c 1 ;; c0 <- index c 0 ;;
                                     Ok (arctan2 (c1 - n1) (c0 - n0))) cs) ;;
     cell_indices <- take simplices_containing_point (argsort angles) ;;
     Ok (cell_indices, nearest_point_index))%py.

(** The two vertex lists as [_map_to_cell] shifts them before matching. *)
Definition centered_vertices (original_vertices target_vertices : list (list R))
    (original_center target_center : list R)
  : py (list (list R) * list (list R)) :=
  (shift <- broadcast Rminus original_center target_center ;;
   original_vertices_centered <- rows_op Rminus original_vertices shift ;;
   target_vertices_centered <- rows_op Rminus target_vertices target_center ;;
   Ok (original_vertices_centered, target_vertices_centered))%py.

Definition _map_to_cell (points original_vertices target_vertices : list (list R))
    (original_center target_center : list R) : option (list (list R)) :=
  catch_none
    ('(original_vertices_centered, target_vertices_centered) <-
       centered_vertices original_vertices target_vertices
                         original_center target_center ;;
     cost_matrix <- cdist original_vertices_centered target_vertices_centered ;;
     '(_, col_ind) <- linear_sum_assignment cost_matrix ;;
     target_vertices_matched <- take target_vertices_centered col_ind ;;
     tps <- RBFInterpolator original_vertices_centered target_vertices_matched ;;
     shift <- broadcast Rminus original_center target_center ;;
     points_centered <- rows_op Rminus points shift ;;
     transformed_points <- tps points_centered ;;
     mapped_points <- rows_op Rplus transformed_points target_center ;;
     Ok mapped_points)%py.

(** What the query loop of [interpolate_displacements] reads: computed
    once before the loop and never written afterwards. *)
Record context : Type := {
  relaxed_points : list (list R);
  unrelaxed_points : list (list R);
  tri_unrelaxed : list (list nat);
  circumcenters_unrelaxed : list (list R);
  circumcenters_rbf : list (list R);
  pristine_cell_extended : list (list R);
  pristine_center : list R
}.

Definition circumcenters_of (points : list (list R)) (simplices : list (list nat))
  : py (list (list R)) :=
  py_all (map (fun simplex =>
                 (triangle <- take points simplex ;;
                  _calculate_circumcenter triangle)%py) simplices).

(** Everything before the loop; an exception here makes the call return
    [None]. *)
Definition prepare (relaxed unrelaxed query_points pristine_cell : list (list R))
  : py context :=
  (_ <- raise_if (existsb (fun arr => (size arr =? 0)%nat)
                          [relaxed; unrelaxed; query_points; pristine_cell])
                 ValueError ;;
   _ <- raise_if (negb (forallb (width_is 2) [relaxed; unrelaxed; query_points]))
                 ValueError ;;
   tri_relaxed <- Delaunay relaxed ;;
   tri_unrelaxed <- Delaunay unrelaxed ;;
   circumcenters_relaxed <- circumcenters_of relaxed tri_relaxed ;;
   circumcenters_unrelaxed <- circumcenters_of unrelaxed tri_unrelaxed ;;
   rbf_interpolator <- RBFInterpolator unrelaxed relaxed ;;
   circumcenters_rbf <- rbf_interpolator circumcenters_unrelaxed ;;
   let pristine_center := mean_axis0 pristine_cell in
   pristine_cell_extended <- vstack_row_last pristine_cell pristine_center ;;
   Ok {| relaxed_points := relaxed;
         unrelaxed_points := unrelaxed;
         tri_unrelaxed := tri_unrelaxed;
         circumcenters_unrelaxed := circumcenters_unrelaxed;
         circumcenters_rbf := circumcenters_rbf;
         pristine_cell_extended := pristine_cell_extended;
         pristine_center := pristine_center |})%py.

(** The body of the loop's [try] up to the two [append]s: the mapped
    arrays [pristine_point] and [unrelaxed_point]. *)
Definition map_query (ctx : context) (query_point : list R)
  : py (list (list R) * list (list R)) :=
  ('(indices, nearest_idx) <-
     of_option TypeError
       (_find_voronoi_cell query_point (relaxed_points ctx)
                           (tri_unrelaxed ctx) (circumcenters_rbf ctx)) ;;
   nearest_relaxed <- index (relaxed_points ctx) nearest_idx ;;
   cell_rbf <- take (circumcenters_rbf ctx) indices ;;
   vertices_relaxed <- vstack_row_first nearest_relaxed cell_rbf ;;
   nearest_unrelaxed <- index (unrelaxed_points ctx) nearest_idx ;;
   cell_unrelaxed <- take (circumcenters_unrelaxed ctx) indices ;;
   vertices_unrelaxed <- vstack_row_first nearest_unrelaxed cell_unrelaxed ;;
   rbf_voronoi <- RBFInterpolator vertices_relaxed vertices_unrelaxed ;;
   image <- rbf_voronoi [query_point] ;;
   point <- index image 0 ;;
   pristine_point <-
     of_option ValueError
       (_map_to_cell [point] vertices_unrelaxed (pristine_cell_extended ctx)
                     nearest_unrelaxed (pristine_center ctx)) ;;
   '(unrelaxed_indices, _) <-
     of_option TypeError
       (_find_voronoi_cell nearest_unrelaxed (unrelaxed_points ctx)
                           (tri_unrelaxed ctx) (circumcenters_unrelaxed ctx)) ;;
   own_cell <- take (circumcenters_unrelaxed ctx) unrelaxed_indices ;;
   unrelaxed_vertices <- vstack_row_first nearest_unrelaxed own_cell ;;
   unrelaxed_point <-
     of_option ValueError
       (_map_to_cell [point] vertices_unrelaxed unrelaxed_vertices
                     nearest_unrelaxed nearest_unrelaxed) ;;
   Ok (pristine_point, unrelaxed_point))%py.

(** The variables the loop writes: the two result lists, and the query
    points reported through [logger.error] and skipped. *)
Record loop_state : Type := {
  interpolated_pristine : list (list R);
  interpolated_unrelaxed : list (list R);
  skipped : list (list R)
}.

Definition initial_state : loop_state :=
  {| interpolated_pristine := []; interpolated_unrelaxed := []; skipped := [] |}.

Definition log_and_continue (st : loop_state) (query_point : list R) : loop_state :=
  {| interpolated_pristine := interpolated_pristine st;
     interpolated_unrelaxed := interpolated_unrelaxed st;
     skipped := skipped st ++ [query_point] |}.

(** One iteration.  The two [append]s come last in the [try] block and run
    one after the other, each after indexing row 0 of its array. *)
Definition loop_body (ctx : context) (st : loop_state) (query_point : list R)
  : loop_state :=
  match map_query ctx query_point with
  | Raise _ => log_and_continue st query_point
  | Ok (pristine_point, unrelaxed_point) =>
      match index pristine_point 0 with
      | Raise _ => log_and_continue st query_point
      | Ok p0 =>
          let st1 :=
            {| interpolated_pristine := interpolated_pristine st ++ [p0];
               interpolated_unrelaxed := interpolated_unrelaxed st;
               skipped := skipped st |} in
          match index unrelaxed_point 0 with
          | Raise _ => log_and_continue st1 query_point
          | Ok u0 =>
              {| interpolated_pristine := interpolated_pristine st1;
                 interpolated_unrelaxed := interpolated_unrelaxed st1 ++ [u0];
                 skipped := skipped st1 |}
          end
      end
  end.

Definition is_nil {A} (l : list A) : bool :=
  match l with [] => true | _ => false end.

(** The call together with the final value of the loop variables (the
    initial ones when the loop is never reached). *)
Definition interpolate_displacements_run
    (relaxed unrelaxed query_points pristine_cell : list (list R))
  : option (list (list R) * list (list R) * list (list R) * list (list R))
    * loop_state :=
  match prepare relaxed unrelaxed query_points pristine_cell with
  | Raise _ => (None, initial_state)
  | Ok ctx =>
      let st := fold_left (loop_body ctx) query_points initial_state in
      if is_nil (interpolated_pristine st) || is_nil (interpolated_unrelaxed st)
      then (None, st)
      else (Some (interpolated_pristine st, interpolated_unrelaxed st,
                  circumcenters_unrelaxed ctx, circumcenters_rbf ctx), st)
  end.

Definition interpolate_displacements
    (relaxed unrelaxed query_points pristine_cell : list (list R))
  : option (list (list R) * list (list R) * list (list R) * list (list R)) :=
  fst (interpolate_displacements_run relaxed unrelaxed query_points pristine_cell).

(** *** Vocabulary of the statements about the class *)

(** The fitted interpolant returns one row per row it is given (the
    documented shape of [RBFInterpolator.__call__]). *)
Definition rbf_keeps_rows : Prop :=
  forall X Y f Q out,
    RBFInterpolator X Y = Ok f -> f Q = Ok out -> length out = length Q.

(** The two rows an iteration computes for its query point when the [try]
    block runs to the end. *)
Definition query_result (ctx : context) (query_point : list R)
  : option (list R * list R) :=
  match map_query ctx query_point with
  | Ok (p0 :: _, u0 :: _) => Some (p0, u0)
  | _ => None
  end.

(** A query point succeeds when its iteration runs to the end. *)
Definition succeeds (ctx : context) (query_point : list R) : bool :=
  match query_result ctx query_point with
  | Some _ => true
  | None => false
  end.

(** The rows of the query points that succeed, in the order of the
    query points. *)
Definition results (ctx : context) (query_points : list (list R))
  : list (list R * list R) :=
  flat_map (fun q => match query_result ctx q with
                     | Some r => [r]
                     | None => []
                     end) query_points.

(** The number of query points that succeeded in a call; none is
    processed when the call stops before the loop. *)
Definition n_succeeded (relaxed unrelaxed query_points pristine_cell : list (list R))
  : nat :=
  match prepare relaxed unrelaxed query_points pristine_cell with
  | Raise _ => 0%nat
  | Ok ctx => length (filter (succeeds ctx) query_points)
  end.




(** A source vertex and a target vertex as [_map_to_cell] shifts them. *)
Definition source_shifted (original_center target_center v : list R) : list R :=
  [nth 0 v 0 - (nth 0 original_center 0 - nth 0 target_center 0);
   nth 1 v 0 - (nth 1 original_center 0 - nth 1 target_center 0)].

Definition target_shifted (target_center v : list R) : list R :=
  [nth 0 v 0 - nth 0 target_center 0; nth 1 v 0 - nth 1 target_center 0].



End Methods.

(** A stand-in for the library, to instantiate the statements: a single
    triangle, the identity interpolant and the identity matching. *)
Definition scipy_stub : SciPy :=
  {| Voronoi := fun _ => Raise LibraryError;
     Delaunay := fun _ => Ok [[0; 1; 2]%nat];
     RBFInterpolator := fun _ _ => Ok (fun Q => Ok Q);
     linear_sum_assignment :=
       fun C => Ok (seq 0 (length C), seq 0 (length C)) |}.

(** A configuration to run the query loop on: three sites of the triangle
    and a fourth site that the triangulation of the stand-in leaves out (as
    a triangulation does with a duplicate site), and a square pristine cell. *)
Definition example_points : list (list R) := [[0; 0]; [4; 0]; [0; 4]; [9; 9]].

Definition example_cell : list (list R) := [[1; 0]; [0; 1]; [-1; 0]; [0; -1]].

(** *** Vocabulary of the statements about [_find_voronoi_cell] *)

(** The squared distance of a site [p] to the query point, as the search
    forms it: [np.sum((p - query_point)**2)]. *)
Definition site_distance2 (query_point p : list R) : R :=
  sum (map (fun x => x ^ 2) (map (fun pq => fst pq - snd pq) (combine p query_point))).

(** [np.argmin] of the squared distances of the sites. *)
Definition nearest_site (query_point : list R) (points : list (list R)) : nat :=
  match map (site_distance2 query_point) points with
  | [] => 0%nat
  | d :: ds => argmin_from 0 d 1 ds
  end.

(** The angle under which the site sees the circumcenter of simplex [s]. *)
Definition vertex_angle (circumcenters : list (list R)) (site : list R) (s : nat) : R :=
  arctan2 (nth 1 (nth s circumcenters []) 0 - nth 1 site 0)
          (nth 0 (nth s circumcenters []) 0 - nth 0 site 0).

(** *** Interpolants that pass through their data *)

(** With the default [smoothing=0] the fitted interpolant passes through
    its data: evaluated at the data sites [X] it returns the data values
    [Y]. *)
Definition rbf_exact {scipy : SciPy} : Prop :=
  forall X Y f, RBFInterpolator X Y = Ok f -> f X = Ok Y.

Definition same_points (X Y : list (list R)) : {X = Y} + {X <> Y} :=
  list_eq_dec (list_eq_dec Req_EM_T) X Y.

(** A stand-in for the library whose interpolant passes through its data
    and is the identity elsewhere. *)
Definition scipy_exact : SciPy :=
  {| Voronoi := fun _ => Raise LibraryError;
     Delaunay := fun _ => Ok [[0; 1; 2]%nat];
     RBFInterpolator :=
       fun X Y => Ok (fun Q => if same_points Q X then Ok Y else Ok Q);
     linear_sum_assignment :=
       fun C => Ok (seq 0 (length C), seq 0 (length C)) |}.

(** *** A tessellation to run [get_primitive_voronoi_cell] on *)

(** A stand-in for the library on the unit square lattice: the tessellation
    of the nine lattice points has one bounded region, the unit square around
    the origin; the interpolant is the identity and the matching the identity
    matching. *)
Definition scipy_square : SciPy :=
  {| Voronoi := fun _ =>
       Ok {| vertices := [[-1 / 2; -1 / 2]; [1 / 2; -1 / 2]; [1 / 2; 1 / 2]; [-1 / 2; 1 / 2]];
             regions := [[]; [-1; 0]%Z; [0; 1; 2; 3]%Z];
             point_region := [1; 1; 1; 1; 2; 1; 1; 1; 1]%nat |};
     Delaunay := fun _ => Ok [[0; 1; 2]%nat];
     RBFInterpolator := fun _ _ => Ok (fun Q => Ok Q);
     linear_sum_assignment :=
       fun C => Ok (seq 0 (length C), seq 0 (length C)) |}.

End VoronoiAnalyzer.

(** ** WassersteinMetric *)

Module WassersteinMetric.

(** An array entry where the source tells finite values from NaN and
    infinities. *)
Inductive num : Type :=
| Fin (x : R)
| NonFin.

(** On [+], [-] and [*] a non-finite operand gives a non-finite result
    ([inf - inf] and [0 * inf] are NaN). *)
Definition lift2 (f : R -> R -> R) (a b : num) : num :=
  match a, b with
  | Fin x, Fin y => Fin (f x y)
  | _, _ => NonFin
  end.

#[export] Instance Scalar_num : Scalar num :=
  {| s_add := lift2 Rplus; s_sub := lift2 Rminus; s_mul := lift2 Rmult;
     s_of_int := fun z => Fin (IZR z) |}.

(** [not (np.isnan(a) or np.isinf(a))] *)
Definition is_finite (a : num) : bool :=
  match a with
  | Fin _ => true
  | NonFin => false
  end.

Definition value (a : num) : R :=
  match a with
  | Fin x => x
  | NonFin => 0
  end.

(** The array as scikit-learn's input validation passes it on: a ValueError
    when an entry is NaN or infinite. *)
Definition finite_rows (M : list (list num)) : py (list (list R)) :=
  if forallb (forallb is_finite) M then Ok (map (map value) M)
  else Raise ValueError.

(** [np.linalg.norm(row)] on an entry-checked row *)
Definition num_norm (row : list num) : num :=
  if forallb is_finite row then Fin (norm (map value row)) else NonFin.

(** POT's exact solver, [ot.emd(a, b, M)]. *)
Class POT : Type := {
  emd : list R -> list R -> list (list R) -> py (list (list R))
}.

Record metric : Type := {
  lattice_vectors : list (list num);
  cell_area : num
}.

(** [WassersteinMetric.__init__] *)
Definition init (lattice : list (list num)) : py metric :=
  (_ <- raise_if (negb (shape_is 2 2 lattice)) ValueError ;;
   let a := nth 0 (nth 0 lattice []) NonFin in
   let b := nth 1 (nth 0 lattice []) NonFin in
   let c := nth 0 (nth 1 lattice []) NonFin in
   let d := nth 1 (nth 1 lattice []) NonFin in
   let det := s_sub (s_mul a d) (s_mul b c) in
   Ok {| lattice_vectors := lattice;
         cell_area := match det with Fin x => Fin (Rabs x) | NonFin => NonFin end |})%py.

(** [(i, j) for i in range(-2, 3) for j in range(-2, 3)] *)
Definition image_indices : list (Z * Z) :=
  flat_map (fun i => map (fun j => (i, j)) (arange (-2) 3)) (arange (-2) 3).

(** [offsets]: one row [i * a1 + j * a2] per periodic image *)
Definition lattice_offsets (self : metric) : py (list (list num)) :=
  (a1 <- index (lattice_vectors self) 0 ;;
   a2 <- index (lattice_vectors self) 1 ;;
   py_all (map (fun ij => broadcast s_add (map (s_mul (s_of_int (fst ij))) a1)
                                          (map (s_mul (s_of_int (snd ij))) a2))
               image_indices))%py.

(** [diff_periodic]: entry [k][m][n] is the row
    [(points1[m] - points2[n]) + offsets[k]]. *)
Definition periodic_differences (self : metric) (points1 points2 : list (list num))
  : py (list (list (list (list num)))) :=
  (offsets <- lattice_offsets self ;;
   diff <- py_all (map (fun p1 => py_all (map (fun p2 => broadcast s_sub p1 p2) points2))
                       points1) ;;
   py_all (map (fun o =>
             py_all (map (fun row => py_all (map (fun d => broadcast s_add d o) row)) diff))
           offsets))%py.

(** [np.min(norms, axis=0)]: the entrywise least of a nonempty stack of
    matrices. *)
Definition min_axis0 (stack : list (list (list R))) : py (list (list R)) :=
  match stack with
  | [] => Raise ValueError
  | M :: rest =>
      Ok (fold_left
            (fun acc M' =>
               map (fun rows => map (fun xy => Rmin (fst xy) (snd xy))
                                    (combine (fst rows) (snd rows)))
                   (combine acc M'))
            rest M)
  end.

Definition _calculate_cost_matrix (self : metric) (points1 points2 : list (list num))
  : py (list (list R)) :=
  (diff_periodic <- periodic_differences self points1 points2 ;;
   _ <- raise_if (negb (forallb (forallb (forallb (forallb is_finite))) diff_periodic))
                 ValueError ;;
   min_axis0 (map (map (map (fun d => norm (map value d)))) diff_periodic))%py.

(** Squared Euclidean distance of two rows *)
Definition sqdist (u v : list R) : R :=
  sum (map (fun p => (fst p - snd p) ^ 2) (combine u v)).

(** [KernelDensity(bandwidth=h, metric='euclidean', kernel='gaussian')
    .fit(X).score_samples([y])]: the logarithm of the mean over the samples
    of the Gaussian kernel of width [h] in [d = X.shape[1]] dimensions
    (the default tolerances make the tree evaluation exact). *)
Definition gaussian_log_density (h : R) (X : list (list R)) (y : list R) : R :=
  ln (sum (map (fun x => exp (- sqdist y x / (2 * h ^ 2))) X)
      / (INR (length X) * (sqrt (2 * PI) * h) ^ ncols X)).

(** [_calculate_density].  scikit-learn rejects a bandwidth that is not a
    positive number and an array with NaN or infinite entries.  (A
    non-finite bandwidth comes from non-finite lattice vectors only, and then
    the cost matrix raises whatever the density step does.) *)
Definition _calculate_density (points : list (list num)) (bandwidth : num)
  : py (list R) :=
  match bandwidth with
  | NonFin => Raise ValueError
  | Fin h =>
      if Rle_dec h 0 then Raise ValueError
      else
        (X <- finite_rows points ;;
         _ <- raise_if (length X =? 0)%nat ValueError ;;
         let log_density := map (gaussian_log_density h X) X in
         let density := map exp log_density in
         let normalization_factor := INR (length points) / sum density in
         Ok (map (fun d => d * normalization_factor) density))%py
  end.

(** [np.sum(T * C)] for two arrays of one shape *)
Definition sum_product (T C : list (list R)) : R :=
  sum (map (fun rows => sum (map (fun tc => fst tc * snd tc)
                                 (combine (fst rows) (snd rows))))
           (combine T C)).

(** [np.linalg.norm(self.lattice_vectors[0]) / np.sqrt(4 * len(displacements1))] *)
Definition default_bandwidth (self : metric) (displacements1 : list (list num))
  : py num :=
  (a1 <- index (lattice_vectors self) 0 ;;
   Ok (lift2 Rdiv (num_norm a1) (Fin (sqrt (4 * INR (length displacements1))))))%py.

(** [density / np.sum(density)] *)
Definition normalized (density : list R) : list R :=
  map (fun d => d / sum density) density.

(** [np.ones_like(v) / len(v)] *)
Definition uniform_like (v : list R) : list R :=
  map (fun _ => 1 / INR (length v)) v.

Section Methods.
Context {pot : POT}.

Definition calculate_distance (self : metric)
    (displacements1 displacements2 : list (list num)) (bandwidth : option R)
  : py (R * list (list R) * R * list (list R)) :=
  (_ <- raise_if ((size displacements1 =? 0)%nat || (size displacements2 =? 0)%nat)
                 ValueError ;;
   _ <- raise_if (negb (width_is 2 displacements1) || negb (width_is 2 displacements2))
                 ValueError ;;
   bandwidth <- match bandwidth with
                | Some b => Ok (Fin b)
                | None => default_bandwidth self displacements1
                end ;;
   density1 <- _calculate_density displacements1 bandwidth ;;
   density2 <- _calculate_density displacements2 bandwidth ;;
   let density1_norm := normalized density1 in
   let density2_norm := normalized density2 in
   let density1_uniform := uniform_like density1_norm in
   let density2_uniform := uniform_like density2_norm in
   cost_matrix <- _calculate_cost_matrix self displacements1 displacements2 ;;
   transport_matrix <- emd density1_norm density2_norm cost_matrix ;;
   transport_matrix_uniform <- emd density1_uniform density2_uniform cost_matrix ;;
   let distance := sum_product transport_matrix cost_matrix in
   let distance_uniform := sum_product transport_matrix_uniform cost_matrix in
   Ok (distance, transport_matrix, distance_uniform, transport_matrix_uniform))%py.

(** *** Vocabulary of the statements about the metric *)

(** The embedding of an array of finite entries. *)
Definition finite (P : list (list R)) : list (list num) := map (map Fin) P.

(** A point set the metric accepts: at least one row, rows of two finite
    coordinates. *)
Definition valid_points (P : list (list R)) : Prop :=
  P <> [] /\ forall p, In p P -> length p = 2%nat.

(** The metric object made from the finite lattice vectors [a1], [a2]. *)
Definition metric_of (a1x a1y a2x a2y : R) : metric :=
  {| lattice_vectors := [[Fin a1x; Fin a1y]; [Fin a2x; Fin a2y]];
     cell_area := Fin (Rabs (a1x * a2y - a1y * a2x)) |}.

(** The periodic image [pA - pB + (i a1 + j a2)] and its Euclidean norm. *)
Definition image_vector (a1x a1y a2x a2y : R) (pA pB : list R) (ij : Z * Z) : list R :=
  [ (nth 0 pA 0 - nth 0 pB 0) + (IZR (fst ij) * a1x + IZR (snd ij) * a2x);
    (nth 1 pA 0 - nth 1 pB 0) + (IZR (fst ij) * a1y + IZR (snd ij) * a2y) ].

Definition image_distance (a1x a1y a2x a2y : R) (pA pB : list R) (ij : Z * Z) : R :=
  norm (image_vector a1x a1y a2x a2y pA pB ij).

(** One row of [diff_periodic] for 2-D rows, in the arithmetic of [num]. *)
Definition image_row (a1 a2 p1 p2 : list num) (ij : Z * Z) : list num :=
  [ s_add (s_sub (nth 0 p1 NonFin) (nth 0 p2 NonFin))
          (s_add (s_mul (s_of_int (fst ij)) (nth 0 a1 NonFin))
                 (s_mul (s_of_int (snd ij)) (nth 0 a2 NonFin)));
    s_add (s_sub (nth 1 p1 NonFin) (nth 1 p2 NonFin))
          (s_add (s_mul (s_of_int (fst ij)) (nth 1 a1 NonFin))
                 (s_mul (s_of_int (snd ij)) (nth 1 a2 NonFin))) ].

(** The least of a nonempty list, taken from the left as [np.min] does. *)
Definition least (x : R) (l : list R) : R := fold_left Rmin l x.

(** The least of the 25 image distances, the image [(-2, -2)] first: what
    [np.min(..., axis=0)] leaves at the entry of [pA] and [pB]. *)
Definition periodic_cost (a1x a1y a2x a2y : R) (pA pB : list R) : R :=
  least (image_distance a1x a1y a2x a2y pA pB (-2, -2)%Z)
        (map (image_distance a1x a1y a2x a2y pA pB) (tl image_indices)).

(** An array with a NaN or infinite entry *)
Definition has_non_finite (M : list (list num)) : Prop :=
  exists row x, In row M /\ In x row /\ is_finite x = false.

(** The bandwidth a call uses: the one given, or [|a1| / sqrt(4 |P1|)]. *)
Definition effective_bandwidth (a1x a1y : R) (P1 : list (list R))
    (bandwidth : option R) : R :=
  match bandwidth with
  | Some b => b
  | None => norm [a1x; a1y] / sqrt (4 * INR (length P1))
  end.

(** The density vector [_calculate_density] returns for finite points and a
    positive bandwidth. *)
Definition kde_density (h : R) (P : list (list R)) : list R :=
  let density := map exp (map (gaussian_log_density h P) P) in
  map (fun d => d * (INR (length P) / sum density)) density.

(** The sum of the Gaussian kernels of the samples at [y], without the
    normalisation. *)
Definition kernel_sum (h : R) (P : list (list R)) (y : list R) : R :=
  sum (map (fun x => exp (- sqdist y x / (2 * h ^ 2))) P).

(** The two weighted marginals and the two uniform marginals of a call. *)
Definition weights (h : R) (P : list (list R)) : list R :=
  normalized (kde_density h P).

Definition uniform_weights (P : list (list R)) : list R :=
  repeat (1 / INR (length P)) (length P).

(** The cost matrix of a call on finite points. *)
Definition cost_of (a1x a1y a2x a2y : R) (P1 P2 : list (list R)) : list (list R) :=
  map (fun p1 => map (fun p2 => periodic_cost a1x a1y a2x a2y p1 p2) P2) P1.

Definition nonneg (v : list R) : Prop := Forall (fun x => 0 <= x) v.

(** A probability vector *)
Definition distribution (a : list R) : Prop := nonneg a /\ sum a = 1.

Definition column (j : nat) (T : list (list R)) : list R :=
  map (fun row => nth j row 0) T.

Definition row_sums (T : list (list R)) : list R := map sum T.

Definition col_sums (m : nat) (T : list (list R)) : list R :=
  map (fun j => sum (column j T)) (seq 0 m).

Definition transpose (m : nat) (T : list (list R)) : list (list R) :=
  map (fun j => column j T) (seq 0 m).

(** [T] is a transport plan from [a] to [b]: a [|a| x |b|] array of
    non-negative entries with row sums [a] and column sums [b]. *)
Definition is_plan (a b : list R) (T : list (list R)) : Prop :=
  length T = length a /\
  Forall (fun row => length row = length b) T /\
  Forall nonneg T /\
  row_sums T = a /\
  col_sums (length b) T = b.

Definition is_optimal_plan (a b : list R) (C T : list (list R)) : Prop :=
  is_plan a b T /\
  forall T', is_plan a b T' -> sum_product T C <= sum_product T' C.


(** What [ot.emd] documents of its result, for every problem whose
    marginals are probability vectors that fit the cost matrix: it returns a
    transport plan. *)
Definition emd_feasible : Prop :=
  forall a b C,
    distribution a -> distribution b ->
    length C = length a -> Forall (fun row => length row = length b) C ->
    exists T, emd a b C = Ok T /\ is_plan a b T.


End Methods.

(** A stand-in for the solver, to instantiate the statements: the product
    plan, which is a transport plan for all probability vectors. *)
Definition pot_product : POT :=
  {| emd := fun a b _ => Ok (map (fun x => map (fun y => x * y) b) a) |}.

(** A point moved by the vector [(tx, ty)]. *)
Definition shifted (tx ty : R) (p : list R) : list R :=
  [nth 0 p 0 + tx; nth 1 p 0 + ty].

End WassersteinMetric.

(** ** [scripts/3_calculate_distances.py] *)

Module CalculateDistances.
Import Periodic VoronoiAnalyzer WassersteinMetric.

(** What [process_structure] reads of an [ase.Atoms] object: the positions
    (one row of three coordinates per atom), the per-atom column
    [arrays['atom_types']] when the file has one, and the 3x3 cell. *)
Record atoms : Type := {
  positions : list (list R);
  atom_types : option (list Z);
  cell : list (list R)
}.

(** [a.positions[a.arrays['atom_types'] == t, :2]]; [None] stands for the
    exception of a missing column (KeyError) or of a mask that does not
    match the rows (IndexError). *)
Definition positions_of_type (a : atoms) (t : Z) : option (list (list R)) :=
  match atom_types a with
  | None => None
  | Some types =>
      if (length types =? length (positions a))%nat
      then Some (map (fun pt => firstn 2 (fst pt))
                     (filter (fun pt => Z.eqb (snd pt) t) (combine (positions a) types)))
      else None
  end.

(** [a.cell[:2, :2]] *)
Definition cell_2x2 (a : atoms) : list (list R) :=
  map (firstn 2) (firstn 2 (cell a)).

Section Script.
Context {scipy : SciPy} {pot : POT}.

(** [process_structure] once the two structure files are read.  Every
    exception is caught and gives [None]; a [None] from the padding makes
    [interpolate_displacements] return [None] (the [.size] of [None] raises
    inside its [try]), and a [None] from the interpolation makes the indexing
    [interpolated_points[0]] raise. *)
Definition process_structure (structure reference : atoms)
    (lattice_vectors : list (list R)) : option R :=
  match init (finite lattice_vectors) with
  | Raise _ => None
  | Ok wasserstein =>
      match get_primitive_voronoi_cell lattice_vectors with
      | Raise _ => None
      | Ok None => None
      | Ok (Some pristine_cell) =>
          match positions_of_type structure 0,
                positions_of_type reference 0,
                positions_of_type structure 3 with
          | Some structure_points, Some reference_points, Some query_points =>
              match pad_periodic_image structure_points (cell_2x2 structure) 2 2,
                    pad_periodic_image reference_points (cell_2x2 reference) 2 2 with
              | Some padded_structure, Some padded_reference =>
                  match interpolate_displacements padded_structure padded_reference
                                                  query_points pristine_cell with
                  | Some (P, U, _, _) =>
                      match calculate_distance wasserstein (finite P) (finite U) None with
                      | Ok (distance, _, _, _) => Some distance
                      | Raise _ => None
                      end
                  | None => None
                  end
              | _, _ => None
              end
          | _, _, _ => None
          end
      end
  end.

End Script.

(** A structure to run the script on: three atoms of type 0 and one atom of
    type 3 in a large cell. *)
Definition example_atoms : atoms :=
  {| positions := [[0; 0; 7]; [4; 0; 7]; [0; 4; 7]; [1; 1; 9]];
     atom_types := Some [0; 0; 0; 3]%Z;
     cell := [[100; 0; 0]; [0; 100; 0]; [0; 0; 30]] |}.

End CalculateDistances.

(** ** [scripts/4_process_distances.py] *)

Module ProcessDistances.
Import WassersteinMetric.

(** A row [seed, corruption_idx, distance] of the array of raw distances.
    The first two columns are written by [3_calculate_distances.py] from
    [int(...)] values and are integers; the distance is a float, possibly
    NaN. *)
Record row : Type := {
  seed : Z;
  corruption_idx : Z;
  dist : num
}.

(** [np.mean]: NaN on an empty list (with a warning, not an exception) and
    not finite as soon as an entry is not. *)
Definition mean (l : list num) : num :=
  match l with
  | [] => NonFin
  | _ => if forallb is_finite l
         then Fin (sum (map value l) / INR (length l))
         else NonFin
  end.

(** The order of the sort key [(x[1], x[0])]: tuples compare
    lexicographically. *)
Definition key_lt (a b : row) : bool :=
  (corruption_idx a <? corruption_idx b)%Z ||
  ((corruption_idx a =? corruption_idx b)%Z && (seed a <? seed b)%Z).

(** [sorted(rows, key=lambda x: (x[1], x[0]))]: the sort is stable, rows
    with equal keys stay in the order they came in. *)
Fixpoint insert_sorted (x : row) (l : list row) : list row :=
  match l with
  | [] => [x]
  | y :: l' => if key_lt x y then x :: l else y :: insert_sorted x l'
  end.

Definition sorted_by_key (l : list row) : list row :=
  fold_left (fun acc x => insert_sorted x acc) l [].

(** [itertools.groupby(rows, key=lambda x: x[1])]: the maximal runs of
    consecutive rows with one key, each with its key. *)
Fixpoint groupby (l : list row) : list (Z * list row) :=
  match l with
  | [] => []
  | x :: l' =>
      match groupby l' with
      | (k, g) :: gs =>
          if (corruption_idx x =? k)%Z then (k, x :: g) :: gs
          else (corruption_idx x, [x]) :: (k, g) :: gs
      | [] => [(corruption_idx x, [x])]
      end
  end.

(** [average_over_relaxations]: the first two columns of the first row of
    the group and the mean of the third column; indexing row 0 of an empty
    group raises. *)
Definition average_over_relaxations (group : list row) : option row :=
  match group with
  | [] => None
  | r :: _ => Some {| seed := seed r;
                      corruption_idx := corruption_idx r;
                      dist := mean (map dist group) |}
  end.

(** [grouped_data]: a [defaultdict(list)], with its keys in insertion
    order. *)
Definition dict : Type := list (Z * list row).

(** [d[k].append(v)] *)
Fixpoint dict_append (k : Z) (v : row) (d : dict) : dict :=
  match d with
  | [] => [(k, [v])]
  | (k', vs) :: d' =>
      if (k =? k')%Z then (k', vs ++ [v]) :: d' else (k', vs) :: dict_append k v d'
  end.

Fixpoint dict_get (k : Z) (d : dict) : option (list row) :=
  match d with
  | [] => None
  | (k', vs) :: d' => if (k =? k')%Z then Some vs else dict_get k d'
  end.

(** Reading [d[k]]: a missing key is created with the empty list. *)
Definition dict_touch (k : Z) (d : dict) : dict :=
  match dict_get k d with
  | Some _ => d
  | None => d ++ [(k, [])]
  end.

Definition rows_of (k : Z) (d : dict) : list row :=
  match dict_get k d with
  | Some vs => vs
  | None => []
  end.

(** One turn of the first loop. *)
Definition group_step (acc : option dict) (kg : Z * list row) : option dict :=
  match acc with
  | None => None
  | Some d =>
      match average_over_relaxations (snd kg) with
      | None => None
      | Some averaged => Some (dict_append (fst kg) averaged d)
      end
  end.

Section Script.

(** The order in which the elements of a [set] of integers are
    iterated. *)
Variable iteration_order : list Z -> list Z.

(** [set(range(10)) - existing_seeds], as a list without repetition *)
Definition missing_seeds (rows : list row) : list Z :=
  filter (fun s => negb (existsb (Z.eqb s) (map seed rows))) (arange 0 10).

(** One turn of the loop [for corruption_factor in range(12)]. *)
Definition fill_missing (d : dict) (corruption_factor : Z) : dict :=
  let d1 := dict_touch corruption_factor d in
  let rows := rows_of corruption_factor d1 in
  match missing_seeds rows with
  | [] => d1
  | missing =>
      let avg_distance := mean (map dist rows) in
      fold_left (fun acc s =>
                   dict_append corruption_factor
                     {| seed := s; corruption_idx := corruption_factor;
                        dist := avg_distance |} acc)
                (iteration_order missing) d1
  end.

(** The rows of one corruption index after its turn of the loop. *)
Definition filled_rows (corruption_factor : Z) (rows : list row) : list row :=
  rows ++ map (fun s => {| seed := s; corruption_idx := corruption_factor;
                           dist := mean (map dist rows) |})
              (iteration_order (missing_seeds rows)).

(** [process_distances]; [None] is the result of the handler. *)
Definition process_distances (distances_array : list row) : option (list row) :=
  let sorted_data := sorted_by_key distances_array in
  match fold_left group_step (groupby sorted_data) (Some []) with
  | None => None
  | Some grouped_data =>
      let grouped_data := fold_left fill_missing (arange 0 12) grouped_data in
      let final_data := flat_map snd grouped_data in
      Some (sorted_by_key final_data)
  end.

End Script.

(** *** Vocabulary of the statements about the script *)

(** The mean of the distances of all the rows with one corruption index. *)
Definition index_mean (data : list row) (c : Z) : num :=
  mean (map dist (filter (fun r => (corruption_idx r =? c)%Z) data)).

(** One row per corruption index [0..11] and seed [0..9], by index and then
    by seed, each with the mean of its index. *)
Definition filled_table (data : list row) : list row :=
  flat_map (fun c => map (fun s => {| seed := s; corruption_idx := c;
                                      dist := index_mean data c |})
                         (arange 0 10))
           (arange 0 12).

(** A small array of raw distances: two seeds at corruption index 0, one
    row with a NaN distance at index 5. *)
Definition example_rows : list row :=
  [ {| seed := 1; corruption_idx := 0; dist := Fin 2 |};
    {| seed := 0; corruption_idx := 0; dist := Fin 4 |};
    {| seed := 3; corruption_idx := 5; dist := NonFin |} ].

End ProcessDistances.

(* ================================================================== *)
(** * Part II: theorems *)
(* ================================================================== *)

(** ** Generic facts on results and arrays *)

Lemma py_all_map_Ok {A B} (f : A -> py B) (g : A -> B) (l : list A) :
  (forall x, In x l -> f x = Ok (g x)) ->
  py_all (map f l) = Ok (map g l).
Proof.
  induction l as [|x l IH]; intros Hf; simpl; [reflexivity|].
  rewrite (Hf x (or_introl eq_refl)), IH; [reflexivity|].
  intros y Hy. apply Hf. now right.
Qed.

Lemma py_all_length {B} (l : list (py B)) (bs : list B) :
  py_all l = Ok bs -> length bs = length l.
Proof.
  revert bs. induction l as [|m l IH]; intros bs Hall; simpl in Hall.
  - now inversion Hall.
  - destruct m as [b|e]; [|discriminate].
    destruct (py_all l) as [bs'|e]; [|discriminate].
    inversion Hall; subst. simpl. f_equal. now apply IH.
Qed.

(** Case analysis on the first call of a sequence of fallible steps. *)
Ltac py_step H :=
  match type of H with
  | context [py_bind ?m _] =>
      let E := fresh "E" in
      destruct m eqn:E; cbn [py_bind catch_none] in H; [|discriminate H]
  end.

Lemma chunks_concat {A} (d : nat) (rows : list (list A)) (fuel : nat) :
  (0 < d)%nat ->
  (forall r, In r rows -> length r = d) ->
  (length rows <= fuel)%nat ->
  chunks fuel d (concat rows) = rows.
Proof.
  intros Hd. revert fuel.
  induction rows as [|r rows IH]; intros fuel Hlen Hfuel.
  - destruct fuel; reflexivity.
  - destruct fuel as [|fuel]; [simpl in Hfuel; lia|].
    assert (Hr : length r = d) by (apply Hlen; now left).
    simpl. destruct (r ++ concat rows) eqn:E.
    + destruct r; [simpl in Hr; lia|discriminate].
    + rewrite <- E, <- Hr.
      rewrite firstn_app, firstn_all, Nat.sub_diag, firstn_O, app_nil_r.
      rewrite skipn_app, skipn_all, Nat.sub_diag, skipn_O. simpl.
      rewrite Hr. f_equal. apply IH.
      * intros r' Hr'. apply Hlen. now right.
      * simpl in Hfuel. lia.
Qed.

Lemma length_concat_const {A} (d : nat) (rows : list (list A)) :
  (forall r, In r rows -> length r = d) ->
  length (concat rows) = (length rows * d)%nat.
Proof.
  induction rows as [|r rows IH]; intros Hlen; simpl; [reflexivity|].
  rewrite length_app, IH by (intros; apply Hlen; now right).
  rewrite (Hlen r) by now left. lia.
Qed.

Lemma reshape_rows_concat {A} (d : nat) (rows : list (list A)) :
  (0 < d)%nat ->
  (forall r, In r rows -> length r = d) ->
  reshape_rows d (concat rows) = rows.
Proof.
  intros Hd Hlen. unfold reshape_rows.
  apply chunks_concat; auto.
  rewrite (length_concat_const d) by assumption. nia.
Qed.

Lemma In_arange (a b z : Z) : In z (arange a b) <-> (a <= z < b)%Z.
Proof.
  unfold arange. rewrite in_map_iff. split.
  - intros [k [<- Hk]]. apply in_seq in Hk. lia.
  - intros Hz. exists (Z.to_nat (z - a)). split; [lia|].
    apply in_seq. lia.
Qed.

Lemma length_arange (a b : Z) : length (arange a b) = Z.to_nat (b - a).
Proof. unfold arange. now rewrite length_map, length_seq. Qed.

(** ** pad_periodic_image *)

Module PeriodicFacts.
Import Periodic.

Section Pad.
Context {F : Type} `{Scalar F}.

Lemma In_repeat_range (n i : Z) :
  (0 <= n)%Z -> In i (repeat_range n) <-> (- n <= i <= n)%Z.
Proof.
  intros Hn. unfold repeat_range.
  rewrite in_app_iff, !In_arange. lia.
Qed.

Lemma length_repeat_range (n : Z) :
  (0 <= n)%Z -> length (repeat_range n) = Z.to_nat (2 * n + 1).
Proof.
  intros Hn. unfold repeat_range.
  rewrite length_app, !length_arange. lia.
Qed.

Lemma In_meshgrid_flat (li lj : list Z) (i j : Z) :
  In (i, j) (meshgrid_flat li lj) <-> In i li /\ In j lj.
Proof.
  unfold meshgrid_flat. rewrite in_flat_map. split.
  - intros [j' [Hj Hin]]. apply in_map_iff in Hin as [i' [E Hi]].
    inversion E; subst. auto.
  - intros [Hi Hj]. exists j. split; [assumption|].
    apply in_map_iff. now exists i.
Qed.

Lemma length_meshgrid_flat (li lj : list Z) :
  length (meshgrid_flat li lj) = (length li * length lj)%nat.
Proof.
  unfold meshgrid_flat. induction lj as [|j lj IH]; simpl; [lia|].
  rewrite length_app, length_map, IH. lia.
Qed.

Lemma pad_periodic_image_value (positions : list (list F)) (a1x a1y a2x a2y : F)
      (n1 n2 : Z) :
  positions <> [] ->
  (forall p, In p positions -> length p = 2%nat) ->
  (1 <= n1)%Z -> (1 <= n2)%Z ->
  pad_periodic_image positions [[a1x; a1y]; [a2x; a2y]] n1 n2 =
  Some (flat_map (fun ij => map (fun p => translate a1x a1y a2x a2y p ij) positions)
                 (meshgrid_flat (repeat_range n1) (repeat_range n2))).
Proof.
  intros Hne Hw Hn1 Hn2.
  unfold pad_periodic_image, pad_periodic_image_body.
  assert (Hcols : ncols positions = 2%nat).
  { destruct positions as [|p ps]; [congruence|]. apply Hw. now left. }
  assert (Hsize : (size positions =? 0)%nat = false).
  { apply Nat.eqb_neq. unfold size, nrows. rewrite Hcols.
    destruct positions; [congruence|simpl; lia]. }
  rewrite Hsize. simpl raise_if. cbn [py_bind].
  replace ((n1 <? 1)%Z || (n2 <? 1)%Z) with false
    by (symmetry; apply orb_false_iff; split; apply Z.ltb_ge; lia).
  cbn [raise_if py_bind nth].
  rewrite (py_all_map_Ok _
             (fun ij : Z * Z =>
                [ s_add (s_mul (s_of_int (fst ij)) a1x) (s_mul (s_of_int (snd ij)) a2x);
                  s_add (s_mul (s_of_int (fst ij)) a1y) (s_mul (s_of_int (snd ij)) a2y) ]))
    by (intros; reflexivity).
  cbn [py_bind].
  rewrite (py_all_map_Ok _
             (fun o : list F =>
                map (fun p => match p, o with
                              | [px; py], [ox; oy] => [s_add px ox; s_add py oy]
                              | _, _ => p
                              end) positions)).
  2:{ intros o Ho. apply in_map_iff in Ho as [ij [<- _]].
      apply py_all_map_Ok. intros p Hp.
      specialize (Hw p Hp).
      destruct p as [|px [|py [|? ?]]]; try discriminate. reflexivity. }
  cbn [py_bind catch_none]. f_equal.
  rewrite Hcols, map_map, <- flat_map_concat_map.
  rewrite reshape_rows_concat; [|lia|].
  - apply flat_map_ext. intros ij.
    apply map_ext_in. intros p Hp. specialize (Hw p Hp).
    destruct p as [|px [|py [|? ?]]]; try discriminate. reflexivity.
  - intros r Hr. apply in_flat_map in Hr as [ij [_ Hr]].
    apply in_map_iff in Hr as [p [<- Hp]]. specialize (Hw p Hp).
    destruct p as [|px [|py [|? ?]]]; try discriminate. reflexivity.
Qed.

Lemma pad_periodic_image_invalid (positions cell : list (list F)) (n1 n2 : Z) :
  size positions = 0%nat \/ shape_is 2 2 cell = false \/ (n1 < 1)%Z \/ (n2 < 1)%Z ->
  pad_periodic_image positions cell n1 n2 = None.
Proof.
  intros Hbad. unfold pad_periodic_image, pad_periodic_image_body.
  destruct (size positions =? 0)%nat eqn:Hs; [reflexivity|].
  destruct (shape_is 2 2 cell) eqn:Hc; [|reflexivity].
  destruct ((n1 <? 1)%Z || (n2 <? 1)%Z) eqn:Hn; [reflexivity|].
  exfalso. apply Nat.eqb_neq in Hs. apply orb_false_iff in Hn as [Hn1 Hn2].
  apply Z.ltb_ge in Hn1, Hn2.
  destruct Hbad as [Hb|[Hb|[Hb|Hb]]]; try congruence; lia.
Qed.

End Pad.

(** C4.  [pad_periodic_image] returns [None] on an empty array, on a cell
    that is not 2x2 and on a repeat count below 1.  On a nonempty array of
    2-D points, a 2x2 cell with rows [a1] and [a2] and repeat counts
    [n1 >= 1], [n2 >= 1] it returns [|positions| * (2 n1 + 1) * (2 n2 + 1)]
    rows; every row is [p + (i a1 + j a2)] for an input point [p] and
    integers [-n1 <= i <= n1], [-n2 <= j <= n2], and every such combination
    is one of the rows. *)
Theorem pad_periodic_image_correct :
  forall (F : Type) (SF : Scalar F) (positions cell : list (list F)) (n1 n2 : Z),
    (size positions = 0%nat \/ shape_is 2 2 cell = false \/
     (n1 < 1)%Z \/ (n2 < 1)%Z ->
     pad_periodic_image positions cell n1 n2 = None) /\
    (forall a1x a1y a2x a2y : F,
        positions <> [] ->
        (forall p, In p positions -> length p = 2%nat) ->
        cell = [[a1x; a1y]; [a2x; a2y]] ->
        (1 <= n1)%Z -> (1 <= n2)%Z ->
        exists out,
          pad_periodic_image positions cell n1 n2 = Some out /\
          length out =
            (length positions * (Z.to_nat (2 * n1 + 1) * Z.to_nat (2 * n2 + 1)))%nat /\
          (forall q, In q out ->
             exists p i j,
               In p positions /\ (- n1 <= i <= n1)%Z /\ (- n2 <= j <= n2)%Z /\
               q = translate a1x a1y a2x a2y p (i, j)) /\
          (forall p i j,
              In p positions -> (- n1 <= i <= n1)%Z -> (- n2 <= j <= n2)%Z ->
              In (translate a1x a1y a2x a2y p (i, j)) out)).
Proof.
  intros F SF positions cell n1 n2. split.
  - apply pad_periodic_image_invalid.
  - intros a1x a1y a2x a2y Hne Hw -> Hn1 Hn2.
    eexists. split; [apply pad_periodic_image_value; assumption|].
    split; [|split].
    + rewrite flat_map_concat_map.
      rewrite (length_concat_const (length positions)).
      * rewrite length_map, length_meshgrid_flat, !length_repeat_range by lia. lia.
      * intros r Hr. apply in_map_iff in Hr as [ij [<- _]]. apply length_map.
    + intros q Hq. apply in_flat_map in Hq as [[i j] [Hij Hq]].
      apply in_map_iff in Hq as [p [<- Hp]].
      apply In_meshgrid_flat in Hij as [Hi Hj].
      apply In_repeat_range in Hi; [|lia]. apply In_repeat_range in Hj; [|lia].
      exists p, i, j. auto.
    + intros p i j Hp Hi Hj. apply in_flat_map. exists (i, j). split.
      * apply In_meshgrid_flat. split; apply In_repeat_range; lia.
      * apply in_map_iff. now exists p.
Qed.

Lemma pad_periodic_image_correct_witness :
  exists out,
    pad_periodic_image (F := Z) [[10; 20]; [30; 40]]%Z [[100; 0]; [0; 1000]]%Z 1 1
      = Some out /\
    length out = 18%nat /\
    In [110; 1020]%Z out.
Proof.
  destruct (pad_periodic_image_correct Z Scalar_Z
              [[10; 20]; [30; 40]]%Z [[100; 0]; [0; 1000]]%Z 1 1) as [_ Hok].
  destruct (Hok 100 0 0 1000)%Z as [out [Hout [Hlen [_ Hall]]]].
  - discriminate.
  - intros p [<-|[<-|[]]]; reflexivity.
  - reflexivity.
  - lia.
  - lia.
  - exists out. split; [exact Hout|]. split; [exact Hlen|].
    apply (Hall [10; 20]%Z 1%Z 1%Z); [now left|lia|lia].
Defined.

(** Outside the arrays of 2-D points: three columns do not broadcast against
    the offsets and the call returns [None]; one column broadcasts and every
    translate comes back as two rows of one entry. *)
Example pad_periodic_image_three_columns :
  pad_periodic_image (F := Z) [[1; 2; 3]]%Z [[10; 0]; [0; 10]]%Z 1 1 = None.
Proof. reflexivity. Qed.

Example pad_periodic_image_one_column :
  option_map (@length (list Z))
             (pad_periodic_image (F := Z) [[1]; [2]]%Z [[10; 0]; [0; 10]]%Z 1 1)
  = Some 36%nat.
Proof. reflexivity. Qed.

End PeriodicFacts.

(** ** VoronoiAnalyzer *)

Module VoronoiFacts.
Import VoronoiAnalyzer.

Lemma circumcenter_degenerate (x0 y0 x1 y1 x2 y2 : R) :
  Rabs (determinant x0 y0 x1 y1 x2 y2) < epsilon ->
  _calculate_circumcenter [[x0; y0]; [x1; y1]; [x2; y2]] =
  Ok [(x0 + x1 + x2) / 3; (y0 + y1 + y2) / 3].
Proof.
  intros Hd. unfold _calculate_circumcenter. cbn [index nth_error of_option py_bind].
  fold (determinant x0 y0 x1 y1 x2 y2).
  destruct (Rlt_dec _ _) as [_|Hn]; [|contradiction].
  unfold mean_axis0. cbn. do 3 f_equal; lra.
Qed.

Lemma circumcenter_regular (x0 y0 x1 y1 x2 y2 : R) :
  let d := determinant x0 y0 x1 y1 x2 y2 in
  epsilon <= Rabs d ->
  _calculate_circumcenter [[x0; y0]; [x1; y1]; [x2; y2]] =
  Ok [ ((x0 ^ 2 + y0 ^ 2) * (y1 - y2) + (x1 ^ 2 + y1 ^ 2) * (y2 - y0) +
        (x2 ^ 2 + y2 ^ 2) * (y0 - y1)) / d;
       ((x0 ^ 2 + y0 ^ 2) * (x2 - x1) + (x1 ^ 2 + y1 ^ 2) * (x0 - x2) +
        (x2 ^ 2 + y2 ^ 2) * (x1 - x0)) / d ].
Proof.
  intros d Hd. unfold _calculate_circumcenter. cbn [index nth_error of_option py_bind].
  fold (determinant x0 y0 x1 y1 x2 y2). fold d.
  destruct (Rlt_dec _ _) as [Hlt|_]; [lra|reflexivity].
Qed.

Lemma distance_2d (ux uy x y : R) :
  distance [ux; uy] [x; y] = sqrt ((ux - x) ^ 2 + (uy - y) ^ 2).
Proof. unfold distance, norm. cbn. f_equal. ring. Qed.

(** C5.  On the triangle [(x0, y0), (x1, y1), (x2, y2)] with
    [d = 2 (x0 (y1 - y2) + x1 (y2 - y0) + x2 (y0 - y1))]:
    when [|d| < 1e-10] the result is the centroid of the three vertices;
    when [|d| >= 1e-10] it is the closed-form circumcenter, a point at the
    same Euclidean distance from the three vertices. *)
Theorem calculate_circumcenter_correct (x0 y0 x1 y1 x2 y2 : R) :
  let d := determinant x0 y0 x1 y1 x2 y2 in
  let triangle := [[x0; y0]; [x1; y1]; [x2; y2]] in
  (Rabs d < 1e-10 ->
   _calculate_circumcenter triangle =
   Ok [(x0 + x1 + x2) / 3; (y0 + y1 + y2) / 3]) /\
  (1e-10 <= Rabs d ->
   exists ux uy,
     _calculate_circumcenter triangle = Ok [ux; uy] /\
     ux = ((x0 ^ 2 + y0 ^ 2) * (y1 - y2) + (x1 ^ 2 + y1 ^ 2) * (y2 - y0) +
           (x2 ^ 2 + y2 ^ 2) * (y0 - y1)) / d /\
     uy = ((x0 ^ 2 + y0 ^ 2) * (x2 - x1) + (x1 ^ 2 + y1 ^ 2) * (x0 - x2) +
           (x2 ^ 2 + y2 ^ 2) * (x1 - x0)) / d /\
     distance [ux; uy] [x0; y0] = distance [ux; uy] [x1; y1] /\
     distance [ux; uy] [x1; y1] = distance [ux; uy] [x2; y2]).
Proof.
  intros d triangle. split.
  - apply circumcenter_degenerate.
  - intros Hd. do 2 eexists.
    split; [apply circumcenter_regular; exact Hd|].
    split; [reflexivity|]. split; [reflexivity|].
    assert (Hnz : d <> 0).
    { intros E. rewrite E, Rabs_R0 in Hd. lra. }
    fold d. rewrite !distance_2d.
    split; f_equal; unfold d, determinant in *; field; lra.
Qed.

Lemma calculate_circumcenter_correct_witness :
  _calculate_circumcenter [[0; 0]; [1; 0]; [2; 0]] = Ok [(0 + 1 + 2) / 3; (0 + 0 + 0) / 3] /\
  exists ux uy,
    _calculate_circumcenter [[0; 0]; [2; 0]; [0; 2]] = Ok [ux; uy] /\
    distance [ux; uy] [0; 0] = distance [ux; uy] [2; 0] /\
    distance [ux; uy] [2; 0] = distance [ux; uy] [0; 2].
Proof.
  split.
  - apply (proj1 (calculate_circumcenter_correct 0 0 1 0 2 0)).
    unfold determinant.
    replace (2 * (0 * (0 - 0) + 1 * (0 - 0) + 2 * (0 - 0))) with 0 by ring.
    rewrite Rabs_R0. lra.
  - destruct (proj2 (calculate_circumcenter_correct 0 0 2 0 0 2)) as
      [ux [uy [Hc [_ [_ [H1 H2]]]]]].
    + unfold determinant.
      replace (2 * (0 * (0 - 2) + 2 * (2 - 0) + 0 * (0 - 0))) with 8 by ring.
      rewrite Rabs_pos_eq; lra.
    + exists ux, uy. auto.
Defined.


(** *** get_primitive_voronoi_cell *)

Section PrimitiveCell.
Context {scipy : SciPy}.

(** The nine points handed to [Voronoi] are the combinations
    [x a1 + y a2] with [x, y] in [{-1, 0, 1}], the origin being number 4. *)
Lemma lattice_points_grid (a1x a1y a2x a2y : R) :
  exists pts,
    matmul grid_points [[a1x; a1y]; [a2x; a2y]] = Ok pts /\
    length pts = 9%nat /\
    nth 4 pts [] = [0 + 0 * a1x + 0 * a2x; 0 + 0 * a1y + 0 * a2y] /\
    forall p, In p pts <->
      exists x y, In x [-1; 0; 1]%Z /\ In y [-1; 0; 1]%Z /\
                  p = [0 + IZR x * a1x + IZR y * a2x; 0 + IZR x * a1y + IZR y * a2y].
Proof.
  eexists. split; [reflexivity|]. split; [reflexivity|]. split; [reflexivity|].
  intros p. cbn. split.
  - intros Hp.
    repeat (destruct Hp as [<-|Hp];
            [do 2 eexists; split; [|split; [|reflexivity]]; simpl; tauto|]).
    destruct Hp.
  - intros [x [y [Hx [Hy ->]]]]. simpl in Hx, Hy.
    destruct Hx as [<-|[<-|[<-|[]]]]; destruct Hy as [<-|[<-|[<-|[]]]]; tauto.
Qed.

Lemma primitive_cell_unbounded (lattice_vectors pts : list (list R))
      (vor : voronoi_diagram) (r : nat) (central_region : list Z) :
  matmul grid_points lattice_vectors = Ok pts ->
  Voronoi pts = Ok vor ->
  nth_error (point_region vor) 4 = Some r ->
  nth_error (regions vor) r = Some central_region ->
  In (-1)%Z central_region ->
  get_primitive_voronoi_cell lattice_vectors = Ok None.
Proof.
  intros Hm Hv Hr Hc Hin.
  unfold get_primitive_voronoi_cell, get_primitive_voronoi_cell_try.
  rewrite Hm. cbn [py_bind]. rewrite Hv. cbn [py_bind].
  unfold index. rewrite Hr. cbn [of_option py_bind]. rewrite Hc. cbn [of_option py_bind].
  replace (existsb (Z.eqb (-1)) central_region) with true; [reflexivity|].
  symmetry. apply existsb_exists. exists (-1)%Z. split; [assumption|reflexivity].
Qed.

Lemma primitive_cell_bounded (lattice_vectors pts : list (list R))
      (vor : voronoi_diagram) (r : nat) (central_region : list Z)
      (cell : list (list R)) :
  matmul grid_points lattice_vectors = Ok pts ->
  Voronoi pts = Ok vor ->
  nth_error (point_region vor) 4 = Some r ->
  nth_error (regions vor) r = Some central_region ->
  ~ In (-1)%Z central_region ->
  take_int (vertices vor) central_region = Ok cell ->
  get_primitive_voronoi_cell lattice_vectors = Ok (Some cell).
Proof.
  intros Hm Hv Hr Hc Hin Ht.
  unfold get_primitive_voronoi_cell, get_primitive_voronoi_cell_try.
  rewrite Hm. cbn [py_bind]. rewrite Hv. cbn [py_bind].
  unfold index. rewrite Hr. cbn [of_option py_bind]. rewrite Hc. cbn [of_option py_bind].
  replace (existsb (Z.eqb (-1)) central_region) with false.
  - cbn [negb]. rewrite Ht. reflexivity.
  - symmetry. apply not_true_is_false. intros E.
    apply existsb_exists in E as [z [Hz Ez]]. apply Z.eqb_eq in Ez. now subst.
Qed.

End PrimitiveCell.

(** A lattice array with three rows does not multiply with the grid: the
    ValueError of [@] ends in the same NameError, whatever the library does. *)
Lemma get_primitive_voronoi_cell_bad_shape (scipy : SciPy) (r1 r2 r3 : list R) :
  get_primitive_voronoi_cell [r1; r2; r3] = Raise NameError.
Proof. reflexivity. Qed.

(** C9 (what the code does when the tessellation cannot be built).  When
    [Voronoi] raises on the nine lattice points, the method does not return
    [None]: the NameError of its handler escapes. *)
Theorem get_primitive_voronoi_cell_raises :
  forall (scipy : SciPy) (lattice_vectors pts : list (list R)) (e : exn),
    matmul grid_points lattice_vectors = Ok pts ->
    Voronoi pts = Raise e ->
    get_primitive_voronoi_cell lattice_vectors = Raise NameError /\
    get_primitive_voronoi_cell lattice_vectors <> Ok None.
Proof.
  intros scipy lattice_vectors pts e Hm Hv.
  unfold get_primitive_voronoi_cell, get_primitive_voronoi_cell_try.
  rewrite Hm. cbn [py_bind]. rewrite Hv. cbn [py_bind].
  split; [reflexivity|discriminate].
Qed.

Lemma get_primitive_voronoi_cell_raises_witness :
  @get_primitive_voronoi_cell scipy_stub [[1; 0]; [2; 0]] = Raise NameError /\
  @get_primitive_voronoi_cell scipy_stub [[1; 0]; [2; 0]] <> Ok None.
Proof.
  eapply (get_primitive_voronoi_cell_raises scipy_stub [[1; 0]; [2; 0]]).
  - reflexivity.
  - reflexivity.
Defined.


(** *** interpolate_displacements *)

Section Interpolation.
Context {scipy : SciPy}.
Hypothesis rbf_rows : rbf_keeps_rows.

Lemma rows_op_length (f : R -> R -> R) (M M' : list (list R)) (row : list R) :
  rows_op f M row = Ok M' -> length M' = length M.
Proof.
  unfold rows_op. intros Hop. apply py_all_length in Hop.
  now rewrite length_map in Hop.
Qed.

Lemma map_to_cell_rows (points ov tv : list (list R)) (oc tc : list R)
      (mapped : list (list R)) :
  _map_to_cell points ov tv oc tc = Some mapped ->
  length mapped = length points.
Proof.
  unfold _map_to_cell. intros Hmap.
  py_step Hmap. destruct a as [ovc tvc].
  py_step Hmap. py_step Hmap. destruct a0 as [rows cols].
  py_step Hmap. py_step Hmap. py_step Hmap. py_step Hmap. py_step Hmap.
  py_step Hmap. inversion Hmap; subst.
  match goal with
  | Hp : rows_op Rplus _ _ = Ok _, Hc : rows_op Rminus points _ = Ok _,
    Hf : RBFInterpolator _ _ = Ok _, Ha : _ _ = Ok ?t |- _ =>
      apply rows_op_length in Hp; apply rows_op_length in Hc;
      rewrite Hp, <- Hc; exact (rbf_rows _ _ _ _ _ Hf Ha)
  end.
Qed.

Lemma map_query_rows (ctx : context) (q : list R) (pp up : list (list R)) :
  map_query ctx q = Ok (pp, up) -> length pp = 1%nat /\ length up = 1%nat.
Proof.
  unfold map_query. intros Hq.
  repeat match type of Hq with
         | context [py_bind ?m _] =>
             let E := fresh "E" in
             destruct m eqn:E; cbn [py_bind] in Hq; [|discriminate Hq]
         | (let '(_, _) := ?p in _) = _ => destruct p
         end.
  inversion Hq; subst.
  repeat match goal with
         | H : of_option _ ?o = Ok _ |- _ =>
             destruct o eqn:?; cbn [of_option] in H; [inversion H; subst; clear H|discriminate H]
         end.
  split;
    match goal with
    | H : _map_to_cell [_] _ _ _ _ = Some ?x |- length ?x = _ =>
        apply map_to_cell_rows in H; exact H
    end.
Qed.

Lemma query_result_iff (ctx : context) (q : list R) :
  (exists r, query_result ctx q = Some r) <-> exists r, map_query ctx q = Ok r.
Proof.
  unfold query_result. split.
  - destruct (map_query ctx q) as [r|e]; [now exists r|now intros [? ?]].
  - intros [[pp up] Hr]. rewrite Hr.
    destruct (map_query_rows _ _ _ _ Hr) as [Hp Hu].
    destruct pp; [discriminate|]. destruct up; [discriminate|]. eauto.
Qed.

(** One iteration either appends one row to each result list or logs the
    query point. *)
Lemma loop_body_cases (ctx : context) (st : loop_state) (q : list R) :
  (exists p0 u0,
     query_result ctx q = Some (p0, u0) /\
     loop_body ctx st q =
     {| interpolated_pristine := interpolated_pristine st ++ [p0];
        interpolated_unrelaxed := interpolated_unrelaxed st ++ [u0];
        skipped := skipped st |}) \/
  (query_result ctx q = None /\ loop_body ctx st q = log_and_continue st q).
Proof.
  unfold loop_body, query_result.
  destruct (map_query ctx q) as [[pp up]|e] eqn:Hq.
  - left.
    destruct (map_query_rows _ _ _ _ Hq) as [Hp Hu].
    destruct pp as [|p0 pp]; [discriminate|].
    destruct up as [|u0 up]; [discriminate|].
    exists p0, u0. split; reflexivity.
  - right. split; reflexivity.
Qed.

Lemma query_loop_state (ctx : context) (qs : list (list R)) (st : loop_state) :
  fold_left (loop_body ctx) qs st =
  {| interpolated_pristine := interpolated_pristine st ++ map fst (results ctx qs);
     interpolated_unrelaxed := interpolated_unrelaxed st ++ map snd (results ctx qs);
     skipped := skipped st ++ filter (fun q => negb (succeeds ctx q)) qs |}.
Proof.
  revert st. induction qs as [|q qs IH]; intros st; cbn [fold_left filter].
  - unfold results. cbn. rewrite !app_nil_r. now destruct st.
  - rewrite IH. unfold results, succeeds. cbn [flat_map].
    destruct (loop_body_cases ctx st q) as [[p0 [u0 [Hr Hb]]]|[Hr Hb]];
      rewrite Hb, Hr;
      cbn [skipped interpolated_pristine interpolated_unrelaxed
           log_and_continue negb app map fst snd];
      now rewrite <- ?app_assoc.
Qed.

Lemma length_results (ctx : context) (qs : list (list R)) :
  length (results ctx qs) = length (filter (succeeds ctx) qs).
Proof.
  unfold results, succeeds. induction qs as [|q qs IH]; [reflexivity|].
  cbn [flat_map filter]. destruct (query_result ctx q); cbn; now rewrite IH.
Qed.

End Interpolation.

(** C3.  Every query point is processed on its own: the result lists hold
    the rows of exactly the query points whose iteration ran to the end, in
    order, and the others are logged and skipped.  The call returns [None]
    if and only if no query point succeeded; otherwise the first dimension
    of the two returned point arrays is the number of query points that
    succeeded, which is at most the number supplied. *)
Theorem interpolate_displacements_partial_success :
  forall (scipy : SciPy),
    rbf_keeps_rows ->
    forall relaxed unrelaxed query_points pristine_cell : list (list R),
      let run :=
        interpolate_displacements_run relaxed unrelaxed query_points pristine_cell in
      let n := n_succeeded relaxed unrelaxed query_points pristine_cell in
      (forall ctx,
          prepare relaxed unrelaxed query_points pristine_cell = Ok ctx ->
          interpolated_pristine (snd run) = map fst (results ctx query_points) /\
          interpolated_unrelaxed (snd run) = map snd (results ctx query_points) /\
          skipped (snd run) =
            filter (fun q => negb (succeeds ctx q)) query_points) /\
      (interpolate_displacements relaxed unrelaxed query_points pristine_cell = None
       <-> n = 0%nat) /\
      (forall P U cu cr,
          interpolate_displacements relaxed unrelaxed query_points pristine_cell
            = Some (P, U, cu, cr) ->
          length P = n /\ length U = n /\ (n <= length query_points)%nat).
Proof.
  intros scipy Hrbf relaxed unrelaxed query_points pristine_cell run n.
  subst run n.
  unfold interpolate_displacements, interpolate_displacements_run, n_succeeded.
  destruct (prepare relaxed unrelaxed query_points pristine_cell) as [ctx|e].
  - rewrite (query_loop_state Hrbf). cbn [interpolated_pristine interpolated_unrelaxed
                                         skipped initial_state app].
    rewrite <- (length_results ctx query_points).
    assert (Hle : (length (results ctx query_points) <= length query_points)%nat).
    { rewrite length_results. apply filter_length_le. }
    destruct (results ctx query_points) as [|r rs] eqn:Hres; cbn [map is_nil orb fst snd].
    + split; [|split].
      * intros ctx' E. inversion E; subst ctx'. rewrite Hres. auto.
      * split; reflexivity.
      * discriminate.
    + split; [|split].
      * intros ctx' E. inversion E; subst ctx'. rewrite Hres. auto.
      * split; discriminate.
      * intros P U cu cr E. inversion E; subst.
        cbn [length] in *. rewrite !length_map. auto.
  - cbn [fst snd]. split; [|split].
    + discriminate.
    + split; reflexivity.
    + discriminate.
Qed.

(** Evaluation of the model on concrete reals: everything is computed but
    the arithmetic, and the comparisons left are decided one by one. *)
Ltac crunch :=
  cbv -[Rplus Rminus Rmult Rdiv Rinv Ropp Rlt_dec Rle_dec Rabs sqrt atan PI pow
        IZR INR exp epsilon arctan2 distance norm RealArrays.sum].

Ltac real_fact :=
  unfold epsilon; cbn [RealArrays.sum fold_right map];
  try (rewrite Rabs_pos_eq by lra); lra.

Ltac decide_real :=
  match goal with
  | |- context [Rlt_dec ?a ?b] =>
      let H := fresh in
      destruct (Rlt_dec a b) as [H|H];
      [ try (exfalso; revert H; real_fact)
      | try (exfalso; apply H; real_fact) ]
  end.

Lemma scipy_stub_keeps_rows : @rbf_keeps_rows scipy_stub.
Proof.
  intros X Y f Q out Hf Hq. cbn in Hf. inversion Hf; subst. now inversion Hq.
Qed.

(** On the example the query point [(0, 0)] is mapped and the query point
    [(9, 9)], whose nearest site is in no simplex, is not. *)
Lemma example_queries :
  exists ctx,
    @prepare scipy_stub example_points example_points [[0; 0]; [9; 9]] example_cell
      = Ok ctx /\
    (exists r, @query_result scipy_stub ctx [0; 0] = Some r) /\
    @query_result scipy_stub ctx [9; 9] = None.
Proof.
  eexists. split; [|split].
  - unfold prepare, example_points, example_cell.
    crunch. repeat decide_real. reflexivity.
  - apply (query_result_iff scipy_stub_keeps_rows).
    unfold map_query. crunch. repeat decide_real. eexists. reflexivity.
  - unfold query_result, map_query. crunch. repeat decide_real. reflexivity.
Qed.

Lemma interpolate_displacements_partial_success_witness :
  exists P U cu cr,
    @interpolate_displacements scipy_stub
      example_points example_points [[0; 0]; [9; 9]] example_cell = Some (P, U, cu, cr) /\
    length P = 1%nat /\ length U = 1%nat /\
    skipped (snd (@interpolate_displacements_run scipy_stub
                    example_points example_points [[0; 0]; [9; 9]] example_cell))
      = [[9; 9]].
Proof.
  destruct (interpolate_displacements_partial_success scipy_stub scipy_stub_keeps_rows
              example_points example_points [[0; 0]; [9; 9]] example_cell)
    as [Hloop [Hnone Hsome]].
  destruct example_queries as [ctx [Hctx [[r Hok] Hbad]]].
  assert (Hn : @n_succeeded scipy_stub
                 example_points example_points [[0; 0]; [9; 9]] example_cell = 1%nat).
  { unfold n_succeeded. rewrite Hctx. cbn [filter]. unfold succeeds.
    rewrite Hok, Hbad. reflexivity. }
  destruct (@interpolate_displacements scipy_stub
              example_points example_points [[0; 0]; [9; 9]] example_cell)
    as [[[[P U] cu] cr]|] eqn:Hcall.
  - exists P, U, cu, cr. split; [reflexivity|].
    destruct (Hsome P U cu cr eq_refl) as [HP [HU _]]. rewrite Hn in HP, HU.
    split; [exact HP|]. split; [exact HU|].
    destruct (Hloop ctx Hctx) as [_ [_ Hskip]]. rewrite Hskip.
    cbn [filter]. unfold succeeds. rewrite Hok, Hbad. reflexivity.
  - exfalso. rewrite Hn in Hnone. destruct Hnone as [H0 _].
    specialize (H0 eq_refl). discriminate.
Defined.

(** *** _map_to_cell *)

Ltac two_columns v H :=
  let x := fresh "x" in
  let y := fresh "y" in
  destruct v as [|x [|y [|? ?]]]; try discriminate H.

Lemma centered_vertices_2d (ov tv : list (list R)) (oc tc : list R) :
  (forall v, In v ov -> length v = 2%nat) ->
  (forall v, In v tv -> length v = 2%nat) ->
  length oc = 2%nat -> length tc = 2%nat ->
  centered_vertices ov tv oc tc =
  Ok (map (source_shifted oc tc) ov, map (target_shifted tc) tv).
Proof.
  intros Hov Htv Hoc Htc. unfold centered_vertices.
  two_columns oc Hoc. two_columns tc Htc.
  cbn [broadcast length Nat.eqb combine map fst snd py_bind].
  unfold rows_op.
  rewrite (py_all_map_Ok _ (source_shifted [x; y] [x0; y0])).
  2:{ intros v Hv. specialize (Hov v Hv). two_columns v Hov. reflexivity. }
  cbn [py_bind].
  rewrite (py_all_map_Ok _ (target_shifted [x0; y0])).
  2:{ intros v Hv. specialize (Htv v Hv). two_columns v Htv. reflexivity. }
  reflexivity.
Qed.

Lemma cdist_same_width (w : nat) (XA XB : list (list R)) :
  (forall a, In a XA -> length a = w) ->
  (forall b, In b XB -> length b = w) ->
  cdist XA XB = Ok (map (fun a => map (distance a) XB) XA).
Proof.
  intros HA HB. unfold cdist.
  apply py_all_map_Ok. intros a Ha.
  apply py_all_map_Ok. intros b Hb.
  rewrite (HA a Ha), (HB b Hb), Nat.eqb_refl. reflexivity.
Qed.






Lemma distance_horizontal (a b c d : R) :
  b - d = 0 -> distance [a; b] [c; d] = Rabs (a - c).
Proof.
  intros Hbd. rewrite distance_2d.
  replace ((a - c) ^ 2 + (b - d) ^ 2) with ((a - c)²)
    by (rewrite Hbd; unfold Rsqr; ring).
  apply sqrt_Rsqr_abs.
Qed.




End VoronoiFacts.


(** ** WassersteinMetric *)

Module WassersteinFacts.
Import WassersteinMetric.

Lemma combine_map_same {A B C} (f : A -> B) (g : A -> C) (l : list A) :
  combine (map f l) (map g l) = map (fun x => (f x, g x)) l.
Proof. induction l as [|x l IH]; simpl; [reflexivity|now rewrite IH]. Qed.

Lemma entrywise_min_maps {A B} (g h : A -> B -> R) (PA : list A) (PB : list B) :
  map (fun rows : list R * list R =>
         map (fun xy => Rmin (fst xy) (snd xy)) (combine (fst rows) (snd rows)))
      (combine (map (fun a => map (fun b => g a b) PB) PA)
               (map (fun a => map (fun b => h a b) PB) PA)) =
  map (fun a => map (fun b => Rmin (g a b) (h a b)) PB) PA.
Proof.
  rewrite (combine_map_same (fun a => map (fun b => g a b) PB)
                            (fun a => map (fun b => h a b) PB) PA).
  rewrite map_map. apply map_ext. intros a. cbn [fst snd].
  rewrite (combine_map_same (fun b => g a b) (fun b => h a b) PB).
  now rewrite map_map.
Qed.

Lemma min_axis0_maps {K A B} (f : K -> A -> B -> R) (k0 : K) (ks : list K)
      (PA : list A) (PB : list B) :
  min_axis0 (map (fun k => map (fun a => map (fun b => f k a b) PB) PA) (k0 :: ks)) =
  Ok (map (fun a => map (fun b => least (f k0 a b) (map (fun k => f k a b) ks)) PB) PA).
Proof.
  unfold min_axis0, least. cbn [map]. f_equal.
  generalize (f k0) as g. induction ks as [|k ks IH]; intros g; cbn [map fold_left].
  - reflexivity.
  - rewrite (entrywise_min_maps g (f k) PA PB).
    apply (IH (fun a b => Rmin (g a b) (f k a b))).
Qed.

Lemma least_lower_bound (l : list R) (x : R) :
  least x l <= x /\ forall y, In y l -> least x l <= y.
Proof.
  unfold least. revert x. induction l as [|z l IH]; intros x; cbn [fold_left].
  - split; [lra|intros y []].
  - destruct (IH (Rmin x z)) as [H1 H2]. split.
    + pose proof (Rmin_l x z). lra.
    + intros y [<-|Hy]; [|now apply H2].
      pose proof (Rmin_r x z). lra.
Qed.

Lemma least_attained (l : list R) (x : R) :
  least x l = x \/ In (least x l) l.
Proof.
  unfold least. revert x. induction l as [|z l IH]; intros x; cbn [fold_left].
  - now left.
  - destruct (IH (Rmin x z)) as [E|Hin].
    + rewrite E. unfold Rmin. destruct (Rle_dec x z); [now left|right; now left].
    + right. now right.
Qed.

Lemma In_image_indices (i j : Z) :
  In (i, j) image_indices <-> (-2 <= i <= 2)%Z /\ (-2 <= j <= 2)%Z.
Proof.
  unfold image_indices. rewrite in_flat_map. split.
  - intros [i' [Hi Hin]]. apply in_map_iff in Hin as [j' [E Hj]].
    inversion E; subst. apply In_arange in Hi, Hj. lia.
  - intros [Hi Hj]. exists i. split; [apply In_arange; lia|].
    apply in_map_iff. exists j. split; [reflexivity|apply In_arange; lia].
Qed.

Lemma image_indices_cons :
  image_indices = (-2, -2)%Z :: tl image_indices.
Proof. reflexivity. Qed.

Ltac two_entries v H :=
  let x := fresh "x" in
  let y := fresh "y" in
  destruct v as [|x [|y [|? ?]]]; try discriminate H.

(** The periodic differences of 2-D rows under a 2x2 lattice. *)
Lemma periodic_differences_2d (a1 a2 : list num) (area : num)
      (points1 points2 : list (list num)) :
  length a1 = 2%nat -> length a2 = 2%nat ->
  (forall p, In p points1 -> length p = 2%nat) ->
  (forall p, In p points2 -> length p = 2%nat) ->
  periodic_differences {| lattice_vectors := [a1; a2]; cell_area := area |}
                       points1 points2 =
  Ok (map (fun ij => map (fun p1 => map (fun p2 => image_row a1 a2 p1 p2 ij) points2)
                         points1)
          image_indices).
Proof.
  intros Ha1 Ha2 H1 H2. unfold periodic_differences, lattice_offsets.
  cbn [lattice_vectors index nth_error of_option py_bind].
  two_entries a1 Ha1. two_entries a2 Ha2.
  rewrite (py_all_map_Ok _
             (fun ij : Z * Z =>
                [ s_add (s_mul (s_of_int (fst ij)) x) (s_mul (s_of_int (snd ij)) x0);
                  s_add (s_mul (s_of_int (fst ij)) y) (s_mul (s_of_int (snd ij)) y0) ]))
    by (intros; reflexivity).
  cbn [py_bind].
  rewrite (py_all_map_Ok _
             (fun p1 : list num =>
                map (fun p2 : list num =>
                       [ s_sub (nth 0 p1 NonFin) (nth 0 p2 NonFin);
                         s_sub (nth 1 p1 NonFin) (nth 1 p2 NonFin) ]) points2)).
  2:{ intros p1 Hp1. apply py_all_map_Ok. intros p2 Hp2.
      specialize (H1 p1 Hp1). specialize (H2 p2 Hp2).
      two_entries p1 H1. two_entries p2 H2. reflexivity. }
  cbn [py_bind]. rewrite map_map.
  apply py_all_map_Ok. intros ij _.
  rewrite map_map. apply py_all_map_Ok. intros p1 _.
  rewrite map_map. apply py_all_map_Ok. intros p2 _.
  reflexivity.
Qed.

Lemma image_row_finite (a1x a1y a2x a2y : R) (p1 p2 : list R) (ij : Z * Z) :
  length p1 = 2%nat -> length p2 = 2%nat ->
  image_row [Fin a1x; Fin a1y] [Fin a2x; Fin a2y] (map Fin p1) (map Fin p2) ij =
  map Fin (image_vector a1x a1y a2x a2y p1 p2 ij).
Proof.
  intros H1 H2. two_entries p1 H1. two_entries p2 H2. reflexivity.
Qed.

Lemma map_value_Fin (v : list R) : map value (map Fin v) = v.
Proof. rewrite map_map. cbn [value]. apply map_id. Qed.

Lemma forallb_finite_Fin (v : list R) : forallb is_finite (map Fin v) = true.
Proof. apply forallb_forall. intros x Hx. apply in_map_iff in Hx as [r [<- _]]. reflexivity. Qed.

(** The cost matrix of finite 2-D point sets. *)
Lemma cost_matrix_value (a1x a1y a2x a2y : R) (P1 P2 : list (list R)) :
  (forall p, In p P1 -> length p = 2%nat) ->
  (forall p, In p P2 -> length p = 2%nat) ->
  _calculate_cost_matrix (metric_of a1x a1y a2x a2y) (finite P1) (finite P2) =
  Ok (cost_of a1x a1y a2x a2y P1 P2).
Proof.
  intros H1 H2. unfold _calculate_cost_matrix, metric_of.
  rewrite periodic_differences_2d; try reflexivity.
  2,3: unfold finite; intros p Hp; apply in_map_iff in Hp as [r [<- Hr]];
       rewrite length_map; auto.
  cbn [py_bind]. unfold finite.
  assert (Hrows : map (fun ij : Z * Z =>
                    map (fun p1 : list num =>
                      map (fun p2 : list num =>
                             image_row [Fin a1x; Fin a1y] [Fin a2x; Fin a2y] p1 p2 ij)
                          (map (map Fin) P2)) (map (map Fin) P1)) image_indices =
                  map (fun ij : Z * Z =>
                    map (fun p1 : list R =>
                      map (fun p2 : list R =>
                             map Fin (image_vector a1x a1y a2x a2y p1 p2 ij)) P2) P1)
                      image_indices).
  { apply map_ext. intros ij. rewrite map_map. apply map_ext_in. intros p1 Hp1.
    rewrite map_map. apply map_ext_in. intros p2 Hp2.
    apply image_row_finite; auto. }
  rewrite Hrows. clear Hrows.
  replace (forallb _ _) with true.
  2:{ symmetry. apply forallb_forall. intros plane Hplane.
      apply in_map_iff in Hplane as [ij [<- _]].
      apply forallb_forall. intros row Hrow. apply in_map_iff in Hrow as [p1 [<- _]].
      apply forallb_forall. intros d Hd. apply in_map_iff in Hd as [p2 [<- _]].
      apply forallb_finite_Fin. }
  cbn [negb raise_if py_bind].
  rewrite map_map.
  erewrite map_ext.
  2:{ intros ij. rewrite map_map. erewrite map_ext.
      2:{ intros p1. rewrite map_map. erewrite map_ext.
          2:{ intros p2. rewrite map_value_Fin.
              fold (image_distance a1x a1y a2x a2y p1 p2 ij). reflexivity. }
          reflexivity. }
      reflexivity. }
  rewrite image_indices_cons at 1.
  apply (min_axis0_maps (fun ij p1 p2 => image_distance a1x a1y a2x a2y p1 p2 ij)).
Qed.

(** The constructor accepts a 2x2 array and stores it with the cell area. *)
Lemma init_metric_of (a1x a1y a2x a2y : R) :
  init [[Fin a1x; Fin a1y]; [Fin a2x; Fin a2y]] = Ok (metric_of a1x a1y a2x a2y).
Proof. reflexivity. Qed.

Lemma init_bad_shape (lattice : list (list num)) :
  shape_is 2 2 lattice = false -> init lattice = Raise ValueError.
Proof. intros Hs. unfold init. now rewrite Hs. Qed.

Lemma norm_nonneg (v : list R) : 0 <= norm v.
Proof. unfold norm. apply sqrt_pos. Qed.

Lemma norm_zero_2d (x y : R) : x = 0 -> y = 0 -> norm [x; y] = 0.
Proof.
  intros -> ->. unfold norm. cbn.
  replace (0 * 0 + (0 * 0 + 0)) with 0 by ring. apply sqrt_0.
Qed.

Lemma In_image_indices_cases (ij : Z * Z) :
  In ij image_indices <-> ij = (-2, -2)%Z \/ In ij (tl image_indices).
Proof. rewrite image_indices_cons at 1. cbn [In]. split; intros [H|H]; auto. Qed.

(** A cost entry is a lower bound of the 25 image distances, is one of them,
    and is not negative. *)
Lemma periodic_cost_least (a1x a1y a2x a2y : R) (pA pB : list R) :
  let c := periodic_cost a1x a1y a2x a2y pA pB in
  (forall i j, (-2 <= i <= 2)%Z -> (-2 <= j <= 2)%Z ->
               c <= image_distance a1x a1y a2x a2y pA pB (i, j)) /\
  (exists i j, (-2 <= i <= 2)%Z /\ (-2 <= j <= 2)%Z /\
               c = image_distance a1x a1y a2x a2y pA pB (i, j)) /\
  0 <= c.
Proof.
  intros c. subst c. unfold periodic_cost.
  set (d := image_distance a1x a1y a2x a2y pA pB).
  destruct (least_lower_bound (map d (tl image_indices)) (d (-2, -2)%Z)) as [Hfst Hrest].
  assert (Hex : exists i j, (-2 <= i <= 2)%Z /\ (-2 <= j <= 2)%Z /\
                            least (d (-2, -2)%Z) (map d (tl image_indices)) = d (i, j)).
  { destruct (least_attained (map d (tl image_indices)) (d (-2, -2)%Z)) as [E|Hin].
    - exists (-2)%Z, (-2)%Z. repeat split; try lia. exact E.
    - apply in_map_iff in Hin as [[i j] [E Hij]].
      assert (Hin : In (i, j) image_indices)
        by (apply In_image_indices_cases; now right).
      apply In_image_indices in Hin as [Hi Hj].
      exists i, j. repeat split; try lia. now rewrite E. }
  split; [|split].
  - intros i j Hi Hj.
    assert (Hin : In (i, j) image_indices) by (apply In_image_indices; split; lia).
    apply In_image_indices_cases in Hin as [E|Hin].
    + now rewrite E.
    + apply Hrest. apply in_map_iff. now exists (i, j).
  - exact Hex.
  - destruct Hex as [i [j [_ [_ ->]]]]. apply norm_nonneg.
Qed.

Lemma nth_cost_matrix (f : list R -> list R -> R) (P1 P2 : list (list R)) (m n : nat) :
  (m < length P1)%nat -> (n < length P2)%nat ->
  nth n (nth m (map (fun p1 => map (fun p2 => f p1 p2) P2) P1) []) 0 =
  f (nth m P1 []) (nth n P2 []).
Proof.
  intros Hm Hn.
  rewrite (nth_indep _ [] ((fun p1 => map (fun p2 => f p1 p2) P2) []))
    by (rewrite length_map; exact Hm).
  rewrite (map_nth (fun p1 => map (fun p2 => f p1 p2) P2) P1 [] m).
  rewrite (nth_indep _ 0 (f (nth m P1 []) []))
    by (rewrite length_map; exact Hn).
  apply (map_nth (fun p2 => f (nth m P1 []) p2) P2 [] n).
Qed.

Lemma lift2_non_finite_r (f : R -> R -> R) (a : num) : lift2 f a NonFin = NonFin.
Proof. now destruct a. Qed.

(** The check on [diff_periodic]. *)
Lemma cost_matrix_check (self : metric) (points1 points2 : list (list num))
      (diff_periodic : list (list (list (list num)))) :
  periodic_differences self points1 points2 = Ok diff_periodic ->
  (exists plane row d x,
      In plane diff_periodic /\ In row plane /\ In d row /\ In x d /\
      is_finite x = false) ->
  _calculate_cost_matrix self points1 points2 = Raise ValueError.
Proof.
  intros Hd [plane [row [d [x [Hp [Hr [Hd' [Hx Hnf]]]]]]]].
  unfold _calculate_cost_matrix. rewrite Hd. cbn [py_bind].
  replace (forallb _ diff_periodic) with false; [reflexivity|].
  symmetry. apply not_true_is_false. intros Hall.
  rewrite forallb_forall in Hall. specialize (Hall plane Hp).
  rewrite forallb_forall in Hall. specialize (Hall row Hr).
  rewrite forallb_forall in Hall. specialize (Hall d Hd').
  rewrite forallb_forall in Hall. specialize (Hall x Hx). congruence.
Qed.

(** A NaN or infinite coordinate in either point set or in the lattice makes
    the computation raise. *)
Lemma cost_matrix_non_finite (a1 a2 : list num) (area : num)
      (points1 points2 : list (list num)) :
  length a1 = 2%nat -> length a2 = 2%nat ->
  points1 <> [] -> points2 <> [] ->
  (forall p, In p points1 -> length p = 2%nat) ->
  (forall p, In p points2 -> length p = 2%nat) ->
  has_non_finite points1 \/ has_non_finite points2 \/ has_non_finite [a1; a2] ->
  _calculate_cost_matrix {| lattice_vectors := [a1; a2]; cell_area := area |}
                         points1 points2 = Raise ValueError.
Proof.
  intros Ha1 Ha2 Hne1 Hne2 H1 H2 Hbad.
  assert (Hcase : exists p1 p2 x,
             In p1 points1 /\ In p2 points2 /\
             In x (image_row a1 a2 p1 p2 (-2, -2)%Z) /\ is_finite x = false).
  { destruct points1 as [|q1 rest1] eqn:E1; [congruence|].
    destruct points2 as [|q2 rest2] eqn:E2; [congruence|].
    rewrite <- E1, <- E2 in *.
    assert (Hq1 : In q1 points1) by (rewrite E1; now left).
    assert (Hq2 : In q2 points2) by (rewrite E2; now left).
    destruct Hbad as [[p [x [Hp [Hx Hnf]]]]|[[p [x [Hp [Hx Hnf]]]]|[p [x [Hp [Hx Hnf]]]]]];
      destruct x as [r|]; try discriminate Hnf.
    - exists p, q2, NonFin. repeat split; auto.
      specialize (H1 p Hp). two_entries p H1.
      destruct Hx as [->|[->|[]]]; unfold image_row; cbn [nth s_add s_sub Scalar_num lift2];
        [left|right; left]; reflexivity.
    - exists q1, p, NonFin. repeat split; auto.
      specialize (H2 p Hp). two_entries p H2.
      destruct Hx as [->|[->|[]]]; unfold image_row; cbn [nth s_add s_sub Scalar_num];
        rewrite lift2_non_finite_r; [left|right; left]; reflexivity.
    - exists q1, q2, NonFin. repeat split; auto.
      two_entries a1 Ha1. two_entries a2 Ha2.
      destruct Hp as [<-|[<-|[]]]; destruct Hx as [->|[->|[]]];
        unfold image_row; cbn [nth s_add s_sub s_mul s_of_int Scalar_num fst snd];
        rewrite ?lift2_non_finite_r; cbn [lift2]; rewrite ?lift2_non_finite_r;
        [left|right; left|left|right; left]; reflexivity. }
  destruct Hcase as [p1 [p2 [x [Hp1 [Hp2 [Hx Hnf]]]]]].
  eapply cost_matrix_check.
  - apply periodic_differences_2d; assumption.
  - exists (map (fun q1 => map (fun q2 => image_row a1 a2 q1 q2 (-2, -2)%Z) points2) points1),
           (map (fun q2 => image_row a1 a2 p1 q2 (-2, -2)%Z) points2),
           (image_row a1 a2 p1 p2 (-2, -2)%Z), x.
    repeat split; auto.
    + apply in_map_iff. exists (-2, -2)%Z. split; [reflexivity|].
      apply In_image_indices. lia.
    + apply in_map_iff. now exists p1.
    + apply in_map_iff. now exists p2.
Qed.

(** C8.  For finite 2-D point sets every entry of the cost matrix is the
    least Euclidean norm among the 25 periodic images
    [pA - pB + (i a1 + j a2)], [-2 <= i, j <= 2]: it is below each of them
    and equal to one of them; for [pA = pB + a1] the entry is 0.  The
    computation raises when an entry of [diff_periodic] is NaN or infinite,
    which is the case as soon as a coordinate of either (nonempty) point set
    or of the lattice vectors is. *)
Theorem cost_matrix_periodic :
  (forall (a1x a1y a2x a2y : R) (P1 P2 : list (list R)),
      (forall p, In p P1 -> length p = 2%nat) ->
      (forall p, In p P2 -> length p = 2%nat) ->
      exists C,
        _calculate_cost_matrix (metric_of a1x a1y a2x a2y) (finite P1) (finite P2)
          = Ok C /\
        length C = length P1 /\
        (forall row, In row C -> length row = length P2) /\
        forall m n, (m < length P1)%nat -> (n < length P2)%nat ->
          let pA := nth m P1 [] in
          let pB := nth n P2 [] in
          let c := nth n (nth m C []) 0 in
          (forall i j, (-2 <= i <= 2)%Z -> (-2 <= j <= 2)%Z ->
                       c <= image_distance a1x a1y a2x a2y pA pB (i, j)) /\
          (exists i j, (-2 <= i <= 2)%Z /\ (-2 <= j <= 2)%Z /\
                       c = image_distance a1x a1y a2x a2y pA pB (i, j)) /\
          (nth 0 pA 0 = nth 0 pB 0 + a1x -> nth 1 pA 0 = nth 1 pB 0 + a1y -> c = 0)) /\
  (forall (self : metric) (points1 points2 : list (list num)) diff_periodic,
      periodic_differences self points1 points2 = Ok diff_periodic ->
      (exists plane row d x,
          In plane diff_periodic /\ In row plane /\ In d row /\ In x d /\
          is_finite x = false) ->
      _calculate_cost_matrix self points1 points2 = Raise ValueError) /\
  (forall (a1 a2 : list num) (area : num) (points1 points2 : list (list num)),
      length a1 = 2%nat -> length a2 = 2%nat ->
      points1 <> [] -> points2 <> [] ->
      (forall p, In p points1 -> length p = 2%nat) ->
      (forall p, In p points2 -> length p = 2%nat) ->
      has_non_finite points1 \/ has_non_finite points2 \/ has_non_finite [a1; a2] ->
      _calculate_cost_matrix {| lattice_vectors := [a1; a2]; cell_area := area |}
                             points1 points2 = Raise ValueError).
Proof.
  split; [|split].
  - intros a1x a1y a2x a2y P1 P2 H1 H2.
    eexists. split; [apply cost_matrix_value; assumption|].
    split; [apply length_map|]. split.
    + intros row Hrow. apply in_map_iff in Hrow as [p [<- _]]. apply length_map.
    + intros m n Hm Hn pA pB c. subst c. unfold cost_of.
      rewrite (nth_cost_matrix (periodic_cost a1x a1y a2x a2y) P1 P2 m n Hm Hn).
      fold pA pB.
      destruct (periodic_cost_least a1x a1y a2x a2y pA pB) as [Hlow [Hatt Hpos]].
      split; [exact Hlow|]. split; [exact Hatt|].
      intros Ex Ey.
      assert (Hle := Hlow (-1)%Z 0%Z ltac:(lia) ltac:(lia)).
      unfold image_distance, image_vector in Hle. cbn [fst snd] in Hle.
      rewrite norm_zero_2d in Hle by (rewrite ?Ex, ?Ey; ring).
      lra.
  - exact cost_matrix_check.
  - exact cost_matrix_non_finite.
Qed.

Lemma cost_matrix_periodic_witness :
  exists C,
    _calculate_cost_matrix (metric_of 1 0 0 1) (finite [[1; 0]; [3; 3]]) (finite [[0; 0]])
      = Ok C /\
    nth 0 (nth 0 C []) 0 = 0.
Proof.
  destruct (proj1 cost_matrix_periodic 1 0 0 1 [[1; 0]; [3; 3]] [[0; 0]])
    as [C [HC [_ [_ Hentry]]]].
  - intros p [<-|[<-|[]]]; reflexivity.
  - intros p [<-|[]]; reflexivity.
  - exists C. split; [exact HC|].
    destruct (Hentry 0%nat 0%nat) as [_ [_ Hzero]]; [simpl; lia|simpl; lia|].
    apply Hzero; cbn [nth]; ring.
Defined.

(** *** Densities and marginals *)

Lemma sum_cons (x : R) (l : list R) : sum (x :: l) = x + sum l.
Proof. reflexivity. Qed.

Lemma sum_pos (l : list R) :
  l <> [] -> (forall x, In x l -> 0 < x) -> 0 < sum l.
Proof.
  induction l as [|x l IH]; intros Hne Hpos; [congruence|].
  rewrite sum_cons. assert (0 < x) by (apply Hpos; now left).
  destruct l as [|y l]; [cbn; lra|].
  assert (0 < sum (y :: l)) by (apply IH; [discriminate|intros; apply Hpos; now right]).
  lra.
Qed.

Lemma sum_nonneg (l : list R) : nonneg l -> 0 <= sum l.
Proof.
  induction 1 as [|x l Hx _ IH]; [cbn; lra|]. rewrite sum_cons. lra.
Qed.

Lemma sum_map_mult_r (c : R) (l : list R) :
  sum (map (fun d => d * c) l) = sum l * c.
Proof.
  induction l as [|x l IH]; [cbn; ring|].
  cbn [map]. rewrite !sum_cons, IH. ring.
Qed.

Lemma sum_map_div (c : R) (l : list R) :
  sum (map (fun d => d / c) l) = sum l / c.
Proof. unfold Rdiv. apply sum_map_mult_r. Qed.

Lemma sum_repeat (c : R) (n : nat) : sum (repeat c n) = INR n * c.
Proof.
  induction n as [|n IH]; [cbn; ring|].
  rewrite S_INR. cbn [repeat]. rewrite sum_cons, IH. ring.
Qed.

Lemma INR_length_pos {A} (l : list A) : l <> [] -> 0 < INR (length l).
Proof.
  destruct l; [congruence|]. intros _. apply lt_0_INR. simpl. lia.
Qed.

Lemma kde_density_pos (h : R) (P : list (list R)) :
  P <> [] -> forall x, In x (kde_density h P) -> 0 < x.
Proof.
  intros Hne x Hx. unfold kde_density in Hx.
  apply in_map_iff in Hx as [d [<- Hd]].
  assert (Hpos : forall y, In y (map exp (map (gaussian_log_density h P) P)) -> 0 < y).
  { intros y Hy. apply in_map_iff in Hy as [z [<- _]]. apply exp_pos. }
  assert (Hsum : 0 < sum (map exp (map (gaussian_log_density h P) P))).
  { apply sum_pos; [|exact Hpos]. destruct P; [congruence|discriminate]. }
  apply Rmult_lt_0_compat; [now apply Hpos|].
  apply Rdiv_lt_0_compat; [now apply INR_length_pos|exact Hsum].
Qed.

Lemma length_kde_density (h : R) (P : list (list R)) :
  length (kde_density h P) = length P.
Proof. unfold kde_density. now rewrite !length_map. Qed.

Lemma finite_rows_finite (P : list (list R)) : finite_rows (finite P) = Ok P.
Proof.
  unfold finite_rows, finite.
  replace (forallb _ _) with true.
  - f_equal. rewrite map_map. erewrite map_ext; [apply map_id|].
    intros v. apply map_value_Fin.
  - symmetry. apply forallb_forall. intros row Hrow.
    apply in_map_iff in Hrow as [v [<- _]]. apply forallb_finite_Fin.
Qed.

Lemma density_value (h : R) (P : list (list R)) :
  0 < h -> P <> [] ->
  _calculate_density (finite P) (Fin h) = Ok (kde_density h P).
Proof.
  intros Hh Hne. unfold _calculate_density.
  destruct (Rle_dec h 0) as [Hle|_]; [lra|].
  rewrite finite_rows_finite. cbn [py_bind].
  replace (length P =? 0)%nat with false
    by (symmetry; apply Nat.eqb_neq; destruct P; [congruence|discriminate]).
  cbn [raise_if py_bind]. unfold kde_density, finite. now rewrite length_map.
Qed.

Lemma density_bad_bandwidth (h : R) (points : list (list num)) :
  h <= 0 -> _calculate_density points (Fin h) = Raise ValueError.
Proof.
  intros Hh. unfold _calculate_density. destruct (Rle_dec h 0); [reflexivity|lra].
Qed.

Lemma normalized_distribution (rho : list R) :
  rho <> [] -> (forall x, In x rho -> 0 < x) -> distribution (normalized rho).
Proof.
  intros Hne Hpos. assert (Hs := sum_pos rho Hne Hpos).
  unfold distribution, normalized. split.
  - apply Forall_forall. intros y Hy. apply in_map_iff in Hy as [x [<- Hx]].
    apply Rlt_le. apply Rdiv_lt_0_compat; [now apply Hpos|exact Hs].
  - rewrite sum_map_div. field. lra.
Qed.

Lemma weights_distribution (h : R) (P : list (list R)) :
  P <> [] -> distribution (weights h P).
Proof.
  intros Hne. apply normalized_distribution.
  - intros E. apply (f_equal (@length R)) in E. rewrite length_kde_density in E.
    destruct P; [congruence|discriminate].
  - now apply kde_density_pos.
Qed.

Lemma length_weights (h : R) (P : list (list R)) : length (weights h P) = length P.
Proof. unfold weights, normalized. now rewrite length_map, length_kde_density. Qed.

Lemma uniform_distribution (P : list (list R)) :
  P <> [] -> distribution (uniform_weights P).
Proof.
  intros Hne. assert (Hn := INR_length_pos P Hne).
  unfold distribution, uniform_weights. split.
  - apply Forall_forall. intros y Hy. apply repeat_spec in Hy as ->.
    apply Rlt_le. apply Rdiv_lt_0_compat; lra.
  - rewrite sum_repeat. field. lra.
Qed.

Lemma length_uniform_weights (P : list (list R)) :
  length (uniform_weights P) = length P.
Proof. apply repeat_length. Qed.

Lemma uniform_like_weights (h : R) (P : list (list R)) :
  uniform_like (normalized (kde_density h P)) = uniform_weights P.
Proof.
  unfold uniform_like, uniform_weights.
  fold (weights h P). rewrite map_const, length_weights. reflexivity.
Qed.

(** *** calculate_distance on finite 2-D point sets *)

Section Distance.
Context {pot : POT}.

Lemma size_finite (P : list (list R)) :
  valid_points P -> (size (finite P) =? 0)%nat = false.
Proof.
  intros [Hne Hw]. apply Nat.eqb_neq. unfold size, nrows, ncols, finite.
  destruct P as [|p P]; [congruence|]. cbn [map hd].
  rewrite (length_map Fin p), (Hw p) by now left. cbn [length]. lia.
Qed.

Lemma width_finite (P : list (list R)) :
  valid_points P -> width_is 2 (finite P) = true.
Proof.
  intros [_ Hw]. unfold width_is, finite. apply forallb_forall.
  intros row Hrow. apply in_map_iff in Hrow as [p [<- Hp]].
  rewrite length_map, (Hw p Hp). reflexivity.
Qed.

Lemma calculate_distance_value (a1x a1y a2x a2y : R) (P1 P2 : list (list R))
      (bandwidth : option R) :
  valid_points P1 -> valid_points P2 ->
  let h := effective_bandwidth a1x a1y P1 bandwidth in
  let C := cost_of a1x a1y a2x a2y P1 P2 in
  calculate_distance (metric_of a1x a1y a2x a2y) (finite P1) (finite P2) bandwidth =
  if Rle_dec h 0 then Raise ValueError
  else
    (T <- emd (weights h P1) (weights h P2) C ;;
     Tu <- emd (uniform_weights P1) (uniform_weights P2) C ;;
     Ok (sum_product T C, T, sum_product Tu C, Tu))%py.
Proof.
  intros Hv1 Hv2 h C. unfold calculate_distance.
  rewrite (size_finite P1 Hv1), (size_finite P2 Hv2).
  rewrite (width_finite P1 Hv1), (width_finite P2 Hv2).
  cbn [orb negb raise_if py_bind].
  assert (Hbw : match bandwidth with
                | Some b => Ok (Fin b)
                | None => default_bandwidth (metric_of a1x a1y a2x a2y) (finite P1)
                end = Ok (Fin h)).
  { subst h. destruct bandwidth as [b|]; [reflexivity|].
    unfold default_bandwidth, metric_of, effective_bandwidth, finite.
    cbn. now rewrite length_map. }
  rewrite Hbw. cbn [py_bind].
  destruct (Rle_dec h 0) as [Hle|Hgt].
  - now rewrite density_bad_bandwidth.
  - destruct Hv1 as [Hne1 Hw1]. destruct Hv2 as [Hne2 Hw2].
    rewrite !density_value by (assumption || lra). cbn [py_bind].
    rewrite cost_matrix_value by assumption. cbn [py_bind].
    rewrite !uniform_like_weights. reflexivity.
Qed.

End Distance.

(** *** Plans *)

Lemma map_nth_seq_id {A} (d : A) (l : list A) :
  map (fun j => nth j l d) (seq 0 (length l)) = l.
Proof.
  induction l as [|x l IH]; [reflexivity|].
  cbn [length seq map nth]. f_equal.
  rewrite <- seq_shift, map_map. exact IH.
Qed.

Lemma sum_map_mult_l (c : R) (l : list R) :
  sum (map (fun y => c * y) l) = c * sum l.
Proof.
  induction l as [|x l IH]; [cbn; ring|].
  cbn [map]. rewrite !sum_cons, IH. ring.
Qed.

Lemma cost_of_shape (a1x a1y a2x a2y : R) (P1 P2 : list (list R)) :
  length (cost_of a1x a1y a2x a2y P1 P2) = length P1 /\
  Forall (fun row => length row = length P2) (cost_of a1x a1y a2x a2y P1 P2).
Proof.
  unfold cost_of. split; [apply length_map|].
  apply Forall_forall. intros row Hrow. apply in_map_iff in Hrow as [p [<- _]].
  apply length_map.
Qed.

Lemma cost_of_nonneg (a1x a1y a2x a2y : R) (P1 P2 : list (list R)) :
  Forall nonneg (cost_of a1x a1y a2x a2y P1 P2).
Proof.
  unfold cost_of. apply Forall_forall. intros row Hrow.
  apply in_map_iff in Hrow as [p [<- _]].
  apply Forall_forall. intros c Hc. apply in_map_iff in Hc as [q [<- _]].
  apply periodic_cost_least.
Qed.

Lemma sum_product_nonneg (T C : list (list R)) :
  Forall nonneg T -> Forall nonneg C -> 0 <= sum_product T C.
Proof.
  intros HT HC. unfold sum_product. apply sum_nonneg.
  apply Forall_forall. intros s Hs. apply in_map_iff in Hs as [[t c] [<- Htc]].
  cbn [fst snd]. apply sum_nonneg.
  apply Forall_forall. intros z Hz. apply in_map_iff in Hz as [[x y] [<- Hxy]].
  cbn [fst snd].
  assert (Ht := in_combine_l _ _ _ _ Htc). assert (Hc := in_combine_r _ _ _ _ Htc).
  rewrite Forall_forall in HT, HC. specialize (HT t Ht). specialize (HC c Hc).
  unfold nonneg in HT, HC. rewrite Forall_forall in HT, HC.
  apply Rmult_le_pos; [apply HT|apply HC];
    [exact (in_combine_l _ _ _ _ Hxy)|exact (in_combine_r _ _ _ _ Hxy)].
Qed.

(** The product plan is a transport plan for probability vectors. *)
Lemma product_plan (a b : list R) :
  distribution a -> distribution b ->
  is_plan a b (map (fun x => map (fun y => x * y) b) a).
Proof.
  intros [Ha Hsa] [Hb Hsb]. unfold is_plan.
  split; [apply length_map|]. split; [|split; [|split]].
  - apply Forall_forall. intros row Hrow. apply in_map_iff in Hrow as [x [<- _]].
    apply length_map.
  - apply Forall_forall. intros row Hrow. apply in_map_iff in Hrow as [x [<- Hx]].
    apply Forall_forall. intros z Hz. apply in_map_iff in Hz as [y [<- Hy]].
    unfold nonneg in Ha, Hb. rewrite Forall_forall in Ha, Hb.
    apply Rmult_le_pos; auto.
  - unfold row_sums. rewrite map_map.
    erewrite map_ext; [apply map_id|].
    intros x. cbn beta. rewrite sum_map_mult_l, Hsb. ring.
  - unfold col_sums, column.
    rewrite <- (map_nth_seq_id 0 b) at 2.
    apply map_ext_in. intros j Hj. apply in_seq in Hj.
    rewrite map_map.
    erewrite map_ext.
    2:{ intros x. rewrite (nth_indep _ 0 (x * 0)) by (rewrite length_map; lia).
        rewrite (map_nth (fun y => x * y) b 0 j). reflexivity. }
    rewrite sum_map_mult_r, Hsa. ring.
Qed.

Lemma pot_product_feasible : @emd_feasible pot_product.
Proof.
  intros a b C Ha Hb _ _. eexists. split; [reflexivity|].
  now apply product_plan.
Qed.

Lemma default_bandwidth_pos (a1x a1y : R) (P1 : list (list R)) :
  a1x <> 0 \/ a1y <> 0 -> P1 <> [] ->
  0 < effective_bandwidth a1x a1y P1 None.
Proof.
  intros Ha Hne. unfold effective_bandwidth, norm.
  apply Rdiv_lt_0_compat.
  - apply sqrt_lt_R0. cbn. destruct Ha; nra.
  - apply sqrt_lt_R0. pose proof (INR_length_pos P1 Hne). lra.
Qed.

(** C6.  On valid finite 2-D inputs with a positive bandwidth, and a solver
    that returns a transport plan for probability vectors, the call succeeds
    and each returned plan is entrywise non-negative with the source
    distribution as row sums and the target distribution as column sums: the
    normalized KDE densities for the weighted plan, the uniform [1/N] vectors
    for the uniform plan. *)
Theorem transport_plans_marginals :
  forall (pot : POT),
    emd_feasible ->
    forall (a1x a1y a2x a2y : R) (P1 P2 : list (list R)) (bandwidth : option R),
      valid_points P1 -> valid_points P2 ->
      let h := effective_bandwidth a1x a1y P1 bandwidth in
      0 < h ->
      exists distance T distance_uniform Tu,
        calculate_distance (metric_of a1x a1y a2x a2y) (finite P1) (finite P2) bandwidth
          = Ok (distance, T, distance_uniform, Tu) /\
        is_plan (normalized (kde_density h P1)) (normalized (kde_density h P2)) T /\
        is_plan (repeat (1 / INR (length P1)) (length P1))
                (repeat (1 / INR (length P2)) (length P2)) Tu /\
        distribution (normalized (kde_density h P1)) /\
        distribution (normalized (kde_density h P2)).
Proof.
  intros pot Hemd a1x a1y a2x a2y P1 P2 bandwidth Hv1 Hv2 h Hh.
  rewrite (calculate_distance_value a1x a1y a2x a2y P1 P2 bandwidth Hv1 Hv2).
  fold h. destruct (Rle_dec h 0) as [Hle|_]; [lra|].
  destruct (cost_of_shape a1x a1y a2x a2y P1 P2) as [Hrows Hcols].
  destruct Hv1 as [Hne1 _]. destruct Hv2 as [Hne2 _].
  destruct (Hemd (weights h P1) (weights h P2) (cost_of a1x a1y a2x a2y P1 P2))
    as [T [HT Hplan]]; try (now apply weights_distribution);
    try (now rewrite length_weights).
  destruct (Hemd (uniform_weights P1) (uniform_weights P2)
                 (cost_of a1x a1y a2x a2y P1 P2))
    as [Tu [HTu Hplanu]]; try (now apply uniform_distribution);
    try (now rewrite length_uniform_weights).
  rewrite HT, HTu. cbn [py_bind].
  do 4 eexists. split; [reflexivity|].
  split; [exact Hplan|]. split; [exact Hplanu|].
  split; now apply weights_distribution.
Qed.

Lemma transport_plans_marginals_witness :
  exists distance T distance_uniform Tu,
    @calculate_distance pot_product (metric_of 1 0 0 1)
       (finite [[0; 0]; [1; 1]]) (finite [[0; 1]]) None
      = Ok (distance, T, distance_uniform, Tu) /\
    is_plan (repeat (1 / INR 2) 2) (repeat (1 / INR 1) 1) Tu.
Proof.
  destruct (transport_plans_marginals pot_product pot_product_feasible
              1 0 0 1 [[0; 0]; [1; 1]] [[0; 1]] None)
    as [d [T [du [Tu [Hcall [_ [Hu _]]]]]]].
  - split; [discriminate|]. intros p [<-|[<-|[]]]; reflexivity.
  - split; [discriminate|]. intros p [<-|[]]; reflexivity.
  - apply default_bandwidth_pos; [left; lra|discriminate].
  - exists d, T, du, Tu. split; [exact Hcall|exact Hu].
Defined.

(** C10.  On valid finite 2-D inputs on which the call succeeds, with a
    solver that returns a transport plan for probability vectors: every cost
    entry is a Euclidean norm and so not negative, every entry of the two
    plans is not negative, each distance is the sum of the entrywise products
    of its plan with the cost matrix, and both distances are not negative. *)
Theorem distances_nonnegative :
  forall (pot : POT),
    emd_feasible ->
    forall (a1x a1y a2x a2y : R) (P1 P2 : list (list R)) (bandwidth : option R)
           (distance distance_uniform : R) (T Tu : list (list R)),
      valid_points P1 -> valid_points P2 ->
      calculate_distance (metric_of a1x a1y a2x a2y) (finite P1) (finite P2) bandwidth
        = Ok (distance, T, distance_uniform, Tu) ->
      let C := cost_of a1x a1y a2x a2y P1 P2 in
      _calculate_cost_matrix (metric_of a1x a1y a2x a2y) (finite P1) (finite P2) = Ok C /\
      Forall nonneg C /\ Forall nonneg T /\ Forall nonneg Tu /\
      distance = sum_product T C /\ distance_uniform = sum_product Tu C /\
      0 <= distance /\ 0 <= distance_uniform.
Proof.
  intros pot Hemd a1x a1y a2x a2y P1 P2 bandwidth d du T Tu Hv1 Hv2 Hcall C.
  rewrite (calculate_distance_value a1x a1y a2x a2y P1 P2 bandwidth Hv1 Hv2) in Hcall.
  fold C in Hcall.
  destruct (Rle_dec _ 0) as [Hle|_]; [discriminate|].
  destruct (cost_of_shape a1x a1y a2x a2y P1 P2) as [Hrows Hcols].
  assert (HC := cost_of_nonneg a1x a1y a2x a2y P1 P2). fold C in HC, Hrows, Hcols.
  destruct Hv1 as [Hne1 Hw1]. destruct Hv2 as [Hne2 Hw2].
  set (h := effective_bandwidth a1x a1y P1 bandwidth) in *.
  destruct (Hemd (weights h P1) (weights h P2) C)
    as [T0 [HT [_ [_ [HTpos _]]]]]; try (now apply weights_distribution);
    try (now rewrite length_weights).
  destruct (Hemd (uniform_weights P1) (uniform_weights P2) C)
    as [Tu0 [HTu [_ [_ [HTupos _]]]]]; try (now apply uniform_distribution);
    try (now rewrite length_uniform_weights).
  rewrite HT, HTu in Hcall. cbn [py_bind] in Hcall.
  inversion Hcall; subst.
  split; [now apply cost_matrix_value|].
  repeat split; auto; now apply sum_product_nonneg.
Qed.

(** The call with the product plan in place of the solver. *)
Lemma calculate_distance_product (a1x a1y a2x a2y : R) (P1 P2 : list (list R))
      (bandwidth : option R) :
  valid_points P1 -> valid_points P2 ->
  let h := effective_bandwidth a1x a1y P1 bandwidth in
  let C := cost_of a1x a1y a2x a2y P1 P2 in
  let T := map (fun x => map (fun y => x * y) (weights h P2)) (weights h P1) in
  let Tu := map (fun x => map (fun y => x * y) (uniform_weights P2)) (uniform_weights P1) in
  0 < h ->
  @calculate_distance pot_product (metric_of a1x a1y a2x a2y) (finite P1) (finite P2)
                      bandwidth
  = Ok (sum_product T C, T, sum_product Tu C, Tu).
Proof.
  intros Hv1 Hv2 h C T Tu Hh.
  rewrite (calculate_distance_value a1x a1y a2x a2y P1 P2 bandwidth Hv1 Hv2).
  fold h. destruct (Rle_dec h 0); [lra|reflexivity].
Qed.

Lemma distances_nonnegative_witness :
  exists distance T distance_uniform Tu,
    @calculate_distance pot_product (metric_of 1 0 0 1)
       (finite [[0; 0]; [1; 1]]) (finite [[0; 1]]) None
      = Ok (distance, T, distance_uniform, Tu) /\
    0 <= distance /\ 0 <= distance_uniform.
Proof.
  assert (Hv1 : valid_points [[0; 0]; [1; 1]])
    by (split; [discriminate|]; intros p [<-|[<-|[]]]; reflexivity).
  assert (Hv2 : valid_points [[0; 1]])
    by (split; [discriminate|]; intros p [<-|[]]; reflexivity).
  assert (Hh : 0 < effective_bandwidth 1 0 [[0; 0]; [1; 1]] None)
    by (apply default_bandwidth_pos; [left; lra|discriminate]).
  pose proof (calculate_distance_product 1 0 0 1 _ _ None Hv1 Hv2 Hh) as Hcall.
  cbv zeta in Hcall.
  do 4 eexists. split; [exact Hcall|].
  destruct (distances_nonnegative pot_product pot_product_feasible
              1 0 0 1 _ _ None _ _ _ _ Hv1 Hv2 Hcall)
    as [_ [_ [_ [_ [_ [_ Hpos]]]]]].
  exact Hpos.
Defined.

(** *** Identical point sets *)

Lemma sum_zero (l : list R) : (forall x, In x l -> x = 0) -> sum l = 0.
Proof.
  induction l as [|x l IH]; intros Hz; [reflexivity|].
  rewrite sum_cons, (Hz x), IH by (simpl; auto || (intros; apply Hz; simpl; auto)). ring.
Qed.




Lemma combine_map_seq {A B} (f : nat -> A) (l : list B) (d : B) :
  combine (map f (seq 0 (length l))) l = map (fun i => (f i, nth i l d)) (seq 0 (length l)).
Proof.
  rewrite <- (map_nth_seq_id d l) at 2.
  apply combine_map_same.
Qed.






(** *** Problems with a single source or a single target *)

Lemma plan_one_source (a b : list R) (T : list (list R)) :
  is_plan a b T -> length a = 1%nat -> T = [b].
Proof.
  intros [Hlen [Hrows [_ [_ Hcs]]]] Ha. rewrite Ha in Hlen.
  destruct T as [|row [|? ?]]; try discriminate. f_equal.
  inversion Hrows as [|? ? Hrow _]; subst.
  transitivity (map (fun j => nth j row 0) (seq 0 (length row)));
    [symmetry; apply map_nth_seq_id|].
  etransitivity; [|exact Hcs].
  unfold col_sums, column. rewrite Hrow.
  apply map_ext. intros j. cbn. ring.
Qed.

Lemma plan_one_target (a b : list R) (T : list (list R)) :
  is_plan a b T -> length b = 1%nat -> T = map (fun x => [x]) a.
Proof.
  intros [_ [Hrows [_ [Hrs _]]]] Hb. rewrite Hb in Hrows. subst a.
  unfold row_sums. rewrite map_map.
  induction T as [|row T IH]; [reflexivity|].
  inversion Hrows as [|? ? Hrow Hrest]; subst.
  cbn [map]. rewrite <- IH by assumption. f_equal.
  destruct row as [|t [|? ?]]; try discriminate. cbn. f_equal. ring.
Qed.

Lemma forced_plan_optimal (a b : list R) (C T : list (list R)) :
  is_plan a b T -> length a = 1%nat \/ length b = 1%nat ->
  is_optimal_plan a b C T.
Proof.
  intros Hplan Hone. split; [exact Hplan|].
  intros T' Hplan'.
  assert (T' = T); [|subst; lra].
  destruct Hone as [Ha|Hb].
  - now rewrite (plan_one_source a b T Hplan Ha), (plan_one_source a b T' Hplan' Ha).
  - now rewrite (plan_one_target a b T Hplan Hb), (plan_one_target a b T' Hplan' Hb).
Qed.



(** *** Swapping the two point sets *)

Lemma norm_opp_2d (x y : R) : norm [- x; - y] = norm [x; y].
Proof. unfold norm. cbn. f_equal. ring. Qed.

Lemma image_distance_swap (a1x a1y a2x a2y : R) (p q : list R) (i j : Z) :
  image_distance a1x a1y a2x a2y q p (- i, - j)%Z =
  image_distance a1x a1y a2x a2y p q (i, j).
Proof.
  unfold image_distance, image_vector. cbn [fst snd].
  rewrite <- norm_opp_2d. rewrite !opp_IZR. f_equal. f_equal; [|f_equal]; ring.
Qed.

Lemma periodic_cost_le_swap (a1x a1y a2x a2y : R) (p q : list R) :
  periodic_cost a1x a1y a2x a2y q p <= periodic_cost a1x a1y a2x a2y p q.
Proof.
  destruct (periodic_cost_least a1x a1y a2x a2y p q) as [_ [[i [j [Hi [Hj ->]]]] _]].
  destruct (periodic_cost_least a1x a1y a2x a2y q p) as [Hlow _].
  rewrite <- image_distance_swap. apply Hlow; lia.
Qed.

Lemma periodic_cost_sym (a1x a1y a2x a2y : R) (p q : list R) :
  periodic_cost a1x a1y a2x a2y q p = periodic_cost a1x a1y a2x a2y p q.
Proof. apply Rle_antisym; apply periodic_cost_le_swap. Qed.

Lemma nth_nil_0 (j : nat) : nth j (@nil R) 0 = 0.
Proof. now destruct j. Qed.

Lemma nth_column (T : list (list R)) (i j : nat) :
  nth i (column j T) 0 = nth j (nth i T []) 0.
Proof.
  unfold column. rewrite <- (nth_nil_0 j) at 1.
  apply (map_nth (fun row => nth j row 0) T [] i).
Qed.

Lemma nth_transpose (m : nat) (T : list (list R)) (i j : nat) :
  (j < m)%nat ->
  nth i (nth j (transpose m T) []) 0 = nth j (nth i T []) 0.
Proof.
  intros Hj. unfold transpose.
  rewrite (nth_indep _ [] ((fun j' => column j' T) 0%nat))
    by (rewrite length_map, length_seq; exact Hj).
  rewrite (map_nth (fun j' => column j' T)), seq_nth by exact Hj.
  apply nth_column.
Qed.

Lemma transpose_shape (m : nat) (T : list (list R)) :
  length (transpose m T) = m /\
  Forall (fun row => length row = length T) (transpose m T).
Proof.
  unfold transpose. split; [now rewrite length_map, length_seq|].
  apply Forall_forall. intros row Hrow. apply in_map_iff in Hrow as [j [<- _]].
  unfold column. apply length_map.
Qed.

Lemma cost_of_transpose (a1x a1y a2x a2y : R) (P1 P2 : list (list R)) :
  cost_of a1x a1y a2x a2y P2 P1 =
  transpose (length P2) (cost_of a1x a1y a2x a2y P1 P2).
Proof.
  unfold cost_of, transpose.
  rewrite <- (map_nth_seq_id [] P2) at 1. rewrite map_map.
  apply map_ext_in. intros j Hj. apply in_seq in Hj.
  unfold column. rewrite map_map.
  apply map_ext. intros p1.
  rewrite (nth_indep _ 0 (periodic_cost a1x a1y a2x a2y p1 []))
    by (rewrite length_map; lia).
  rewrite (map_nth (periodic_cost a1x a1y a2x a2y p1)).
  apply periodic_cost_sym.
Qed.

Lemma sum_map_plus (f g : nat -> R) (l : list nat) :
  sum (map (fun i => f i + g i) l) = sum (map f l) + sum (map g l).
Proof.
  induction l as [|x l IH]; [cbn; ring|].
  cbn [map]. rewrite !sum_cons, IH. ring.
Qed.

Lemma sum_swap (f : nat -> nat -> R) (l1 l2 : list nat) :
  sum (map (fun i => sum (map (fun j => f i j) l2)) l1) =
  sum (map (fun j => sum (map (fun i => f i j) l1)) l2).
Proof.
  induction l1 as [|x l1 IH].
  - cbn [map]. symmetry. apply sum_zero. intros z Hz.
    apply in_map_iff in Hz as [j [<- _]]. reflexivity.
  - cbn [map]. rewrite sum_cons, IH.
    rewrite <- sum_map_plus. f_equal.
Qed.

(** [np.sum(T * C)] by indices, for two arrays of shape [n x m]. *)
Lemma sum_product_index (n m : nat) (T C : list (list R)) :
  length T = n -> length C = n ->
  Forall (fun row => length row = m) T ->
  Forall (fun row => length row = m) C ->
  sum_product T C =
  sum (map (fun i => sum (map (fun j => nth j (nth i T []) 0 * nth j (nth i C []) 0)
                              (seq 0 m)))
           (seq 0 n)).
Proof.
  intros HT HC HTm HCm. unfold sum_product.
  rewrite <- (map_nth_seq_id [] T) at 1. rewrite HT, <- HC.
  rewrite (combine_map_seq _ C []), map_map, HC.
  f_equal. apply map_ext_in. intros i Hi. apply in_seq in Hi. cbn [fst snd].
  assert (HTi : length (nth i T []) = m).
  { rewrite Forall_forall in HTm. apply HTm, nth_In. lia. }
  assert (HCi : length (nth i C []) = m).
  { rewrite Forall_forall in HCm. apply HCm, nth_In. lia. }
  rewrite <- (map_nth_seq_id 0 (nth i T [])) at 1. rewrite HTi, <- HCi.
  rewrite (combine_map_seq _ (nth i C []) 0), map_map, HCi.
  reflexivity.
Qed.

(** Transposing one factor or the other gives the same total. *)
Lemma sum_product_transpose (n m : nat) (T C : list (list R)) :
  length T = m -> Forall (fun row => length row = n) T ->
  length C = n -> Forall (fun row => length row = m) C ->
  sum_product (transpose n T) C = sum_product T (transpose m C).
Proof.
  intros HT HTn HC HCm.
  destruct (transpose_shape n T) as [HtT HtTm]. rewrite HT in HtTm.
  destruct (transpose_shape m C) as [HtC HtCn]. rewrite HC in HtCn.
  rewrite (sum_product_index n m (transpose n T) C) by assumption.
  rewrite (sum_product_index m n T (transpose m C)) by assumption.
  rewrite sum_swap.
  apply f_equal, map_ext_in. intros j Hj. apply in_seq in Hj.
  apply f_equal, map_ext_in. intros i Hi. apply in_seq in Hi.
  rewrite !nth_transpose by lia. reflexivity.
Qed.

Lemma transpose_is_plan (a b : list R) (T : list (list R)) :
  is_plan a b T -> is_plan b a (transpose (length b) T).
Proof.
  intros [Hlen [Hrows [Hpos [Hrs Hcs]]]].
  destruct (transpose_shape (length b) T) as [Ht Htm]. rewrite Hlen in Htm.
  unfold is_plan. split; [exact Ht|]. split; [exact Htm|]. split; [|split].
  - apply Forall_forall. intros col Hcol. unfold transpose in Hcol.
    apply in_map_iff in Hcol as [j [<- _]].
    apply Forall_forall. intros z Hz. unfold column in Hz.
    apply in_map_iff in Hz as [row [<- Hrow]].
    rewrite Forall_forall in Hpos. specialize (Hpos row Hrow).
    unfold nonneg in Hpos. rewrite Forall_forall in Hpos.
    destruct (nth_in_or_default j row 0) as [Hin| ->]; [now apply Hpos|lra].
  - unfold row_sums, transpose. rewrite map_map. exact Hcs.
  - etransitivity; [|exact Hrs]. unfold col_sums, row_sums.
    transitivity (map sum (map (fun i => nth i T []) (seq 0 (length T))));
      [|now rewrite map_nth_seq_id].
    rewrite map_map, Hlen.
    apply map_ext_in. intros i Hi. apply in_seq in Hi. f_equal.
    assert (Hrow : length (nth i T []) = length b).
    { rewrite Forall_forall in Hrows. apply Hrows, nth_In. lia. }
    unfold column, transpose. rewrite map_map.
    transitivity (map (fun j => nth j (nth i T []) 0) (seq 0 (length (nth i T []))));
      [|apply map_nth_seq_id].
    rewrite Hrow. apply map_ext. intros j. apply nth_column.
Qed.


(** What a successful call returns, on finite 2-D point sets. *)
Lemma calculate_distance_inv {pot : POT} (a1x a1y a2x a2y : R) (P1 P2 : list (list R))
      (bandwidth : option R) (d du : R) (T Tu : list (list R)) :
  valid_points P1 -> valid_points P2 ->
  calculate_distance (metric_of a1x a1y a2x a2y) (finite P1) (finite P2) bandwidth
    = Ok (d, T, du, Tu) ->
  let h := effective_bandwidth a1x a1y P1 bandwidth in
  let C := cost_of a1x a1y a2x a2y P1 P2 in
  0 < h /\
  emd (weights h P1) (weights h P2) C = Ok T /\
  emd (uniform_weights P1) (uniform_weights P2) C = Ok Tu /\
  d = sum_product T C /\ du = sum_product Tu C.
Proof.
  intros Hv1 Hv2 Hcall h C.
  rewrite (calculate_distance_value a1x a1y a2x a2y P1 P2 bandwidth Hv1 Hv2) in Hcall.
  fold h C in Hcall.
  destruct (Rle_dec h 0) as [Hle|Hgt]; [discriminate|].
  destruct (emd (weights h P1) (weights h P2) C) as [T0|e]; [|discriminate].
  cbn [py_bind] in Hcall.
  destruct (emd (uniform_weights P1) (uniform_weights P2) C) as [Tu0|e]; [|discriminate].
  cbn [py_bind] in Hcall. inversion Hcall; subst.
  repeat split; auto. lra.
Qed.



(** *** The weighted marginals in closed form *)

Lemma kernel_sum_pos (h : R) (P : list (list R)) (y : list R) :
  P <> [] -> 0 < kernel_sum h P y.
Proof.
  intros Hne. unfold kernel_sum. apply sum_pos.
  - destruct P; [congruence|discriminate].
  - intros z Hz. apply in_map_iff in Hz as [x [<- _]]. apply exp_pos.
Qed.

(** The normalisations cancel: a weight is the kernel sum of its point over
    the total of the kernel sums. *)
Lemma weights_value (h : R) (P : list (list R)) :
  0 < h -> P <> [] ->
  weights h P =
  map (fun y => kernel_sum h P y / sum (map (kernel_sum h P) P)) P.
Proof.
  intros Hh Hne. unfold weights, normalized, kde_density.
  set (Z := INR (length P) * (sqrt (2 * PI) * h) ^ ncols P).
  assert (HZ : 0 < Z).
  { unfold Z. apply Rmult_lt_0_compat; [now apply INR_length_pos|].
    apply pow_lt. apply Rmult_lt_0_compat; [|exact Hh].
    apply sqrt_lt_R0. pose proof PI_RGT_0. lra. }
  assert (Hn := INR_length_pos P Hne).
  assert (Hdens : map exp (map (gaussian_log_density h P) P) =
                  map (fun k => k / Z) (map (kernel_sum h P) P)).
  { rewrite !map_map. apply map_ext. intros y.
    unfold gaussian_log_density. fold (kernel_sum h P y). fold Z.
    apply exp_ln. apply Rdiv_lt_0_compat; [now apply kernel_sum_pos|exact HZ]. }
  rewrite Hdens. clear Hdens.
  set (S := sum (map (kernel_sum h P) P)).
  assert (HS : 0 < S).
  { unfold S. apply sum_pos.
    - destruct P; [congruence|discriminate].
    - intros z Hz. apply in_map_iff in Hz as [y [<- _]]. now apply kernel_sum_pos. }
  rewrite sum_map_mult_r, sum_map_div. fold S.
  rewrite !map_map. apply map_ext. intros y.
  field. repeat split; lra.
Qed.

(** *** One point against three: the two orders differ *)









End WassersteinFacts.

(** ** The layout of the padded array *)

Module PaddingFacts.
Import Numpy Periodic PeriodicFacts.

Lemma nth_flat_map_block {A B} (f : A -> list B) (l : list A) (n : nat)
      (d : B) (da : A) (k m : nat) :
  (forall a, length (f a) = n) ->
  (k < length l)%nat -> (m < n)%nat ->
  nth (k * n + m) (flat_map f l) d = nth m (f (nth k l da)) d.
Proof.
  intros Hlen. revert k. induction l as [|a l IH]; intros k Hk Hm; [simpl in Hk; lia|].
  cbn [flat_map]. destruct k as [|k].
  - cbn [Nat.mul Nat.add nth]. apply app_nth1. now rewrite Hlen.
  - rewrite app_nth2 by (rewrite Hlen; simpl; lia).
    rewrite Hlen. replace (S k * n + m - n)%nat with (k * n + m)%nat by (simpl; lia).
    cbn [nth]. apply IH; [simpl in Hk; lia|exact Hm].
Qed.

Lemma nth_meshgrid_flat (li lj : list Z) (ki kj : nat) :
  (ki < length li)%nat -> (kj < length lj)%nat ->
  nth (kj * length li + ki) (meshgrid_flat li lj) (0, 0)%Z =
  (nth ki li 0%Z, nth kj lj 0%Z).
Proof.
  intros Hi Hj. unfold meshgrid_flat.
  rewrite (nth_flat_map_block _ lj (length li) _ 0%Z)
    by (try (intros; apply length_map); assumption).
  rewrite (nth_indep _ (0, 0)%Z (0%Z, nth kj lj 0%Z)) by (rewrite length_map; exact Hi).
  apply (map_nth (fun i => (i, nth kj lj 0%Z)) li 0%Z ki).
Qed.

Lemma repeat_range_head (n : Z) :
  (1 <= n)%Z -> exists rest, repeat_range n = 0%Z :: rest.
Proof.
  intros Hn. unfold repeat_range, arange.
  replace (Z.to_nat (n + 1 - 0)) with (S (Z.to_nat n)) by lia.
  cbn [seq map app]. eexists. reflexivity.
Qed.

(** X1.  The order of the rows of [pad_periodic_image].  With
    [i_range = 0, ..., n1, -n1, ..., -1] and [j_range] alike, the images come
    block after block, the index of [i_range] running fastest: row
    [(kj * |i_range| + ki) * |positions| + m] of the result is the point
    number [m] moved by [i_range[ki] a1 + j_range[kj] a2]. *)
Theorem pad_periodic_image_layout :
  forall (F : Type) (SF : Scalar F) (positions : list (list F))
         (a1x a1y a2x a2y : F) (n1 n2 : Z),
    positions <> [] ->
    (forall p, In p positions -> length p = 2%nat) ->
    (1 <= n1)%Z -> (1 <= n2)%Z ->
    let i_range := repeat_range n1 in
    let j_range := repeat_range n2 in
    exists out,
      pad_periodic_image positions [[a1x; a1y]; [a2x; a2y]] n1 n2 = Some out /\
      forall ki kj m,
        (ki < length i_range)%nat -> (kj < length j_range)%nat ->
        (m < length positions)%nat ->
        nth ((kj * length i_range + ki) * length positions + m) out [] =
        translate a1x a1y a2x a2y (nth m positions [])
                  (nth ki i_range 0%Z, nth kj j_range 0%Z).
Proof.
  intros F SF positions a1x a1y a2x a2y n1 n2 Hne Hw Hn1 Hn2 i_range j_range.
  eexists. split; [apply pad_periodic_image_value; assumption|].
  intros ki kj m Hi Hj Hm. fold i_range j_range.
  rewrite (nth_flat_map_block _ _ (length positions) _ (0, 0)%Z).
  - rewrite nth_meshgrid_flat by assumption.
    apply (map_nth (fun p => translate a1x a1y a2x a2y p _) positions [] m).
  - intros ij. apply length_map.
  - rewrite length_meshgrid_flat. nia.
  - exact Hm.
Qed.

Lemma pad_periodic_image_layout_witness :
  exists out,
    pad_periodic_image (F := Z) [[10; 20]; [30; 40]]%Z [[100; 0]; [0; 1000]]%Z 1 1
      = Some out /\
    nth 11 out [] = [-70; 1040]%Z.
Proof.
  destruct (pad_periodic_image_layout Z Scalar_Z
              [[10; 20]; [30; 40]]%Z 100 0 0 1000 1 1)%Z as [out [Hout Hrow]].
  - discriminate.
  - intros p [<-|[<-|[]]]; reflexivity.
  - lia.
  - lia.
  - exists out. split; [exact Hout|].
    apply (Hrow 2%nat 1%nat 1%nat); simpl; lia.
Defined.

(** X2.  The padded array starts with the input itself (the image of the
    offset [0 a1 + 0 a2] comes first), followed by
    [|positions| * ((2 n1 + 1) (2 n2 + 1) - 1)] rows of proper images. *)
Theorem pad_periodic_image_keeps_input :
  forall (positions : list (list R)) (a1x a1y a2x a2y : R) (n1 n2 : Z),
    positions <> [] ->
    (forall p, In p positions -> length p = 2%nat) ->
    (1 <= n1)%Z -> (1 <= n2)%Z ->
    exists images,
      pad_periodic_image positions [[a1x; a1y]; [a2x; a2y]] n1 n2 =
      Some (positions ++ images) /\
      length images =
        (length positions * (Z.to_nat (2 * n1 + 1) * Z.to_nat (2 * n2 + 1) - 1))%nat.
Proof.
  intros positions a1x a1y a2x a2y n1 n2 Hne Hw Hn1 Hn2.
  rewrite pad_periodic_image_value by assumption.
  destruct (repeat_range_head n1 Hn1) as [ri Hri].
  destruct (repeat_range_head n2 Hn2) as [rj Hrj].
  assert (Hgrid : exists rest,
             meshgrid_flat (repeat_range n1) (repeat_range n2) = (0, 0)%Z :: rest /\
             S (length rest) = (Z.to_nat (2 * n1 + 1) * Z.to_nat (2 * n2 + 1))%nat).
  { eexists. split.
    - rewrite Hri, Hrj. unfold meshgrid_flat. cbn [flat_map map app]. reflexivity.
    - pose proof (length_meshgrid_flat (repeat_range n1) (repeat_range n2)) as Hl.
      rewrite !length_repeat_range in Hl by lia.
      rewrite Hri, Hrj in Hl. unfold meshgrid_flat in Hl.
      cbn [flat_map map app length] in Hl. exact Hl. }
  destruct Hgrid as [rest [-> Hlen]].
  cbn [flat_map].
  exists (flat_map (fun ij => map (fun p => translate a1x a1y a2x a2y p ij) positions) rest).
  split.
  - do 2 f_equal. rewrite <- (map_id positions) at 2.
    apply map_ext_in. intros p Hp. specialize (Hw p Hp).
    destruct p as [|px [|py [|? ?]]]; try discriminate.
    unfold translate. cbn [fst snd s_add s_mul s_of_int Scalar_R].
    f_equal; [|f_equal]; ring.
  - rewrite flat_map_concat_map, (length_concat_const (length positions)).
    + rewrite length_map. nia.
    + intros r Hr. apply in_map_iff in Hr as [ij [<- _]]. apply length_map.
Qed.

Lemma pad_periodic_image_keeps_input_witness :
  exists images,
    pad_periodic_image [[1; 2]; [3; 4]] [[10; 0]; [0; 10]] 2 2 =
    Some ([[1; 2]; [3; 4]] ++ images) /\
    length images = 48%nat.
Proof.
  destruct (pad_periodic_image_keeps_input [[1; 2]; [3; 4]] 10 0 0 10 2 2)
    as [images [Hout Hlen]].
  - discriminate.
  - intros p [<-|[<-|[]]]; reflexivity.
  - lia.
  - lia.
  - exists images. split; [exact Hout|exact Hlen].
Defined.

End PaddingFacts.

(** ** Symmetries of the circumcenter *)

Module CircumcenterFacts.
Import Numpy RealArrays VoronoiAnalyzer VoronoiFacts.

(** The circumcenter of three 2-D vertices in closed form, in both cases. *)
Lemma circumcenter_cases (x0 y0 x1 y1 x2 y2 : R) :
  let d := determinant x0 y0 x1 y1 x2 y2 in
  _calculate_circumcenter [[x0; y0]; [x1; y1]; [x2; y2]] =
  if Rlt_dec (Rabs d) epsilon
  then Ok [(x0 + x1 + x2) / 3; (y0 + y1 + y2) / 3]
  else Ok [ ((x0 ^ 2 + y0 ^ 2) * (y1 - y2) + (x1 ^ 2 + y1 ^ 2) * (y2 - y0) +
             (x2 ^ 2 + y2 ^ 2) * (y0 - y1)) / d;
            ((x0 ^ 2 + y0 ^ 2) * (x2 - x1) + (x1 ^ 2 + y1 ^ 2) * (x0 - x2) +
             (x2 ^ 2 + y2 ^ 2) * (x1 - x0)) / d ].
Proof.
  intros d. destruct (Rlt_dec (Rabs d) epsilon) as [Hlt|Hge].
  - now apply circumcenter_degenerate.
  - apply circumcenter_regular. fold d. lra.
Qed.









End CircumcenterFacts.

(** ** The search for the Voronoi cell of a query point *)

Module CellFacts.
Import Numpy RealArrays VoronoiAnalyzer VoronoiFacts WassersteinFacts.

Lemma py_all_map_inv {A B} (f : A -> py B) (g : A -> B) (l : list A) (bs : list B) :
  (forall x b, In x l -> f x = Ok b -> b = g x) ->
  py_all (map f l) = Ok bs -> bs = map g l.
Proof.
  revert bs. induction l as [|x l IH]; intros bs Hf Hall; cbn [map py_all] in *.
  - now inversion Hall.
  - destruct (f x) as [y|err] eqn:Ex; [|discriminate].
    destruct (py_all (map f l)) as [ys|err] eqn:El; [|discriminate].
    inversion Hall; subst. cbn [map]. f_equal.
    + apply Hf; [now left|exact Ex].
    + apply IH; [|reflexivity]. intros z c Hz. apply Hf. now right.
Qed.

Lemma take_ok {A} (d : A) (l : list A) (indices : list nat) :
  (forall i, In i indices -> (i < length l)%nat) ->
  take l indices = Ok (map (fun i => nth i l d) indices).
Proof.
  intros Hlt. unfold take. apply py_all_map_Ok. intros i Hi.
  unfold index. specialize (Hlt i Hi).
  destruct (nth_error l i) as [x|] eqn:E.
  - cbn [of_option]. f_equal. symmetry. now apply nth_error_nth.
  - apply nth_error_None in E. lia.
Qed.

Lemma take_inv {A} (d : A) (l : list A) (indices : list nat) (out : list A) :
  take l indices = Ok out ->
  out = map (fun i => nth i l d) indices /\
  forall i, In i indices -> (i < length l)%nat.
Proof.
  unfold take. revert out. induction indices as [|i indices IH]; intros out Hall;
    cbn [map py_all] in Hall.
  - inversion Hall. split; [reflexivity|intros i []].
  - unfold index at 1 in Hall.
    destruct (nth_error l i) as [x|] eqn:E; cbn [of_option] in Hall; [|discriminate].
    destruct (py_all (map (index l) indices)) as [out'|e]; [|discriminate].
    inversion Hall; subst. destruct (IH out' eq_refl) as [-> Hlt]. split.
    + cbn [map]. f_equal. symmetry. now apply nth_error_nth.
    + intros j [<-|Hj]; [|now apply Hlt].
      apply nth_error_Some. congruence.
Qed.

(** *** argmin *)

Lemma argmin_from_spec (g : nat -> R) (n : nat) :
  forall i best_i,
    (best_i < i)%nat ->
    (forall j, (j < i)%nat -> g best_i <= g j) ->
    (forall j, (j < best_i)%nat -> g best_i < g j) ->
    let r := argmin_from best_i (g best_i) i (map g (seq i n)) in
    (r < i + n)%nat /\
    (forall j, (j < i + n)%nat -> g r <= g j) /\
    (forall j, (j < r)%nat -> g r < g j).
Proof.
  induction n as [|n IH]; intros i best_i Hlt Hmin Hfirst; cbn [seq map argmin_from].
  - rewrite Nat.add_0_r. repeat split; auto; lia.
  - destruct (Rlt_dec (g i) (g best_i)) as [Hless|Hge].
    + destruct (IH (S i) i) as [H1 [H2 H3]].
      * lia.
      * intros j Hj. destruct (Nat.eq_dec j i) as [->|Hne]; [lra|].
        specialize (Hmin j ltac:(lia)). lra.
      * intros j Hj. specialize (Hmin j Hj). lra.
      * replace (i + S n)%nat with (S i + n)%nat by lia. auto.
    + destruct (IH (S i) best_i) as [H1 [H2 H3]].
      * lia.
      * intros j Hj. destruct (Nat.eq_dec j i) as [->|Hne]; [lra|].
        apply Hmin. lia.
      * exact Hfirst.
      * replace (i + S n)%nat with (S i + n)%nat by lia. auto.
Qed.

Lemma nearest_site_spec (q : list R) (points : list (list R)) :
  points <> [] ->
  let k := nearest_site q points in
  (k < length points)%nat /\
  (forall j, (j < length points)%nat ->
     site_distance2 q (nth k points []) <= site_distance2 q (nth j points [])) /\
  (forall j, (j < k)%nat ->
     site_distance2 q (nth k points []) < site_distance2 q (nth j points [])).
Proof.
  intros Hne. unfold nearest_site.
  set (g := fun j => site_distance2 q (nth j points [])).
  assert (Hmap : map (site_distance2 q) points = map g (seq 0 (length points))).
  { rewrite <- (map_nth_seq_id [] points) at 1. now rewrite map_map. }
  rewrite Hmap. destruct points as [|p ps]; [congruence|].
  cbn [length seq map].
  destruct (argmin_from_spec g (length ps) 1 0) as [H1 [H2 H3]].
  - lia.
  - intros j Hj. replace j with 0%nat by lia. lra.
  - intros j Hj. lia.
  - cbn [Nat.add] in H1, H2. fold (g 0%nat). auto.
Qed.

(** *** argsort *)

Lemma insert_key_perm (k : R) (i : nat) (l : list (R * nat)) :
  Permutation (insert_key k i l) ((k, i) :: l).
Proof.
  induction l as [|[k' i'] l IH]; cbn [insert_key]; [reflexivity|].
  destruct (Rlt_dec k k'); [reflexivity|].
  rewrite IH. apply perm_swap.
Qed.

Lemma insert_key_sorted (k : R) (i : nat) (l : list (R * nat)) :
  StronglySorted (fun a b => fst a <= fst b) l ->
  StronglySorted (fun a b => fst a <= fst b) (insert_key k i l).
Proof.
  induction 1 as [|[k' i'] l Hs IH Hall]; cbn [insert_key].
  - repeat constructor.
  - destruct (Rlt_dec k k') as [Hlt|Hge].
    + constructor; [now constructor|].
      constructor; [cbn; lra|].
      rewrite Forall_forall in *. intros x Hx. specialize (Hall x Hx). cbn in *. lra.
    + constructor; [exact IH|].
      rewrite Forall_forall in *. intros x Hx.
      apply (Permutation_in _ (insert_key_perm k i l)) in Hx.
      destruct Hx as [<-|Hx]; [cbn; lra|now apply Hall].
Qed.

Lemma sort_pairs_spec (l acc : list (R * nat)) :
  StronglySorted (fun a b => fst a <= fst b) acc ->
  let s := fold_left (fun acc ki => insert_key (fst ki) (snd ki) acc) l acc in
  Permutation s (l ++ acc) /\ StronglySorted (fun a b => fst a <= fst b) s.
Proof.
  revert acc. induction l as [|[k i] l IH]; intros acc Hacc; cbn [fold_left app].
  - split; [reflexivity|exact Hacc].
  - destruct (IH (insert_key k i acc)) as [Hp Hs].
    + now apply insert_key_sorted.
    + split; [|exact Hs]. cbn [fst snd] in *. rewrite Hp.
      rewrite insert_key_perm. symmetry. apply Permutation_middle.
Qed.

Lemma combine_seq_nth {A} (d : A) (l : list A) :
  combine l (seq 0 (length l)) = map (fun i => (nth i l d, i)) (seq 0 (length l)).
Proof.
  rewrite <- (map_nth_seq_id d l) at 1.
  rewrite <- (map_id (seq 0 (length l))) at 2.
  rewrite combine_map_same. reflexivity.
Qed.

Lemma argsort_spec (keys : list R) :
  Permutation (argsort keys) (seq 0 (length keys)) /\
  StronglySorted Rle (map (fun i => nth i keys 0) (argsort keys)).
Proof.
  unfold argsort.
  destruct (sort_pairs_spec (combine keys (seq 0 (length keys))) [])
    as [Hp Hs]; [constructor|].
  cbv zeta in Hp, Hs. rewrite app_nil_r in Hp.
  set (s := fold_left _ _ _) in *.
  split.
  - rewrite Hp, (combine_seq_nth 0), map_map. cbn [snd]. now rewrite map_id.
  - assert (Hfst : map (fun i => nth i keys 0) (map snd s) = map fst s).
    { rewrite map_map. apply map_ext_in. intros [k i] Hin.
      apply (Permutation_in _ Hp) in Hin. rewrite (combine_seq_nth 0) in Hin.
      apply in_map_iff in Hin as [j [E _]]. inversion E; subst. reflexivity. }
    rewrite Hfst. clear Hfst Hp.
    induction Hs as [|a l Hs IH Hall]; cbn [map]; constructor; [exact IH|].
    rewrite Forall_forall in *. intros x Hx.
    apply in_map_iff in Hx as [b [<- Hb]]. now apply Hall.
Qed.

(** *** simplices around a site *)

Lemma In_simplices_with (tri : list (list nat)) (k s : nat) :
  In s (simplices_with tri k) <-> (s < length tri)%nat /\ In k (nth s tri []).
Proof.
  unfold simplices_with.
  assert (Hc : combine (seq 0 (length tri)) tri =
               map (fun i => (i, nth i tri [])) (seq 0 (length tri))).
  { rewrite <- (map_id (seq 0 (length tri))) at 1.
    apply (combine_map_seq (fun i => i) tri []). }
  rewrite Hc. rewrite in_map_iff. split.
  - intros [[i t] [E Hin]]. cbn in E. subst i.
    apply filter_In in Hin as [Hin Hex]. apply in_map_iff in Hin as [j [E Hj]].
    inversion E; subst. apply in_seq in Hj. split; [lia|].
    cbn [snd] in Hex. apply existsb_exists in Hex as [x [Hx Ex]].
    apply Nat.eqb_eq in Ex. now subst.
  - intros [Hs Hk]. exists (s, nth s tri []). split; [reflexivity|].
    apply filter_In. split.
    + apply in_map_iff. exists s. split; [reflexivity|]. apply in_seq. lia.
    + cbn [snd]. apply existsb_exists. exists k. split; [exact Hk|apply Nat.eqb_refl].
Qed.

(** *** the search *)

Section VoronoiCell.
Variables (query_point : list R) (points : list (list R)).
Hypothesis points_2d : forall p, In p points -> length p = 2%nat.
Hypothesis query_2d : length query_point = 2%nat.

Lemma site_distances :
  rows_op Rminus points query_point =
  Ok (map (fun p => map (fun pq => fst pq - snd pq) (combine p query_point)) points).
Proof.
  unfold rows_op. apply py_all_map_Ok. intros p Hp.
  unfold broadcast. now rewrite (points_2d p Hp), query_2d.
Qed.

(** The search up to the choice of the site. *)
Lemma find_voronoi_cell_site (tri : list (list nat)) (circumcenters : list (list R))
      (cell : list nat) (k : nat) :
  _find_voronoi_cell query_point points tri circumcenters = Some (cell, k) ->
  points <> [] /\ k = nearest_site query_point points /\
  exists cs angles,
    take circumcenters (simplices_with tri k) = Ok cs /\
    py_all (map (fun c => (c1 <- index c 1 ;; c0 <- index c 0 ;;
                           Ok (arctan2 (c1 - nth 1 (nth k points []) 0)
                                       (c0 - nth 0 (nth k points []) 0)))%py) cs)
      = Ok angles /\
    simplices_with tri k <> [] /\
    take (simplices_with tri k) (argsort angles) = Ok cell.
Proof.
  unfold _find_voronoi_cell. rewrite site_distances. cbn [py_bind].
  rewrite map_map. intros Hcall.
  change (map (fun x => sum (map (fun x0 => x0 ^ 2)
                 (map (fun pq => fst pq - snd pq) (combine x query_point)))) points)
    with (map (site_distance2 query_point) points) in Hcall.
  assert (Hk : argmin (map (site_distance2 query_point) points) =
               match points with
               | [] => Raise ValueError
               | _ => Ok (nearest_site query_point points)
               end).
  { unfold nearest_site, argmin. now destruct points. }
  rewrite Hk in Hcall. destruct points as [|p ps] eqn:Ep; [discriminate|].
  rewrite <- Ep in *. cbn [py_bind] in Hcall.
  set (k0 := nearest_site query_point points) in *.
  destruct (length (simplices_with tri k0) =? 0)%nat eqn:Hlen;
    cbn [raise_if py_bind catch_none] in Hcall; [discriminate|].
  py_step Hcall. py_step Hcall.
  assert (Ha : a0 = nth k0 points []).
  { unfold index in E0. destruct (nth_error points k0) eqn:En; [|discriminate].
    inversion E0; subst. symmetry. now apply nth_error_nth. }
  py_step Hcall. py_step Hcall.
  assert (Ha1 : a1 = nth 0 a0 0).
  { unfold index in E1. destruct (nth_error a0 0) eqn:En; [|discriminate].
    inversion E1; subst. symmetry. now apply nth_error_nth. }
  assert (Ha2 : a2 = nth 1 a0 0).
  { unfold index in E2. destruct (nth_error a0 1) eqn:En; [|discriminate].
    inversion E2; subst. symmetry. now apply nth_error_nth. }
  py_step Hcall. py_step Hcall. inversion Hcall; subst.
  split; [congruence|]. split; [reflexivity|].
  exists a, a3. repeat split; auto.
  intros E'. rewrite E' in Hlen. discriminate.
Qed.

Lemma index_ok {A} (d : A) (l : list A) (i : nat) :
  (i < length l)%nat -> index l i = Ok (nth i l d).
Proof.
  intros Hi. unfold index. destruct (nth_error l i) as [x|] eqn:E.
  - cbn [of_option]. f_equal. symmetry. now apply nth_error_nth.
  - apply nth_error_None in E. lia.
Qed.

Lemma index_inv {A} (d : A) (l : list A) (i : nat) (x : A) :
  index l i = Ok x -> x = nth i l d.
Proof.
  unfold index. destruct (nth_error l i) as [y|] eqn:E; [|discriminate].
  intros Hx. inversion Hx; subst. symmetry. now apply nth_error_nth.
Qed.

(** What a successful search returns. *)
Lemma find_voronoi_cell_inv (tri : list (list nat)) (circumcenters : list (list R))
      (cell : list nat) (k : nat) :
  _find_voronoi_cell query_point points tri circumcenters = Some (cell, k) ->
  let around := simplices_with tri k in
  points <> [] /\ k = nearest_site query_point points /\ around <> [] /\
  cell = map (fun i => nth i around 0%nat)
             (argsort (map (vertex_angle circumcenters (nth k points [])) around)).
Proof.
  intros Hcall around.
  destruct (find_voronoi_cell_site tri circumcenters cell k Hcall)
    as [Hne [Hk [cs [angles [Hcs [Hang [Haround Hcell]]]]]]].
  fold around in Hcs, Haround, Hcell.
  split; [exact Hne|]. split; [exact Hk|]. split; [exact Haround|].
  apply (take_inv []) in Hcs as [-> _].
  apply (py_all_map_inv _
           (fun c => arctan2 (nth 1 c 0 - nth 1 (nth k points []) 0)
                             (nth 0 c 0 - nth 0 (nth k points []) 0))) in Hang.
  2:{ intros c ang _ Hc.
      destruct (index c 1) as [c1|] eqn:E1; cbn [py_bind] in Hc; [|discriminate].
      destruct (index c 0) as [c0|] eqn:E0; cbn [py_bind] in Hc; [|discriminate].
      apply (index_inv 0) in E1, E0. inversion Hc; subst. reflexivity. }
  rewrite map_map in Hang. fold (vertex_angle circumcenters (nth k points [])) in Hang.
  apply (take_inv 0%nat) in Hcell as [-> _].
  subst angles. reflexivity.
Qed.

(** The search on well-formed arguments: one 2-D circumcenter per simplex. *)
Lemma find_voronoi_cell_value (tri : list (list nat)) (circumcenters : list (list R)) :
  points <> [] ->
  (length tri <= length circumcenters)%nat ->
  (forall c, In c circumcenters -> length c = 2%nat) ->
  let k := nearest_site query_point points in
  let around := simplices_with tri k in
  _find_voronoi_cell query_point points tri circumcenters =
  if is_nil around then None
  else Some (map (fun i => nth i around 0%nat)
                 (argsort (map (vertex_angle circumcenters (nth k points [])) around)),
             k).
Proof.
  intros Hne Hlen Hcc k around.
  unfold _find_voronoi_cell. rewrite site_distances. cbn [py_bind].
  rewrite map_map.
  change (map (fun x => sum (map (fun x0 => x0 ^ 2)
                 (map (fun pq => fst pq - snd pq) (combine x query_point)))) points)
    with (map (site_distance2 query_point) points).
  assert (Hk : argmin (map (site_distance2 query_point) points) = Ok k).
  { unfold k, nearest_site, argmin. destruct points; [congruence|reflexivity]. }
  rewrite Hk. cbn [py_bind]. fold around.
  destruct around as [|s0 rest] eqn:Ear; [reflexivity|].
  rewrite <- Ear. cbn [is_nil].
  replace (length around =? 0)%nat with false by (rewrite Ear; reflexivity).
  cbn [raise_if py_bind].
  assert (Hin : forall s, In s around -> (s < length circumcenters)%nat).
  { intros s Hs. apply In_simplices_with in Hs. lia. }
  rewrite (take_ok [] circumcenters around Hin). cbn [py_bind].
  destruct (nearest_site_spec query_point points Hne) as [Hklt _]. fold k in Hklt.
  rewrite (index_ok [] points k Hklt). cbn [py_bind].
  assert (Hsite : length (nth k points []) = 2%nat) by (apply points_2d, nth_In, Hklt).
  rewrite (index_ok 0 (nth k points []) 0), (index_ok 0 (nth k points []) 1) by lia.
  cbn [py_bind].
  rewrite (py_all_map_Ok _
             (fun c => arctan2 (nth 1 c 0 - nth 1 (nth k points []) 0)
                               (nth 0 c 0 - nth 0 (nth k points []) 0))).
  2:{ intros c Hc. apply in_map_iff in Hc as [s [<- Hs]].
      assert (Hw : length (nth s circumcenters []) = 2%nat)
        by (apply Hcc, nth_In, Hin, Hs).
      rewrite (index_ok 0 _ 1), (index_ok 0 _ 0) by lia. reflexivity. }
  cbn [py_bind]. rewrite map_map.
  fold (vertex_angle circumcenters (nth k points [])).
  rewrite (take_ok 0%nat).
  - cbn [py_bind catch_none]. rewrite Ear. reflexivity.
  - intros i Hi.
    destruct (argsort_spec (map (vertex_angle circumcenters (nth k points [])) around))
      as [Hp _].
    apply (Permutation_in _ Hp) in Hi. apply in_seq in Hi.
    rewrite length_map in Hi. lia.
Qed.

End VoronoiCell.

(** X5.  The site returned by [_find_voronoi_cell] is an index of [points], no
    site is closer to the query point, and every site of smaller index is
    strictly farther: among equidistant sites [argmin] takes the first. *)
Theorem find_voronoi_cell_nearest :
  forall (query_point : list R) (points : list (list R)) (tri : list (list nat))
         (circumcenters : list (list R)) (cell : list nat) (k : nat),
    (forall p, In p points -> length p = 2%nat) ->
    length query_point = 2%nat ->
    _find_voronoi_cell query_point points tri circumcenters = Some (cell, k) ->
    (k < length points)%nat /\
    (forall j, (j < length points)%nat ->
       site_distance2 query_point (nth k points []) <=
       site_distance2 query_point (nth j points [])) /\
    (forall j, (j < k)%nat ->
       site_distance2 query_point (nth k points []) <
       site_distance2 query_point (nth j points [])).
Proof.
  intros q points tri cc cell k Hp Hq Hcall.
  destruct (find_voronoi_cell_inv q points Hp Hq tri cc cell k Hcall)
    as [Hne [-> _]].
  now apply nearest_site_spec.
Qed.

Lemma find_voronoi_cell_nearest_witness :
  _find_voronoi_cell [3; 1] [[0; 0]; [4; 0]; [0; 4]] [[0; 1; 2]%nat] [[2; 2]]
    = Some ([0%nat], 1%nat) /\
  site_distance2 [3; 1] [4; 0] < site_distance2 [3; 1] [0; 0].
Proof.
  assert (Hcall : _find_voronoi_cell [3; 1] [[0; 0]; [4; 0]; [0; 4]]
                                     [[0; 1; 2]%nat] [[2; 2]] = Some ([0%nat], 1%nat)).
  { unfold _find_voronoi_cell. crunch. repeat decide_real. reflexivity. }
  split; [exact Hcall|].
  destruct (find_voronoi_cell_nearest [3; 1] [[0; 0]; [4; 0]; [0; 4]]
              [[0; 1; 2]%nat] [[2; 2]] [0%nat] 1%nat) as [_ [_ Hfirst]].
  - intros p [<-|[<-|[<-|[]]]]; reflexivity.
  - reflexivity.
  - exact Hcall.
  - apply (Hfirst 0%nat). lia.
Defined.



(** X7.  On well-formed arguments (2-D points, one 2-D circumcenter per
    simplex) [_find_voronoi_cell] returns [None] exactly when the site
    nearest to the query point is a vertex of no simplex of the
    triangulation. *)
Theorem find_voronoi_cell_fails_iff :
  forall (query_point : list R) (points : list (list R)) (tri : list (list nat))
         (circumcenters : list (list R)),
    points <> [] ->
    (forall p, In p points -> length p = 2%nat) ->
    length query_point = 2%nat ->
    (length tri <= length circumcenters)%nat ->
    (forall c, In c circumcenters -> length c = 2%nat) ->
    (_find_voronoi_cell query_point points tri circumcenters = None <->
     forall simplex, In simplex tri -> ~ In (nearest_site query_point points) simplex).
Proof.
  intros q points tri cc Hne Hp Hq Hlen Hcc.
  rewrite (find_voronoi_cell_value q points Hp Hq tri cc Hne Hlen Hcc).
  set (k := nearest_site q points).
  destruct (simplices_with tri k) as [|s0 rest] eqn:Ear; cbn [is_nil].
  - split; [|reflexivity]. intros _ simplex Hin Hk.
    apply In_nth with (d := []) in Hin as [s [Hs Es]].
    assert (Hmem : In s (simplices_with tri k))
      by (apply In_simplices_with; split; [exact Hs|now rewrite Es]).
    now rewrite Ear in Hmem.
  - split; [discriminate|]. intros Hnone. exfalso.
    assert (Hmem : In s0 (simplices_with tri k)) by (rewrite Ear; now left).
    apply In_simplices_with in Hmem as [Hs Hk].
    apply (Hnone (nth s0 tri [])); [now apply nth_In|exact Hk].
Qed.

Lemma find_voronoi_cell_fails_iff_witness :
  _find_voronoi_cell [9; 9] [[0; 0]; [4; 0]; [0; 4]; [9; 9]] [[0; 1; 2]%nat] [[2; 2]]
    = None.
Proof.
  apply (find_voronoi_cell_fails_iff [9; 9] [[0; 0]; [4; 0]; [0; 4]; [9; 9]]
           [[0; 1; 2]%nat] [[2; 2]]).
  - discriminate.
  - intros p [<-|[<-|[<-|[<-|[]]]]]; reflexivity.
  - reflexivity.
  - simpl. lia.
  - intros c [<-|[]]. reflexivity.
  - assert (Hk : nearest_site [9; 9] [[0; 0]; [4; 0]; [0; 4]; [9; 9]] = 3%nat).
    { unfold nearest_site, site_distance2. crunch. repeat decide_real. reflexivity. }
    rewrite Hk. intros simplex [<-|[]] Hin. simpl in Hin. intuition discriminate.
Defined.

End CellFacts.

(** ** The map between two cells *)

Module MappingFacts.
Import Numpy RealArrays VoronoiAnalyzer VoronoiFacts WassersteinFacts.
Import CellFacts.

Lemma rows_op_2d (f : R -> R -> R) (M : list (list R)) (sx sy : R) :
  (forall v, In v M -> length v = 2%nat) ->
  rows_op f M [sx; sy] = Ok (map (fun v => [f (nth 0 v 0) sx; f (nth 1 v 0) sy]) M).
Proof.
  intros Hw. unfold rows_op. apply py_all_map_Ok. intros v Hv.
  specialize (Hw v Hv). two_columns v Hw. reflexivity.
Qed.

Section ExactInterpolation.
Context {scipy : SciPy}.
Hypothesis rbf_data : rbf_exact.

(** The warp of [_map_to_cell] sends every source vertex to the target
    vertex matched with it. *)
Lemma map_to_cell_of_vertices (ov tv : list (list R)) (oc tc : list R)
      (mapped : list (list R)) :
  (forall v, In v ov -> length v = 2%nat) ->
  (forall v, In v tv -> length v = 2%nat) ->
  length oc = 2%nat -> length tc = 2%nat ->
  _map_to_cell ov ov tv oc tc = Some mapped ->
  exists C rows cols,
    cdist (map (source_shifted oc tc) ov) (map (target_shifted tc) tv) = Ok C /\
    linear_sum_assignment C = Ok (rows, cols) /\
    take tv cols = Ok mapped.
Proof.
  intros Hov Htv Hoc Htc. unfold _map_to_cell.
  rewrite (centered_vertices_2d _ _ _ _ Hov Htv Hoc Htc). cbn [py_bind].
  set (src := map (source_shifted oc tc) ov).
  set (tgt := map (target_shifted tc) tv).
  assert (Hsrc : forall a, In a src -> length a = 2%nat).
  { intros a Ha. apply in_map_iff in Ha as [v [<- _]]. reflexivity. }
  assert (Htgt : forall b, In b tgt -> length b = 2%nat).
  { intros b Hb. apply in_map_iff in Hb as [v [<- _]]. reflexivity. }
  rewrite (cdist_same_width 2 src tgt Hsrc Htgt). cbn [py_bind].
  intros Hmap.
  destruct (linear_sum_assignment _) as [[rows cols]|e] eqn:Hlsa;
    cbn [py_bind catch_none] in Hmap; [|discriminate].
  destruct (take tgt cols) as [Y|e] eqn:Htake;
    cbn [py_bind catch_none] in Hmap; [|discriminate].
  destruct (RBFInterpolator src Y) as [tps|e] eqn:Hfit;
    cbn [py_bind catch_none] in Hmap; [|discriminate].
  two_columns oc Hoc. two_columns tc Htc.
  cbn [broadcast length Nat.eqb combine map fst snd py_bind] in Hmap.
  rewrite (rows_op_2d Rminus ov _ _ Hov) in Hmap. cbn [py_bind] in Hmap.
  change (map (fun v => [nth 0 v 0 - (x - x0); nth 1 v 0 - (y - y0)]) ov)
    with src in Hmap.
  rewrite (rbf_data _ _ _ Hfit) in Hmap. cbn [py_bind] in Hmap.
  apply (take_inv []) in Htake as [HY Hcols].
  assert (HY2 : forall v, In v Y -> length v = 2%nat).
  { intros v Hv. rewrite HY in Hv. apply in_map_iff in Hv as [i [<- Hi]].
    apply Htgt, nth_In, Hcols, Hi. }
  rewrite (rows_op_2d Rplus Y _ _ HY2) in Hmap. cbn [py_bind catch_none] in Hmap.
  inversion Hmap; subst mapped. clear Hmap.
  exists (map (fun a => map (distance a) tgt) src), rows, cols.
  split; [reflexivity|]. split; [exact Hlsa|].
  assert (Hlt : forall i, In i cols -> (i < length tv)%nat).
  { intros i Hi. specialize (Hcols i Hi). unfold tgt in Hcols.
    now rewrite length_map in Hcols. }
  rewrite (take_ok [] tv cols Hlt). f_equal.
  rewrite HY, map_map. apply map_ext_in. intros i Hi.
  unfold tgt.
  rewrite (nth_indep (map (target_shifted [x0; y0]) tv) [] (target_shifted [x0; y0] []))
    by (rewrite length_map; auto).
  rewrite (map_nth (target_shifted [x0; y0])).
  assert (Hv : length (nth i tv []) = 2%nat) by (apply Htv, nth_In; auto).
  two_columns (nth i tv []) Hv. unfold target_shifted. cbn [nth].
  f_equal; [|f_equal]; ring.
Qed.

End ExactInterpolation.

(** X8.  With an interpolant that passes through its data (the library's
    default, [smoothing=0]), [_map_to_cell] sends the original vertices onto
    the target vertices matched to them: mapping [original_vertices] itself
    returns [target_vertices[col_ind]], with [col_ind] the assignment computed
    on the matrix of distances of the centered vertices. *)
Theorem map_to_cell_vertices :
  forall (scipy : SciPy),
    rbf_exact ->
    forall (ov tv : list (list R)) (oc tc : list R) (mapped : list (list R)),
      (forall v, In v ov -> length v = 2%nat) ->
      (forall v, In v tv -> length v = 2%nat) ->
      length oc = 2%nat -> length tc = 2%nat ->
      _map_to_cell ov ov tv oc tc = Some mapped ->
      exists C rows cols,
        cdist (map (source_shifted oc tc) ov) (map (target_shifted tc) tv) = Ok C /\
        linear_sum_assignment C = Ok (rows, cols) /\
        take tv cols = Ok mapped.
Proof.
  intros scipy Hexact ov tv oc tc mapped. now apply map_to_cell_of_vertices.
Qed.

Lemma scipy_exact_is_exact : @rbf_exact scipy_exact.
Proof.
  intros X Y f Hf. cbn in Hf. inversion Hf; subst.
  destruct (same_points X X) as [_|Hne]; [reflexivity|congruence].
Qed.

Lemma map_to_cell_vertices_witness :
  exists mapped,
    @_map_to_cell scipy_exact [[1; 0]; [2; 1]] [[1; 0]; [2; 1]] [[5; 5]; [7; 8]]
                  [1; 0] [5; 5] = Some mapped /\
    take [[5; 5]; [7; 8]] [0; 1]%nat = Ok mapped.
Proof.
  assert (Hcall : exists mapped,
             @_map_to_cell scipy_exact [[1; 0]; [2; 1]] [[1; 0]; [2; 1]]
                           [[5; 5]; [7; 8]] [1; 0] [5; 5] = Some mapped).
  { unfold _map_to_cell.
    cbv -[Rplus Rminus Rmult Rdiv Rinv Ropp Rlt_dec Rle_dec Rabs sqrt atan PI pow
          IZR INR exp epsilon arctan2 distance norm RealArrays.sum same_points].
    destruct (same_points _ _) as [_|Hne]; [|congruence].
    eexists. reflexivity. }
  destruct Hcall as [mapped Hcall]. exists mapped. split; [exact Hcall|].
  destruct (map_to_cell_vertices scipy_exact scipy_exact_is_exact
              [[1; 0]; [2; 1]] [[5; 5]; [7; 8]] [1; 0] [5; 5] mapped)
    as [C [rows [cols [HC [Hlsa Htake]]]]].
  - intros v [<-|[<-|[]]]; reflexivity.
  - intros v [<-|[<-|[]]]; reflexivity.
  - reflexivity.
  - reflexivity.
  - exact Hcall.
  - cbn in Hlsa. rewrite (cdist_same_width 2) in HC.
    + inversion HC; subst C. cbn in Hlsa. inversion Hlsa; subst. exact Htake.
    + intros a [<-|[<-|[]]]; reflexivity.
    + intros a [<-|[<-|[]]]; reflexivity.
Defined.

End MappingFacts.

(** ** The interpolation as a whole *)

Module InterpolationFacts.
Import Numpy RealArrays VoronoiAnalyzer VoronoiFacts WassersteinFacts.
Import CircumcenterFacts CellFacts.

Lemma py_all_map_In {A B} (f : A -> py B) (l : list A) (bs : list B) :
  py_all (map f l) = Ok bs ->
  forall y, In y bs -> exists x, In x l /\ f x = Ok y.
Proof.
  revert bs. induction l as [|x l IH]; intros bs Hall y Hy; cbn [map py_all] in Hall.
  - inversion Hall; subst. destruct Hy.
  - destruct (f x) as [z|err] eqn:Ex; [|discriminate].
    destruct (py_all (map f l)) as [zs|err] eqn:El; [|discriminate].
    inversion Hall; subst. destruct Hy as [<-|Hy].
    + exists x. split; [now left|exact Ex].
    + destruct (IH zs eq_refl y Hy) as [x' [Hx' Ex']].
      exists x'. split; [now right|exact Ex'].
Qed.

Section Calls.
Context {scipy : SciPy}.

(** The checks and the two triangulations at the head of the call. *)
Lemma prepare_inv (relaxed unrelaxed query_points pristine_cell : list (list R))
      (ctx : context) :
  prepare relaxed unrelaxed query_points pristine_cell = Ok ctx ->
  (size relaxed =? 0)%nat = false /\ (size unrelaxed =? 0)%nat = false /\
  (size query_points =? 0)%nat = false /\ (size pristine_cell =? 0)%nat = false /\
  width_is 2 relaxed = true /\ width_is 2 unrelaxed = true /\
  width_is 2 query_points = true /\
  exists tri_relaxed tri cs_relaxed rbf,
    Delaunay relaxed = Ok tri_relaxed /\
    Delaunay unrelaxed = Ok tri /\
    circumcenters_of relaxed tri_relaxed = Ok cs_relaxed /\
    circumcenters_of unrelaxed tri = Ok (circumcenters_unrelaxed ctx) /\
    RBFInterpolator unrelaxed relaxed = Ok rbf /\
    rbf (circumcenters_unrelaxed ctx) = Ok (circumcenters_rbf ctx) /\
    tri_unrelaxed ctx = tri /\
    relaxed_points ctx = relaxed /\ unrelaxed_points ctx = unrelaxed /\
    vstack_row_last pristine_cell (mean_axis0 pristine_cell) =
      Ok (pristine_cell_extended ctx) /\
    pristine_center ctx = mean_axis0 pristine_cell.
Proof.
  unfold prepare. cbn [existsb forallb].
  destruct (size relaxed =? 0)%nat; [discriminate|].
  destruct (size unrelaxed =? 0)%nat; [discriminate|].
  destruct (size query_points =? 0)%nat; [discriminate|].
  destruct (size pristine_cell =? 0)%nat; [discriminate|].
  cbn [orb raise_if py_bind].
  destruct (width_is 2 relaxed); [|discriminate].
  destruct (width_is 2 unrelaxed); [|discriminate].
  destruct (width_is 2 query_points); [|discriminate].
  cbn [andb negb raise_if py_bind].
  intros Hp. repeat py_step Hp. inversion Hp; subst. cbn.
  repeat split; try reflexivity.
  do 4 eexists. repeat split; eauto.
Qed.

(** The context does not depend on the query points. *)
Lemma prepare_queries (relaxed unrelaxed qs qs' pristine_cell : list (list R))
      (ctx : context) :
  prepare relaxed unrelaxed qs pristine_cell = Ok ctx ->
  (size qs' =? 0)%nat = false -> width_is 2 qs' = true ->
  prepare relaxed unrelaxed qs' pristine_cell = Ok ctx.
Proof.
  intros Hp Hs Hw. revert Hp. unfold prepare. cbn [existsb forallb].
  rewrite Hs, Hw.
  destruct (size relaxed =? 0)%nat; [discriminate|].
  destruct (size unrelaxed =? 0)%nat; [discriminate|].
  destruct (size qs =? 0)%nat; [discriminate|].
  destruct (size pristine_cell =? 0)%nat; [discriminate|].
  cbn [orb raise_if py_bind].
  destruct (width_is 2 relaxed); [|discriminate].
  destruct (width_is 2 unrelaxed); [|discriminate].
  destruct (width_is 2 qs); [|discriminate].
  cbn [andb negb raise_if py_bind]. auto.
Qed.

(** An iteration appends to the lists it finds; what it appends does not
    depend on them. *)
Lemma loop_body_from (ctx : context) (st : loop_state) (q : list R) :
  loop_body ctx st q =
  {| interpolated_pristine :=
       interpolated_pristine st ++ interpolated_pristine (loop_body ctx initial_state q);
     interpolated_unrelaxed :=
       interpolated_unrelaxed st ++ interpolated_unrelaxed (loop_body ctx initial_state q);
     skipped := skipped st ++ skipped (loop_body ctx initial_state q) |}.
Proof.
  unfold loop_body, log_and_continue, initial_state.
  destruct (map_query ctx q) as [[pp up]|e]; cbn.
  - destruct (index pp 0) as [p0|e]; cbn.
    + destruct (index up 0) as [u0|e]; cbn; now rewrite ?app_nil_r.
    + now rewrite !app_nil_r.
  - now rewrite !app_nil_r.
Qed.

Lemma query_loop_from (ctx : context) (qs : list (list R)) (st : loop_state) :
  fold_left (loop_body ctx) qs st =
  {| interpolated_pristine :=
       interpolated_pristine st ++
       interpolated_pristine (fold_left (loop_body ctx) qs initial_state);
     interpolated_unrelaxed :=
       interpolated_unrelaxed st ++
       interpolated_unrelaxed (fold_left (loop_body ctx) qs initial_state);
     skipped := skipped st ++ skipped (fold_left (loop_body ctx) qs initial_state) |}.
Proof.
  revert st. induction qs as [|q qs IH]; intros st; cbn [fold_left].
  - cbn. rewrite !app_nil_r. now destruct st.
  - rewrite (IH (loop_body ctx st q)), (IH (loop_body ctx initial_state q)).
    rewrite (loop_body_from ctx st q). cbn. now rewrite !app_assoc.
Qed.

Lemma interpolate_displacements_prepared
      (relaxed unrelaxed query_points pristine_cell : list (list R))
      (r : list (list R) * list (list R) * list (list R) * list (list R)) :
  interpolate_displacements relaxed unrelaxed query_points pristine_cell = Some r ->
  exists ctx, prepare relaxed unrelaxed query_points pristine_cell = Ok ctx.
Proof.
  unfold interpolate_displacements, interpolate_displacements_run.
  destruct (prepare relaxed unrelaxed query_points pristine_cell) as [ctx|e];
    [eauto|discriminate].
Qed.

End Calls.

(** X9.  An empty array among the four arguments, points that are not of two
    coordinates, and a triangulation that raises end the call before the
    loop: the result is [None] and no query point is looked at. *)
Theorem interpolate_displacements_invalid_input :
  forall (scipy : SciPy) (relaxed unrelaxed query_points pristine_cell : list (list R)),
    size relaxed = 0%nat \/ size unrelaxed = 0%nat \/
    size query_points = 0%nat \/ size pristine_cell = 0%nat \/
    width_is 2 relaxed = false \/ width_is 2 unrelaxed = false \/
    width_is 2 query_points = false \/
    (exists e, Delaunay relaxed = Raise e) \/
    (exists e, Delaunay unrelaxed = Raise e) ->
    interpolate_displacements_run relaxed unrelaxed query_points pristine_cell =
      (None, initial_state) /\
    interpolate_displacements relaxed unrelaxed query_points pristine_cell = None.
Proof.
  intros scipy relaxed unrelaxed qs cell Hbad.
  assert (Hp : exists e, prepare relaxed unrelaxed qs cell = Raise e).
  { destruct (prepare relaxed unrelaxed qs cell) as [ctx|e] eqn:Hp; [|now exists e].
    exfalso.
    destruct (prepare_inv _ _ _ _ _ Hp)
      as [H1 [H2 [H3 [H4 [H5 [H6 [H7 [tr [tu [cr [rbf [Hd1 [Hd2 _]]]]]]]]]]]]].
    apply Nat.eqb_neq in H1, H2, H3, H4.
    destruct Hbad as [H|[H|[H|[H|[H|[H|[H|[[e H]|[e H]]]]]]]]]; congruence. }
  destruct Hp as [e Hp].
  unfold interpolate_displacements, interpolate_displacements_run.
  rewrite Hp. split; reflexivity.
Qed.

Lemma interpolate_displacements_invalid_input_witness :
  @interpolate_displacements_run scipy_stub [[0; 0]; [4; 0]; [0; 4]] [[0; 0; 1]] [[1; 1]]
                                 [[1; 0]; [0; 1]] = (None, initial_state) /\
  @interpolate_displacements scipy_stub [[0; 0]; [4; 0]; [0; 4]] [[0; 0; 1]] [[1; 1]]
                             [[1; 0]; [0; 1]] = None.
Proof.
  apply (interpolate_displacements_invalid_input scipy_stub).
  do 5 right. left. reflexivity.
Defined.

Lemma circumcenter_width (triangle : list (list R)) (c : list R) :
  (forall p, In p triangle -> length p = 2%nat) ->
  _calculate_circumcenter triangle = Ok c -> length c = 2%nat.
Proof.
  intros Hw. destruct triangle as [|a [|b [|v [|? ?]]]]; try discriminate.
  assert (Ha : length a = 2%nat) by (apply Hw; simpl; auto).
  assert (Hb : length b = 2%nat) by (apply Hw; simpl; auto).
  assert (Hv : length v = 2%nat) by (apply Hw; simpl; auto).
  two_columns a Ha. two_columns b Hb. two_columns v Hv.
  rewrite circumcenter_cases.
  destruct (Rlt_dec _ _); intros Hc; inversion Hc; reflexivity.
Qed.

Lemma circumcenters_of_width (points : list (list R)) (simplices : list (list nat))
      (cs : list (list R)) :
  width_is 2 points = true ->
  circumcenters_of points simplices = Ok cs ->
  length cs = length simplices /\ forall c, In c cs -> length c = 2%nat.
Proof.
  intros Hw Hcs. unfold circumcenters_of in Hcs. split.
  - apply py_all_length in Hcs. now rewrite length_map in Hcs.
  - intros c Hc.
    destruct (py_all_map_In _ _ _ Hcs c Hc) as [simplex [_ Hcall]].
    destruct (take points simplex) as [triangle|e] eqn:Ht; cbn [py_bind] in Hcall;
      [|discriminate].
    apply (circumcenter_width triangle); [|exact Hcall].
    intros p Hp. apply (take_inv []) in Ht as [-> Hlt].
    apply in_map_iff in Hp as [i [<- Hi]].
    unfold width_is in Hw. rewrite forallb_forall in Hw.
    apply Nat.eqb_eq, Hw, nth_In, Hlt, Hi.
Qed.

(** X10.  The last two components of a successful call of
    [interpolate_displacements], with an interpolant that returns one row per
    query row: one circumcenter of two coordinates per simplex of the
    triangulation of the unrelaxed sites, and as many warped circumcenters,
    the values at them of the interpolant fitted from the unrelaxed to the
    relaxed sites. *)
Theorem interpolate_displacements_circumcenters :
  forall (scipy : SciPy),
    rbf_keeps_rows ->
    forall (relaxed unrelaxed query_points pristine_cell P U cu cr : list (list R)),
      interpolate_displacements relaxed unrelaxed query_points pristine_cell
        = Some (P, U, cu, cr) ->
      exists simplices rbf,
        Delaunay unrelaxed = Ok simplices /\
        circumcenters_of unrelaxed simplices = Ok cu /\
        length cu = length simplices /\
        (forall c, In c cu -> length c = 2%nat) /\
        RBFInterpolator unrelaxed relaxed = Ok rbf /\
        rbf cu = Ok cr /\
        length cr = length simplices.
Proof.
  intros scipy Hrows relaxed unrelaxed qs cell P U cu cr.
  unfold interpolate_displacements, interpolate_displacements_run.
  destruct (prepare relaxed unrelaxed qs cell) as [ctx|e] eqn:Hp; [|discriminate].
  destruct (is_nil _ || is_nil _); [discriminate|].
  cbn [fst]. intros Hcall. inversion Hcall; subst. clear Hcall.
  destruct (prepare_inv _ _ _ _ _ Hp)
    as (_ & _ & _ & _ & _ & Hw & _ & tr & tri & csr & rbf & _ & Hd & _ & Hcu & Hfit & Hcr & _).
  destruct (circumcenters_of_width _ _ _ Hw Hcu) as [Hlen Hwidth].
  exists tri, rbf. repeat split; auto.
  rewrite (Hrows _ _ _ _ _ Hfit Hcr). exact Hlen.
Qed.

Lemma interpolate_displacements_circumcenters_witness :
  exists P U cu cr,
    @interpolate_displacements scipy_stub
      example_points example_points [[0; 0]; [9; 9]] example_cell = Some (P, U, cu, cr) /\
    length cu = 1%nat /\ length cr = 1%nat.
Proof.
  destruct example_queries as [ctx [Hctx [[r Hok] Hbad]]].
  assert (Hcall : exists P U cu cr,
             @interpolate_displacements scipy_stub
               example_points example_points [[0; 0]; [9; 9]] example_cell
             = Some (P, U, cu, cr)).
  { unfold interpolate_displacements, interpolate_displacements_run.
    rewrite Hctx, (query_loop_state scipy_stub_keeps_rows).
    unfold results. cbn [flat_map]. rewrite Hok, Hbad. destruct r as [p0 u0].
    cbn. do 4 eexists. reflexivity. }
  destruct Hcall as [P [U [cu [cr Hcall]]]].
  exists P, U, cu, cr. split; [exact Hcall|].
  destruct (interpolate_displacements_circumcenters scipy_stub scipy_stub_keeps_rows
              _ _ _ _ _ _ _ _ Hcall)
    as [simplices [rbf [Hd [_ [Hcu [_ [_ [_ Hcr]]]]]]]].
  cbn in Hd. inversion Hd; subst simplices. split; [exact Hcu|exact Hcr].
Defined.

(** X11.  The query points are processed one after the other and
    independently: when the calls on two arrays of query points succeed, the
    call on their concatenation returns the rows of the first call followed by
    those of the second, with the same circumcenters. *)
Theorem interpolate_displacements_concat :
  forall (scipy : SciPy)
         (relaxed unrelaxed qs1 qs2 pristine_cell P1 U1 cu1 cr1 P2 U2 cu2 cr2
            : list (list R)),
    interpolate_displacements relaxed unrelaxed qs1 pristine_cell
      = Some (P1, U1, cu1, cr1) ->
    interpolate_displacements relaxed unrelaxed qs2 pristine_cell
      = Some (P2, U2, cu2, cr2) ->
    interpolate_displacements relaxed unrelaxed (qs1 ++ qs2) pristine_cell
      = Some (P1 ++ P2, U1 ++ U2, cu1, cr1) /\
    cu2 = cu1 /\ cr2 = cr1.
Proof.
  intros scipy relaxed unrelaxed qs1 qs2 cell P1 U1 cu1 cr1 P2 U2 cu2 cr2.
  unfold interpolate_displacements, interpolate_displacements_run.
  destruct (prepare relaxed unrelaxed qs1 cell) as [ctx|e] eqn:Hp1; [|discriminate].
  destruct (prepare relaxed unrelaxed qs2 cell) as [ctx2|e] eqn:Hp2; [|discriminate].
  destruct (prepare_inv _ _ _ _ _ Hp1) as [_ [_ [Hs1 [_ [_ [_ [Hw1 _]]]]]]].
  destruct (prepare_inv _ _ _ _ _ Hp2) as [_ [_ [Hs2 [_ [_ [_ [Hw2 _]]]]]]].
  assert (E : ctx2 = ctx).
  { pose proof (prepare_queries _ _ _ _ _ _ Hp1 Hs2 Hw2) as Hp. congruence. }
  subst ctx2.
  assert (Hp : prepare relaxed unrelaxed (qs1 ++ qs2) cell = Ok ctx).
  { apply (prepare_queries _ _ _ _ _ _ Hp1).
    - apply Nat.eqb_neq. apply Nat.eqb_neq in Hs1. unfold size, nrows, ncols in *.
      destruct qs1 as [|q qs1]; [simpl in Hs1; lia|].
      cbn [app hd length] in *. rewrite length_app. nia.
    - unfold width_is in *. rewrite forallb_app, Hw1, Hw2. reflexivity. }
  intros H1 H2.
  rewrite Hp, fold_left_app.
  rewrite (query_loop_from ctx qs2 (fold_left (loop_body ctx) qs1 initial_state)).
  revert H1 H2.
  set (st1 := fold_left (loop_body ctx) qs1 initial_state).
  set (st2 := fold_left (loop_body ctx) qs2 initial_state).
  cbn [interpolated_pristine interpolated_unrelaxed fst].
  destruct (interpolated_pristine st1) as [|p1 ps1]; [discriminate|].
  destruct (interpolated_unrelaxed st1) as [|u1 us1]; [discriminate|].
  destruct (interpolated_pristine st2) as [|p2 ps2]; [discriminate|].
  destruct (interpolated_unrelaxed st2) as [|u2 us2]; [discriminate|].
  cbn [is_nil orb app fst]. intros H1 H2. inversion H1; inversion H2; subst.
  auto.
Qed.

Lemma interpolate_displacements_concat_witness :
  exists P U cu cr,
    @interpolate_displacements scipy_stub
      example_points example_points [[0; 0]] example_cell = Some (P, U, cu, cr) /\
    @interpolate_displacements scipy_stub
      example_points example_points ([[0; 0]] ++ [[0; 0]]) example_cell
      = Some (P ++ P, U ++ U, cu, cr).
Proof.
  destruct example_queries as [ctx [Hctx [[r Hok] _]]].
  assert (Hctx1 : @prepare scipy_stub example_points example_points [[0; 0]] example_cell
                  = Ok ctx).
  { apply (prepare_queries _ _ _ _ _ _ Hctx); reflexivity. }
  assert (Hcall : exists P U cu cr,
             @interpolate_displacements scipy_stub
               example_points example_points [[0; 0]] example_cell
             = Some (P, U, cu, cr)).
  { unfold interpolate_displacements, interpolate_displacements_run.
    rewrite Hctx1, (query_loop_state scipy_stub_keeps_rows).
    unfold results. cbn [flat_map]. rewrite Hok. destruct r as [p0 u0].
    cbn. do 4 eexists. reflexivity. }
  destruct Hcall as [P [U [cu [cr Hcall]]]].
  exists P, U, cu, cr. split; [exact Hcall|].
  apply (interpolate_displacements_concat scipy_stub _ _ _ _ _ _ _ _ _ _ _ _ _
           Hcall Hcall).
Defined.

End InterpolationFacts.

(** ** The primitive cell *)

Module PrimitiveCellFacts.
Import Numpy RealArrays VoronoiAnalyzer VoronoiFacts WassersteinFacts.

(** X12.  A result of [get_primitive_voronoi_cell] comes from the tessellation
    of the nine lattice points [x a1 + y a2], [x, y] in [{-1, 0, 1}]: the
    point number 4 is the origin, and the result is the list of the vertices
    of its region, or [None] when that region is unbounded (has the vertex
    index [-1]). *)
Theorem primitive_cell_origin_region :
  forall (scipy : SciPy) (a1x a1y a2x a2y : R) (result : option (list (list R))),
    get_primitive_voronoi_cell [[a1x; a1y]; [a2x; a2y]] = Ok result ->
    exists pts vor r region,
      matmul grid_points [[a1x; a1y]; [a2x; a2y]] = Ok pts /\
      length pts = 9%nat /\
      (forall p, In p pts <->
         exists x y, In x [-1; 0; 1]%Z /\ In y [-1; 0; 1]%Z /\
                     p = [0 + IZR x * a1x + IZR y * a2x; 0 + IZR x * a1y + IZR y * a2y]) /\
      nth 0 (nth 4 pts []) 0 = 0 /\ nth 1 (nth 4 pts []) 0 = 0 /\
      Voronoi pts = Ok vor /\
      nth_error (point_region vor) 4 = Some r /\
      nth_error (regions vor) r = Some region /\
      match result with
      | Some cell => ~ In (-1)%Z region /\ take_int (vertices vor) region = Ok cell
      | None => In (-1)%Z region
      end.
Proof.
  intros scipy a1x a1y a2x a2y result.
  destruct (lattice_points_grid a1x a1y a2x a2y) as [pts [Hm [Hlen [H4 Hall]]]].
  intros Hcall.
  unfold get_primitive_voronoi_cell, get_primitive_voronoi_cell_try in Hcall.
  rewrite Hm in Hcall. cbn [py_bind] in Hcall.
  destruct (Voronoi pts) as [vor|e] eqn:Hv; cbn [py_bind] in Hcall; [|discriminate].
  unfold index in Hcall.
  destruct (nth_error (point_region vor) 4) as [r|] eqn:Hr;
    cbn [of_option py_bind] in Hcall; [|discriminate].
  destruct (nth_error (regions vor) r) as [region|] eqn:Hreg;
    cbn [of_option py_bind] in Hcall; [|discriminate].
  exists pts, vor, r, region.
  split; [exact Hm|]. split; [exact Hlen|]. split; [exact Hall|].
  split; [rewrite H4; cbn [nth]; ring|]. split; [rewrite H4; cbn [nth]; ring|].
  split; [exact Hv|]. split; [exact Hr|]. split; [exact Hreg|].
  destruct (existsb (Z.eqb (-1)) region) eqn:Hex; cbn [negb] in Hcall.
  - inversion Hcall; subst.
    apply existsb_exists in Hex as [z [Hz Ez]]. apply Z.eqb_eq in Ez. now subst.
  - assert (Hnot : ~ In (-1)%Z region).
    { intros Hin. apply not_true_iff_false in Hex. apply Hex.
      apply existsb_exists. exists (-1)%Z. split; [exact Hin|reflexivity]. }
    destruct (take_int (vertices vor) region) as [cell|e] eqn:Ht;
      cbn [py_bind] in Hcall; [|discriminate].
    inversion Hcall; subst. split; [exact Hnot|reflexivity].
Qed.

Lemma primitive_cell_origin_region_witness :
  exists pts vor r region,
    matmul grid_points [[1; 0]; [0; 1]] = Ok pts /\
    nth 0 (nth 4 pts []) 0 = 0 /\ nth 1 (nth 4 pts []) 0 = 0 /\
    @Voronoi scipy_square pts = Ok vor /\
    nth_error (point_region vor) 4 = Some r /\
    nth_error (regions vor) r = Some region /\
    ~ In (-1)%Z region.
Proof.
  destruct (primitive_cell_origin_region scipy_square 1 0 0 1
              (Some [[-1 / 2; -1 / 2]; [1 / 2; -1 / 2]; [1 / 2; 1 / 2]; [-1 / 2; 1 / 2]]))
    as (pts & vor & r & region & Hm & _ & _ & Hx & Hy & Hv & Hr & Hreg & Hnot & _).
  - reflexivity.
  - exists pts, vor, r, region. auto 10.
Defined.

End PrimitiveCellFacts.

(** ** Densities and rejected calls *)

Module DensityFacts.
Import Numpy RealArrays VoronoiAnalyzer VoronoiFacts WassersteinMetric WassersteinFacts.

(** *** Densities *)

(** X13.  The normalisation by the number of points: with a positive bandwidth
    the densities returned for [n >= 1] points are positive, one per point,
    and add up to [n]. *)
Theorem calculate_density_normalised :
  forall (h : R) (P : list (list R)),
    0 < h -> P <> [] ->
    exists density,
      _calculate_density (finite P) (Fin h) = Ok density /\
      length density = length P /\
      (forall x, In x density -> 0 < x) /\
      sum density = INR (length P).
Proof.
  intros h P Hh Hne. exists (kde_density h P).
  split; [now apply density_value|]. split; [apply length_kde_density|].
  split; [now apply kde_density_pos|].
  unfold kde_density.
  set (density := map exp (map (gaussian_log_density h P) P)).
  assert (Hs : 0 < sum density).
  { apply sum_pos.
    - unfold density. destruct P; [congruence|discriminate].
    - intros y Hy. unfold density in Hy. apply in_map_iff in Hy as [z [<- _]].
      apply exp_pos. }
  rewrite sum_map_mult_r. field. lra.
Qed.

Lemma calculate_density_normalised_witness :
  exists density,
    _calculate_density (finite [[0; 0]; [1; 0]; [5; 5]]) (Fin (1 / 2)) = Ok density /\
    sum density = INR 3.
Proof.
  destruct (calculate_density_normalised (1 / 2) [[0; 0]; [1; 0]; [5; 5]])
    as [density [Hcall [_ [_ Hsum]]]].
  - lra.
  - discriminate.
  - exists density. split; [exact Hcall|exact Hsum].
Defined.

Lemma sqdist_shifted (tx ty : R) (y x : list R) :
  length y = 2%nat -> length x = 2%nat ->
  sqdist (shifted tx ty y) (shifted tx ty x) = sqdist y x.
Proof.
  intros Hy Hx. two_entries y Hy. two_entries x Hx.
  unfold sqdist, shifted. cbn. ring.
Qed.

Lemma kde_density_shifted (h tx ty : R) (P : list (list R)) :
  (forall p, In p P -> length p = 2%nat) ->
  kde_density h (map (shifted tx ty) P) = kde_density h P.
Proof.
  intros Hw.
  assert (Hcols : ncols (map (shifted tx ty) P) = ncols P).
  { unfold ncols. destruct P as [|p P]; [reflexivity|].
    cbn [map hd]. rewrite (Hw p) by now left. reflexivity. }
  assert (Hlog : map (gaussian_log_density h (map (shifted tx ty) P))
                     (map (shifted tx ty) P) =
                 map (gaussian_log_density h P) P).
  { rewrite map_map. apply map_ext_in. intros y Hy.
    unfold gaussian_log_density. rewrite Hcols, length_map, map_map.
    do 3 f_equal. apply map_ext_in. intros x Hx.
    rewrite sqdist_shifted by auto. reflexivity. }
  unfold kde_density. now rewrite Hlog, length_map.
Qed.

(** X14.  The densities depend on the relative positions only: moving all the
    points by one vector changes nothing in the result of
    [_calculate_density], errors included. *)
Theorem calculate_density_translation :
  forall (h tx ty : R) (P : list (list R)),
    (forall p, In p P -> length p = 2%nat) ->
    _calculate_density (finite (map (shifted tx ty) P)) (Fin h) =
    _calculate_density (finite P) (Fin h).
Proof.
  intros h tx ty P Hw.
  destruct (Rle_dec h 0) as [Hle|Hgt].
  - now rewrite !density_bad_bandwidth.
  - destruct P as [|p P].
    + reflexivity.
    + rewrite !density_value by (lra || discriminate).
      f_equal. now apply kde_density_shifted.
Qed.

Lemma calculate_density_translation_witness :
  _calculate_density (finite (map (shifted 10 (-3)) [[0; 0]; [1; 2]])) (Fin 1) =
  _calculate_density (finite [[0; 0]; [1; 2]]) (Fin 1).
Proof.
  apply (calculate_density_translation 1 10 (-3) [[0; 0]; [1; 2]]).
  intros p [<-|[<-|[]]]; reflexivity.
Defined.

(** *** Rejected calls *)

Lemma finite_rows_non_finite (M : list (list num)) :
  has_non_finite M -> finite_rows M = Raise ValueError.
Proof.
  intros [row [x [Hrow [Hx Hnf]]]]. unfold finite_rows.
  replace (forallb (forallb is_finite) M) with false; [reflexivity|].
  symmetry. apply not_true_is_false. intros Hall.
  rewrite forallb_forall in Hall. specialize (Hall row Hrow).
  rewrite forallb_forall in Hall. specialize (Hall x Hx). congruence.
Qed.

Lemma density_non_finite (points : list (list num)) (bandwidth : num) :
  has_non_finite points -> _calculate_density points bandwidth = Raise ValueError.
Proof.
  intros Hbad. unfold _calculate_density.
  destruct bandwidth as [h|]; [|reflexivity].
  destruct (Rle_dec h 0); [reflexivity|].
  now rewrite finite_rows_non_finite.
Qed.

Lemma density_raises (points : list (list num)) (bandwidth : num) (e : exn) :
  _calculate_density points bandwidth = Raise e -> e = ValueError.
Proof.
  unfold _calculate_density.
  destruct bandwidth as [h|]; [|congruence].
  destruct (Rle_dec h 0); [congruence|].
  unfold finite_rows. destruct (forallb _ _); cbn [py_bind]; [|congruence].
  destruct (_ =? _)%nat; cbn [raise_if py_bind]; congruence.
Qed.

Lemma init_inv (lattice : list (list num)) (self : metric) :
  init lattice = Ok self ->
  lattice_vectors self = lattice /\
  exists a1 a2, lattice = [a1; a2] /\ length a1 = 2%nat /\ length a2 = 2%nat.
Proof.
  unfold init. destruct (shape_is 2 2 lattice) eqn:Hs; cbn [negb raise_if py_bind];
    [|discriminate].
  intros Hi. inversion Hi; subst. split; [reflexivity|].
  unfold shape_is in Hs. apply andb_prop in Hs as [Hrows Hcols].
  apply Nat.eqb_eq in Hrows.
  destruct lattice as [|a1 [|a2 [|? ?]]]; try discriminate.
  cbn [forallb] in Hcols.
  apply andb_prop in Hcols as [H1 H2]. apply andb_prop in H2 as [H2 _].
  apply Nat.eqb_eq in H1, H2. eauto.
Qed.

(** X15.  A call of [calculate_distance] on an empty array, on rows that are
    not of two coordinates or on a NaN or infinite coordinate raises a
    ValueError, whatever the solver and the bandwidth: it does not reach the
    solver. *)
Theorem calculate_distance_rejects :
  forall (pot : POT) (lattice : list (list num)) (self : metric)
         (displacements1 displacements2 : list (list num)) (bandwidth : option R),
    init lattice = Ok self ->
    size displacements1 = 0%nat \/ size displacements2 = 0%nat \/
    width_is 2 displacements1 = false \/ width_is 2 displacements2 = false \/
    has_non_finite displacements1 \/ has_non_finite displacements2 ->
    calculate_distance self displacements1 displacements2 bandwidth = Raise ValueError.
Proof.
  intros pot lattice self d1 d2 bw Hinit Hbad.
  destruct (init_inv _ _ Hinit) as [Hlat [a1 [a2 [-> _]]]].
  unfold calculate_distance.
  destruct (size d1 =? 0)%nat eqn:Hs1; [reflexivity|].
  destruct (size d2 =? 0)%nat eqn:Hs2; [reflexivity|].
  cbn [orb raise_if py_bind].
  destruct (width_is 2 d1) eqn:Hw1; [|reflexivity].
  destruct (width_is 2 d2) eqn:Hw2; [|reflexivity].
  cbn [orb negb raise_if py_bind].
  apply Nat.eqb_neq in Hs1, Hs2.
  destruct Hbad as [H|[H|[H|[H|Hnf]]]]; try congruence.
  assert (Hbw : exists b, match bw with
                          | Some b => Ok (Fin b)
                          | None => default_bandwidth self d1
                          end = Ok b).
  { destruct bw as [b|]; [now exists (Fin b)|].
    unfold default_bandwidth. rewrite Hlat. cbn [index nth_error of_option py_bind].
    eexists. reflexivity. }
  destruct Hbw as [b ->]. cbn [py_bind].
  destruct Hnf as [Hnf|Hnf].
  - now rewrite density_non_finite.
  - destruct (_calculate_density d1 b) as [density1|e] eqn:Hd1; cbn [py_bind].
    + now rewrite density_non_finite.
    + apply density_raises in Hd1. now subst.
Qed.

Lemma calculate_distance_rejects_witness :
  @calculate_distance pot_product (metric_of 1 0 0 1)
    [[Fin 0; Fin 0]] [[Fin 1; NonFin]] (Some 1) = Raise ValueError.
Proof.
  apply (calculate_distance_rejects pot_product [[Fin 1; Fin 0]; [Fin 0; Fin 1]]).
  - reflexivity.
  - do 5 right. exists [Fin 1; NonFin], NonFin. simpl. auto.
Defined.

Lemma norm_zero_vector : norm [0; 0] = 0.
Proof. apply norm_zero_2d; reflexivity. Qed.

(** X16.  A bandwidth that is not positive is rejected with a ValueError: one
    given as such, and the default one when the first lattice vector is the
    zero vector. *)
Theorem calculate_distance_bad_bandwidth :
  forall (pot : POT) (a1x a1y a2x a2y : R) (P1 P2 : list (list R)),
    valid_points P1 -> valid_points P2 ->
    (forall b, b <= 0 ->
       calculate_distance (metric_of a1x a1y a2x a2y) (finite P1) (finite P2) (Some b)
       = Raise ValueError) /\
    (a1x = 0 -> a1y = 0 ->
     calculate_distance (metric_of a1x a1y a2x a2y) (finite P1) (finite P2) None
     = Raise ValueError).
Proof.
  intros pot a1x a1y a2x a2y P1 P2 Hv1 Hv2. split.
  - intros b Hb.
    rewrite (calculate_distance_value a1x a1y a2x a2y P1 P2 (Some b) Hv1 Hv2).
    cbn [effective_bandwidth]. destruct (Rle_dec b 0); [reflexivity|lra].
  - intros -> ->.
    rewrite (calculate_distance_value 0 0 a2x a2y P1 P2 None Hv1 Hv2).
    cbn [effective_bandwidth]. rewrite norm_zero_vector.
    destruct (Rle_dec _ 0) as [_|Hgt]; [reflexivity|].
    exfalso. apply Hgt. unfold Rdiv. rewrite Rmult_0_l. lra.
Qed.

Lemma calculate_distance_bad_bandwidth_witness :
  @calculate_distance pot_product (metric_of 0 0 0 1) (finite [[0; 0]]) (finite [[1; 2]]) None
  = Raise ValueError.
Proof.
  assert (Hv1 : valid_points [[0; 0]])
    by (split; [discriminate|]; intros p [<-|[]]; reflexivity).
  assert (Hv2 : valid_points [[1; 2]])
    by (split; [discriminate|]; intros p [<-|[]]; reflexivity).
  apply (proj2 (calculate_distance_bad_bandwidth pot_product 0 0 0 1 _ _ Hv1 Hv2));
    reflexivity.
Defined.

End DensityFacts.

(** ** The entries of the cost matrix *)

Module CostFacts.
Import Numpy RealArrays VoronoiAnalyzer VoronoiFacts WassersteinMetric WassersteinFacts.

(** *** Bounds on the cost matrix *)

Lemma norm_2d_abs (x : R) : norm [x; 0] = Rabs x.
Proof.
  unfold norm. cbn. replace (x * x + (0 * 0 + 0)) with (x²) by (unfold Rsqr; ring).
  apply sqrt_Rsqr_abs.
Qed.

Lemma norm_2d_ge_abs (x y : R) : Rabs x <= norm [x; y].
Proof.
  unfold norm. cbn. rewrite <- sqrt_Rsqr_abs. apply sqrt_le_1_alt.
  unfold Rsqr. nra.
Qed.

Lemma image_distance_origin (a1x a1y a2x a2y : R) (pA pB : list R) :
  length pA = 2%nat -> length pB = 2%nat ->
  image_distance a1x a1y a2x a2y pA pB (0, 0)%Z = distance pA pB.
Proof.
  intros HA HB. two_entries pA HA. two_entries pB HB.
  unfold image_distance, image_vector, distance, norm. cbn. f_equal. ring.
Qed.

Lemma periodic_cost_le_distance (a1x a1y a2x a2y : R) (pA pB : list R) :
  length pA = 2%nat -> length pB = 2%nat ->
  periodic_cost a1x a1y a2x a2y pA pB <= distance pA pB.
Proof.
  intros HA HB. rewrite <- (image_distance_origin a1x a1y a2x a2y) by assumption.
  apply periodic_cost_least; lia.
Qed.

Lemma periodic_cost_translate (a1x a1y a2x a2y : R) (pA pB : list R) (i j : Z) :
  (-2 <= i <= 2)%Z -> (-2 <= j <= 2)%Z ->
  nth 0 pA 0 = nth 0 pB 0 + (IZR i * a1x + IZR j * a2x) ->
  nth 1 pA 0 = nth 1 pB 0 + (IZR i * a1y + IZR j * a2y) ->
  periodic_cost a1x a1y a2x a2y pA pB = 0.
Proof.
  intros Hi Hj Ex Ey.
  destruct (periodic_cost_least a1x a1y a2x a2y pA pB) as [Hlow [_ Hpos]].
  assert (Hle := Hlow (- i)%Z (- j)%Z ltac:(lia) ltac:(lia)).
  unfold image_distance, image_vector in Hle. cbn [fst snd] in Hle.
  rewrite norm_zero_2d in Hle by (rewrite ?Ex, ?Ey, !opp_IZR; ring).
  lra.
Qed.

(** X17.  Every entry of the cost matrix lies between 0 and the plain Euclidean
    distance of its two points, and is 0 when the two points differ by
    [i a1 + j a2] with [|i|, |j| <= 2]. *)
Theorem cost_matrix_bounds :
  forall (a1x a1y a2x a2y : R) (P1 P2 : list (list R)),
    (forall p, In p P1 -> length p = 2%nat) ->
    (forall p, In p P2 -> length p = 2%nat) ->
    exists C,
      _calculate_cost_matrix (metric_of a1x a1y a2x a2y) (finite P1) (finite P2) = Ok C /\
      forall m n, (m < length P1)%nat -> (n < length P2)%nat ->
        let pA := nth m P1 [] in
        let pB := nth n P2 [] in
        let c := nth n (nth m C []) 0 in
        0 <= c /\ c <= distance pA pB /\
        (forall i j, (-2 <= i <= 2)%Z -> (-2 <= j <= 2)%Z ->
           nth 0 pA 0 = nth 0 pB 0 + (IZR i * a1x + IZR j * a2x) ->
           nth 1 pA 0 = nth 1 pB 0 + (IZR i * a1y + IZR j * a2y) ->
           c = 0).
Proof.
  intros a1x a1y a2x a2y P1 P2 H1 H2.
  exists (cost_of a1x a1y a2x a2y P1 P2).
  split; [now apply cost_matrix_value|].
  intros m n Hm Hn pA pB c. subst c. unfold cost_of.
  rewrite (nth_cost_matrix (periodic_cost a1x a1y a2x a2y) P1 P2 m n Hm Hn).
  fold pA pB.
  assert (HA : length pA = 2%nat) by (apply H1, nth_In, Hm).
  assert (HB : length pB = 2%nat) by (apply H2, nth_In, Hn).
  split; [apply periodic_cost_least|].
  split; [now apply periodic_cost_le_distance|].
  intros i j. apply periodic_cost_translate.
Qed.

Lemma cost_matrix_bounds_witness :
  exists C,
    _calculate_cost_matrix (metric_of 1 0 0 1) (finite [[2; -1]]) (finite [[0; 0]]) = Ok C /\
    nth 0 (nth 0 C []) 0 = 0.
Proof.
  destruct (cost_matrix_bounds 1 0 0 1 [[2; -1]] [[0; 0]]) as [C [HC Hentry]].
  - intros p [<-|[]]; reflexivity.
  - intros p [<-|[]]; reflexivity.
  - exists C. split; [exact HC|].
    destruct (Hentry 0%nat 0%nat) as [_ [_ Hzero]]; [simpl; lia|simpl; lia|].
    apply (Hzero 2 (-1))%Z; try lia; cbn [nth]; lra.
Defined.

(** X18.  Only the images within two cells are looked at.  On a rectangular
    lattice with sides [L] and [M], two points that differ by [k] cells
    along the first lattice vector, [|k| >= 2], are at cost [(|k| - 2) L]:
    beyond two cells a lattice translate is not at cost 0. *)
Theorem cost_matrix_truncation :
  forall (L M : R) (p q : list R) (k : Z),
    0 < L ->
    length p = 2%nat -> length q = 2%nat ->
    (2 <= Z.abs k)%Z ->
    nth 0 p 0 = nth 0 q 0 + IZR k * L ->
    nth 1 p 0 = nth 1 q 0 ->
    _calculate_cost_matrix (metric_of L 0 0 M) (finite [p]) (finite [q]) =
    Ok [[IZR (Z.abs k - 2) * L]].
Proof.
  intros L M p q k HL Hp Hq Hk Ex Ey.
  rewrite cost_matrix_value
    by (intros r [<-|[]]; assumption).
  unfold cost_of. cbn [map]. do 3 f_equal.
  destruct (periodic_cost_least L 0 0 M p q) as [Hlow [[i [j [Hi [Hj Hatt]]]] _]].
  apply Rle_antisym.
  - set (i0 := (if (0 <=? k)%Z then -2 else 2)%Z).
    assert (Hi0 : (-2 <= i0 <= 2)%Z) by (unfold i0; destruct (0 <=? k)%Z; lia).
    eapply Rle_trans; [apply (Hlow i0 0%Z Hi0); lia|].
    unfold image_distance, image_vector. cbn [fst snd].
    replace (nth 0 p 0 - nth 0 q 0 + (IZR i0 * L + 0 * 0)) with (IZR (k + i0) * L)
      by (rewrite Ex, plus_IZR; ring).
    replace (nth 1 p 0 - nth 1 q 0 + (IZR i0 * 0 + 0 * M)) with 0
      by (rewrite Ey; ring).
    rewrite norm_2d_abs, Rabs_mult, <- abs_IZR, (Rabs_pos_eq L) by lra.
    apply Rmult_le_compat_r; [lra|]. apply IZR_le.
    unfold i0. destruct (0 <=? k)%Z eqn:E;
      [apply Z.leb_le in E|apply Z.leb_gt in E]; lia.
  - rewrite Hatt. unfold image_distance, image_vector. cbn [fst snd].
    eapply Rle_trans; [|apply norm_2d_ge_abs].
    replace (nth 0 p 0 - nth 0 q 0 + (IZR i * L + IZR j * 0)) with (IZR (k + i) * L)
      by (rewrite Ex, plus_IZR; ring).
    rewrite Rabs_mult, <- abs_IZR, (Rabs_pos_eq L) by lra.
    apply Rmult_le_compat_r; [lra|]. apply IZR_le. lia.
Qed.

Lemma cost_matrix_truncation_witness :
  _calculate_cost_matrix (metric_of 1 0 0 1) (finite [[3; 0]]) (finite [[0; 0]]) =
  Ok [[IZR (Z.abs 3 - 2) * 1]].
Proof.
  apply (cost_matrix_truncation 1 1 [3; 0] [0; 0] 3).
  - lra.
  - reflexivity.
  - reflexivity.
  - simpl. lia.
  - cbn [nth]. lra.
  - reflexivity.
Defined.

(** *** The distances are at most the largest pairwise distance *)

Lemma weighted_sum_le (B : R) (t c : list R) :
  0 <= B -> nonneg t -> Forall (fun x => x <= B) c ->
  sum (map (fun tc => fst tc * snd tc) (combine t c)) <= B * sum t.
Proof.
  intros HB Ht. revert c. induction Ht as [|x t Hx Ht IH]; intros c Hc.
  - cbn. lra.
  - destruct c as [|y c].
    + cbn [combine map]. rewrite sum_cons. pose proof (sum_nonneg t Ht). cbn. nra.
    + inversion Hc as [|? ? Hy Hc']; subst.
      cbn [combine map fst snd]. rewrite !sum_cons.
      specialize (IH c Hc'). cbn [fst snd]. nra.
Qed.

Lemma sum_product_le (B : R) (T C : list (list R)) :
  0 <= B -> Forall nonneg T -> Forall (Forall (fun x => x <= B)) C ->
  sum_product T C <= B * sum (row_sums T).
Proof.
  intros HB HT. unfold sum_product, row_sums. revert C.
  induction HT as [|t T Ht HT IH]; intros C HC.
  - cbn. lra.
  - destruct C as [|c C].
    + cbn [combine map]. rewrite sum_cons.
      assert (0 <= sum (map sum T)).
      { apply sum_nonneg. apply Forall_forall. intros s Hs.
        apply in_map_iff in Hs as [r [<- Hr]]. apply sum_nonneg.
        rewrite Forall_forall in HT. now apply HT. }
      pose proof (sum_nonneg t Ht). cbn. nra.
    + inversion HC as [|? ? Hc HC']; subst.
      cbn [combine map fst snd]. rewrite !sum_cons.
      specialize (IH C HC'). pose proof (weighted_sum_le B t c HB Ht Hc). lra.
Qed.

Lemma plan_cost_le (B : R) (a b : list R) (T C : list (list R)) :
  0 <= B -> distribution a -> is_plan a b T ->
  Forall (Forall (fun x => x <= B)) C ->
  sum_product T C <= B.
Proof.
  intros HB [_ Hsum] [_ [_ [Hpos [Hrows _]]]] HC.
  pose proof (sum_product_le B T C HB Hpos HC) as Hle.
  rewrite Hrows, Hsum in Hle. lra.
Qed.

(** X19.  With a solver that returns feasible plans, both distances of a call
    of [calculate_distance] are at most any bound [B] on the Euclidean
    distances between a point of the first array and a point of the second. *)
Theorem distance_at_most_diameter :
  forall (pot : POT),
    emd_feasible ->
    forall (a1x a1y a2x a2y : R) (P1 P2 : list (list R)) (bandwidth : option R)
           (d du : R) (T Tu : list (list R)) (B : R),
      valid_points P1 -> valid_points P2 ->
      calculate_distance (metric_of a1x a1y a2x a2y) (finite P1) (finite P2) bandwidth
        = Ok (d, T, du, Tu) ->
      (forall p1 p2, In p1 P1 -> In p2 P2 -> distance p1 p2 <= B) ->
      d <= B /\ du <= B.
Proof.
  intros pot Hemd a1x a1y a2x a2y P1 P2 bw d du T Tu B Hv1 Hv2 Hcall HB.
  destruct (calculate_distance_inv a1x a1y a2x a2y P1 P2 bw d du T Tu Hv1 Hv2 Hcall)
    as [Hh [HT [HTu [-> ->]]]].
  set (h := effective_bandwidth a1x a1y P1 bw) in *.
  set (C := cost_of a1x a1y a2x a2y P1 P2) in *.
  destruct (cost_of_shape a1x a1y a2x a2y P1 P2) as [Hrows Hcols].
  fold C in Hrows, Hcols.
  destruct Hv1 as [Hne1 Hw1]. destruct Hv2 as [Hne2 Hw2].
  assert (HC : Forall (Forall (fun x => x <= B)) C).
  { unfold C, cost_of. apply Forall_forall. intros row Hrow.
    apply in_map_iff in Hrow as [p1 [<- Hp1]].
    apply Forall_forall. intros c Hc. apply in_map_iff in Hc as [p2 [<- Hp2]].
    eapply Rle_trans; [apply periodic_cost_le_distance; auto|auto]. }
  assert (HB0 : 0 <= B).
  { destruct P1 as [|p1 ?]; [congruence|]. destruct P2 as [|p2 ?]; [congruence|].
    eapply Rle_trans; [|apply (HB p1 p2); now left].
    unfold distance. apply norm_nonneg. }
  destruct (Hemd (weights h P1) (weights h P2) C) as [T0 [HT0 Hplan]];
    try (now apply weights_distribution); try (now rewrite length_weights).
  destruct (Hemd (uniform_weights P1) (uniform_weights P2) C) as [Tu0 [HTu0 Hplanu]];
    try (now apply uniform_distribution); try (now rewrite length_uniform_weights).
  assert (T0 = T) by congruence. assert (Tu0 = Tu) by congruence. subst T0 Tu0.
  split.
  - apply (plan_cost_le B _ _ T C HB0 (weights_distribution h P1 Hne1) Hplan HC).
  - apply (plan_cost_le B _ _ Tu C HB0 (uniform_distribution P1 Hne1) Hplanu HC).
Qed.

Lemma distance_at_most_diameter_witness :
  exists d T du Tu,
    @calculate_distance pot_product (metric_of 10 0 0 10)
       (finite [[0; 0]]) (finite [[1; 0]]) None = Ok (d, T, du, Tu) /\
    d <= 1 /\ du <= 1.
Proof.
  assert (Hv1 : valid_points [[0; 0]])
    by (split; [discriminate|]; intros p [<-|[]]; reflexivity).
  assert (Hv2 : valid_points [[1; 0]])
    by (split; [discriminate|]; intros p [<-|[]]; reflexivity).
  assert (Hh : 0 < effective_bandwidth 10 0 [[0; 0]] None)
    by (apply default_bandwidth_pos; [left; lra|discriminate]).
  pose proof (calculate_distance_product 10 0 0 10 _ _ None Hv1 Hv2 Hh) as Hcall.
  cbv zeta in Hcall.
  do 4 eexists. split; [exact Hcall|].
  apply (distance_at_most_diameter pot_product pot_product_feasible
           10 0 0 10 _ _ None _ _ _ _ 1 Hv1 Hv2 Hcall).
  intros p1 p2 [<-|[]] [<-|[]].
  rewrite distance_horizontal by ring.
  replace (0 - 1) with (- (1)) by ring. rewrite Rabs_Ropp, Rabs_pos_eq; lra.
Defined.

End CostFacts.

(** ** Reordering the points *)

Module ReorderFacts.
Import Numpy RealArrays VoronoiAnalyzer VoronoiFacts WassersteinMetric WassersteinFacts.

(** *** Reordering the points *)

Lemma sum_perm (l l' : list R) : Permutation l l' -> sum l = sum l'.
Proof.
  induction 1 as [|x l l' _ IH|x y l|l l' l'' _ IH1 _ IH2];
    rewrite ?sum_cons; lra.
Qed.

(** A reordering of a list carries over to a list zipped with it. *)
Lemma perm_lift {A B} (l l' : list A) (t : list B) :
  Permutation l l' -> length t = length l ->
  exists t', length t' = length l' /\ Permutation (combine l t) (combine l' t').
Proof.
  intros Hp. revert t.
  induction Hp as [|x l l' _ IH|x y l|l l' l'' _ IH1 _ IH2]; intros t Hlen.
  - exists []. destruct t; [|discriminate]. split; [reflexivity|constructor].
  - destruct t as [|b t]; [discriminate|].
    destruct (IH t) as [t' [Hl Hp']]; [simpl in Hlen; lia|].
    exists (b :: t'). split; [simpl; lia|]. cbn [combine]. now constructor.
  - destruct t as [|b1 [|b2 t]]; try discriminate.
    exists (b2 :: b1 :: t). split; [simpl in *; lia|]. cbn [combine]. apply perm_swap.
  - destruct (IH1 t Hlen) as [t1 [Hl1 Hp1]].
    destruct (IH2 t1 Hl1) as [t2 [Hl2 Hp2]].
    exists t2. split; [exact Hl2|]. now rewrite Hp1.
Qed.

Lemma map_snd_combine {A B} (l : list A) (t : list B) :
  length t = length l -> map snd (combine l t) = t.
Proof.
  revert t. induction l as [|x l IH]; intros [|b t] Hlen; try discriminate; [reflexivity|].
  cbn [combine map snd]. f_equal. apply IH. simpl in Hlen. lia.
Qed.

Section Reorder.
Variables (w : list R -> R) (f : list R -> list R) (b : list R).

(** The constraints on the rows of a plan, row by row along the points. *)
Lemma plan_rows_zipped (P : list (list R)) (T : list (list R)) :
  length T = length P ->
  (Forall (fun row => length row = length b) T /\ Forall nonneg T /\
   row_sums T = map w P) <->
  Forall (fun pt => length (snd pt) = length b /\ nonneg (snd pt) /\
                    sum (snd pt) = w (fst pt)) (combine P T).
Proof.
  revert T. induction P as [|p P IH]; intros [|t T] Hlen; try discriminate.
  - cbn. split; [constructor|repeat split; constructor].
  - cbn [combine row_sums map]. split.
    + intros [Hr [Hn Hs]]. inversion Hr; inversion Hn; inversion Hs; subst.
      constructor; [cbn; auto|].
      apply IH; [simpl in Hlen; lia|]. repeat split; assumption.
    + intros Hall. inversion Hall as [|? ? [H1 [H2 H3]] Hrest]; subst.
      apply IH in Hrest as [Hr [Hn Hs]]; [|simpl in Hlen; lia].
      cbn [fst snd] in *. unfold row_sums in Hs.
      repeat split; try constructor; auto. now rewrite H3, Hs.
Qed.

Lemma sum_product_zipped (P : list (list R)) (T : list (list R)) :
  length T = length P ->
  sum_product T (map f P) =
  sum (map (fun pt => sum (map (fun tc => fst tc * snd tc)
                               (combine (snd pt) (f (fst pt)))))
           (combine P T)).
Proof.
  unfold sum_product.
  revert T. induction P as [|p P IH]; intros [|t T] Hlen; try discriminate; [reflexivity|].
  cbn [map combine fst snd]. rewrite !sum_cons. f_equal.
  apply IH. simpl in Hlen. lia.
Qed.

Lemma col_sums_perm (m : nat) (T T' : list (list R)) :
  Permutation T T' -> col_sums m T = col_sums m T'.
Proof.
  intros Hp. unfold col_sums, column. apply map_ext. intros j.
  apply sum_perm. now apply Permutation_map.
Qed.

(** A plan for the points in one order gives a plan of the same cost for
    the points in another order. *)
Lemma plan_reorder (P P' : list (list R)) (T : list (list R)) :
  Permutation P P' ->
  is_plan (map w P) b T ->
  exists T', is_plan (map w P') b T' /\
             sum_product T' (map f P') = sum_product T (map f P).
Proof.
  intros Hp [Hlen [Hr [Hn [Hs Hc]]]]. rewrite length_map in Hlen.
  destruct (perm_lift P P' T Hp Hlen) as [T' [Hlen' Hz]].
  exists T'. split.
  - assert (Hrows : Forall (fun pt => length (snd pt) = length b /\ nonneg (snd pt) /\
                                      sum (snd pt) = w (fst pt)) (combine P' T')).
    { apply (Permutation_Forall Hz). apply plan_rows_zipped; auto. }
    apply plan_rows_zipped in Hrows as [Hr' [Hn' Hs']]; [|exact Hlen'].
    unfold is_plan. rewrite length_map. repeat split; auto.
    transitivity (col_sums (length b) T); [|exact Hc].
    symmetry. apply col_sums_perm.
    rewrite <- (map_snd_combine P T Hlen), <- (map_snd_combine P' T' Hlen').
    now apply Permutation_map.
  - rewrite !sum_product_zipped by assumption.
    apply sum_perm. apply Permutation_map. now symmetry.
Qed.

Lemma optimal_reorder_le (P P' : list (list R)) (T T' : list (list R)) :
  Permutation P P' ->
  is_optimal_plan (map w P) b (map f P) T ->
  is_optimal_plan (map w P') b (map f P') T' ->
  sum_product T' (map f P') <= sum_product T (map f P).
Proof.
  intros Hp [Hplan _] [_ Hopt'].
  destruct (plan_reorder P P' T Hp Hplan) as [T'' [Hplan'' <-]].
  now apply Hopt'.
Qed.

Lemma optimal_reorder (P P' : list (list R)) (T T' : list (list R)) :
  Permutation P P' ->
  is_optimal_plan (map w P) b (map f P) T ->
  is_optimal_plan (map w P') b (map f P') T' ->
  sum_product T' (map f P') = sum_product T (map f P).
Proof.
  intros Hp Hopt Hopt'. apply Rle_antisym.
  - now apply optimal_reorder_le.
  - apply optimal_reorder_le; [now symmetry|assumption|assumption].
Qed.

(** An optimal plan for the points in one order gives an optimal plan of the
    same cost for the points in another order. *)
Lemma optimal_reorder_exists (P P' : list (list R)) (T : list (list R)) :
  Permutation P P' ->
  is_optimal_plan (map w P) b (map f P) T ->
  exists T', is_optimal_plan (map w P') b (map f P') T' /\
             sum_product T' (map f P') = sum_product T (map f P).
Proof.
  intros Hp [Hplan Hopt].
  destruct (plan_reorder P P' T Hp Hplan) as [T' [Hplan' Hval]].
  exists T'. split; [|exact Hval]. split; [exact Hplan'|].
  intros X HX.
  destruct (plan_reorder P' P X (Permutation_sym Hp) HX) as [X' [HX' <-]].
  rewrite Hval. now apply Hopt.
Qed.

End Reorder.

Lemma kernel_sum_perm (h : R) (P P' : list (list R)) (y : list R) :
  Permutation P P' -> kernel_sum h P y = kernel_sum h P' y.
Proof.
  intros Hp. unfold kernel_sum. apply sum_perm. now apply Permutation_map.
Qed.

(** The weights of reordered points are the weights of the points,
    reordered. *)
Lemma weights_perm (h : R) (P P' : list (list R)) :
  0 < h -> P <> [] -> Permutation P P' ->
  let w := fun y => kernel_sum h P y / sum (map (kernel_sum h P) P) in
  weights h P = map w P /\ weights h P' = map w P'.
Proof.
  intros Hh Hne Hp w. split; [now apply weights_value|].
  assert (Hne' : P' <> []).
  { intros E. rewrite E in Hp. apply Permutation_sym, Permutation_nil in Hp.
    contradiction. }
  rewrite weights_value by assumption.
  apply map_ext. intros y. unfold w.
  rewrite <- (kernel_sum_perm h P P' y Hp). f_equal.
  transitivity (sum (map (kernel_sum h P) P')).
  - f_equal. apply map_ext. intros z. symmetry. now apply kernel_sum_perm.
  - apply sum_perm. apply Permutation_map. now symmetry.
Qed.

Lemma uniform_weights_map (n : nat) (P : list (list R)) :
  length P = n -> uniform_weights P = map (fun _ => 1 / INR n) P.
Proof.
  intros <-. unfold uniform_weights. now rewrite map_const.
Qed.

(** Transposition of an optimal plan. *)
Lemma sum_product_transposed (a b : list R) (T C : list (list R)) :
  length T = length a -> Forall (fun row => length row = length b) T ->
  length C = length a -> Forall (fun row => length row = length b) C ->
  sum_product (transpose (length b) T) (transpose (length b) C) = sum_product T C.
Proof.
  intros HT HTm HC HCm.
  destruct (transpose_shape (length b) T) as [HtT HtTn]. rewrite HT in HtTn.
  destruct (transpose_shape (length b) C) as [HtC HtCn]. rewrite HC in HtCn.
  rewrite (sum_product_index (length b) (length a)
             (transpose (length b) T) (transpose (length b) C)) by assumption.
  rewrite (sum_product_index (length a) (length b) T C) by assumption.
  rewrite sum_swap.
  apply f_equal, map_ext_in. intros i Hi. apply in_seq in Hi.
  apply f_equal, map_ext_in. intros j Hj. apply in_seq in Hj.
  rewrite !nth_transpose by lia. reflexivity.
Qed.

Lemma transpose_optimal (a b : list R) (C T : list (list R)) :
  length C = length a ->
  Forall (fun row => length row = length b) C ->
  is_optimal_plan a b C T ->
  is_optimal_plan b a (transpose (length b) C) (transpose (length b) T).
Proof.
  intros HC HCm [Hplan Hopt]. split; [now apply transpose_is_plan|].
  intros X HX.
  assert (HpX := transpose_is_plan b a X HX).
  destruct Hplan as [HT [HTm _]]. destruct HX as [HXl [HXm _]].
  rewrite (sum_product_transposed a b T C) by assumption.
  rewrite <- (sum_product_transpose (length a) (length b) X C) by assumption.
  now apply Hopt.
Qed.

Lemma optimal_value_unique (a b : list R) (C T T' : list (list R)) :
  is_optimal_plan a b C T -> is_optimal_plan a b C T' ->
  sum_product T' C = sum_product T C.
Proof.
  intros [Hplan Hopt] [Hplan' Hopt']. apply Rle_antisym; auto.
Qed.

(** The optimal value of the transport problem between two weighted point
    sets does not depend on the order of the points. *)
Lemma optimal_value_reorder (a1x a1y a2x a2y : R) (wa wb : list R -> R)
      (P1 P1' P2 P2' : list (list R)) (T T' : list (list R)) :
  Permutation P1 P1' -> Permutation P2 P2' ->
  is_optimal_plan (map wa P1) (map wb P2) (cost_of a1x a1y a2x a2y P1 P2) T ->
  is_optimal_plan (map wa P1') (map wb P2') (cost_of a1x a1y a2x a2y P1' P2') T' ->
  sum_product T' (cost_of a1x a1y a2x a2y P1' P2') =
  sum_product T (cost_of a1x a1y a2x a2y P1 P2).
Proof.
  intros Hp1 Hp2 Hopt Hopt'.
  (* the first set *)
  destruct (optimal_reorder_exists wa (fun p => map (periodic_cost a1x a1y a2x a2y p) P2)
              (map wb P2) P1 P1' T Hp1 Hopt) as [T1 [Hopt1 Hval1]].
  change (map (fun p => map (periodic_cost a1x a1y a2x a2y p) P2) P1')
    with (cost_of a1x a1y a2x a2y P1' P2) in Hopt1, Hval1.
  change (map (fun p => map (periodic_cost a1x a1y a2x a2y p) P2) P1)
    with (cost_of a1x a1y a2x a2y P1 P2) in Hval1.
  (* across the diagonal *)
  destruct (cost_of_shape a1x a1y a2x a2y P1' P2) as [Hr1 Hc1].
  assert (Ht1 := transpose_optimal (map wa P1') (map wb P2)
                   (cost_of a1x a1y a2x a2y P1' P2) T1).
  rewrite !length_map, <- cost_of_transpose in Ht1.
  specialize (Ht1 Hr1 Hc1 Hopt1).
  assert (Hv1 : sum_product (transpose (length P2) T1) (cost_of a1x a1y a2x a2y P2 P1') =
                sum_product T1 (cost_of a1x a1y a2x a2y P1' P2)).
  { pose proof Hopt1 as [[HTl [HTm _]] _].
    rewrite (cost_of_transpose a1x a1y a2x a2y P1' P2).
    rewrite <- (length_map wb P2).
    apply (sum_product_transposed (map wa P1') (map wb P2));
      rewrite ?length_map in *; assumption. }
  (* the second set *)
  destruct (optimal_reorder_exists wb (fun p => map (periodic_cost a1x a1y a2x a2y p) P1')
              (map wa P1') P2 P2' (transpose (length P2) T1) Hp2 Ht1)
    as [T2 [Hopt2 Hval2]].
  change (map (fun p => map (periodic_cost a1x a1y a2x a2y p) P1') P2')
    with (cost_of a1x a1y a2x a2y P2' P1') in Hopt2, Hval2.
  change (map (fun p => map (periodic_cost a1x a1y a2x a2y p) P1') P2)
    with (cost_of a1x a1y a2x a2y P2 P1') in Hval2.
  (* the primed plan, across the diagonal *)
  destruct (cost_of_shape a1x a1y a2x a2y P1' P2') as [Hr' Hc'].
  assert (Ht' := transpose_optimal (map wa P1') (map wb P2')
                   (cost_of a1x a1y a2x a2y P1' P2') T').
  rewrite !length_map, <- cost_of_transpose in Ht'.
  specialize (Ht' Hr' Hc' Hopt').
  assert (Hv' : sum_product (transpose (length P2') T') (cost_of a1x a1y a2x a2y P2' P1') =
                sum_product T' (cost_of a1x a1y a2x a2y P1' P2')).
  { pose proof Hopt' as [[HTl [HTm _]] _].
    rewrite (cost_of_transpose a1x a1y a2x a2y P1' P2').
    rewrite <- (length_map wb P2').
    apply (sum_product_transposed (map wa P1') (map wb P2'));
      rewrite ?length_map in *; assumption. }
  rewrite <- Hv', (optimal_value_unique _ _ _ _ _ Hopt2 Ht'), Hval2, Hv1, Hval1.
  reflexivity.
Qed.

Lemma valid_points_perm (P P' : list (list R)) :
  valid_points P -> Permutation P P' -> valid_points P'.
Proof.
  intros [Hne Hw] Hp. split.
  - intros E. rewrite E in Hp. apply Permutation_sym, Permutation_nil in Hp.
    contradiction.
  - intros p Hin. apply Hw. now apply (Permutation_in p (Permutation_sym Hp)).
Qed.

(** X20.  The order of the points within either array does not matter: with a
    solver that returns optimal plans, both distances of a call are unchanged
    when the points of the first array and the points of the second array are
    reordered. *)
Theorem distance_reorder :
  forall (pot : POT) (a1x a1y a2x a2y : R) (P1 P1' P2 P2' : list (list R))
         (bandwidth : option R) (d du d' du' : R) (T Tu T' Tu' : list (list R)),
    valid_points P1 -> valid_points P2 ->
    Permutation P1 P1' -> Permutation P2 P2' ->
    calculate_distance (metric_of a1x a1y a2x a2y) (finite P1) (finite P2) bandwidth
      = Ok (d, T, du, Tu) ->
    calculate_distance (metric_of a1x a1y a2x a2y) (finite P1') (finite P2') bandwidth
      = Ok (d', T', du', Tu') ->
    let h := effective_bandwidth a1x a1y P1 bandwidth in
    let C := cost_of a1x a1y a2x a2y P1 P2 in
    let C' := cost_of a1x a1y a2x a2y P1' P2' in
    (is_optimal_plan (weights h P1) (weights h P2) C T ->
     is_optimal_plan (weights h P1') (weights h P2') C' T' ->
     d' = d) /\
    (is_optimal_plan (uniform_weights P1) (uniform_weights P2) C Tu ->
     is_optimal_plan (uniform_weights P1') (uniform_weights P2') C' Tu' ->
     du' = du).
Proof.
  intros pot a1x a1y a2x a2y P1 P1' P2 P2' bw d du d' du' T Tu T' Tu'
         Hv1 Hv2 Hp1 Hp2 Hcall Hcall' h C C'.
  assert (Hv1' := valid_points_perm _ _ Hv1 Hp1).
  assert (Hv2' := valid_points_perm _ _ Hv2 Hp2).
  destruct (calculate_distance_inv a1x a1y a2x a2y P1 P2 bw d du T Tu Hv1 Hv2 Hcall)
    as [Hh [_ [_ [-> ->]]]].
  destruct (calculate_distance_inv a1x a1y a2x a2y P1' P2' bw d' du' T' Tu' Hv1' Hv2' Hcall')
    as [_ [_ [_ [-> ->]]]].
  fold h in Hh. fold C C'.
  destruct Hv1 as [Hne1 _]. destruct Hv2 as [Hne2 _].
  split.
  - intros Hopt Hopt'.
    destruct (weights_perm h P1 P1' Hh Hne1 Hp1) as [E1 E1'].
    destruct (weights_perm h P2 P2' Hh Hne2 Hp2) as [E2 E2'].
    cbv zeta in E1, E1', E2, E2'.
    rewrite E1, E2 in Hopt. rewrite E1', E2' in Hopt'.
    exact (optimal_value_reorder a1x a1y a2x a2y _ _ P1 P1' P2 P2' T T'
             Hp1 Hp2 Hopt Hopt').
  - intros Hopt Hopt'.
    rewrite (uniform_weights_map (length P1) P1 eq_refl),
            (uniform_weights_map (length P2) P2 eq_refl) in Hopt.
    rewrite (uniform_weights_map (length P1) P1'),
            (uniform_weights_map (length P2) P2') in Hopt'
      by (symmetry; now apply Permutation_length).
    exact (optimal_value_reorder a1x a1y a2x a2y _ _ P1 P1' P2 P2' Tu Tu'
             Hp1 Hp2 Hopt Hopt').
Qed.

Lemma distance_reorder_witness :
  exists d T du Tu d' T' du' Tu',
    @calculate_distance pot_product (metric_of 1 0 0 1)
       (finite [[0; 0]; [1 / 2; 0]]) (finite [[1; 2]]) None = Ok (d, T, du, Tu) /\
    @calculate_distance pot_product (metric_of 1 0 0 1)
       (finite [[1 / 2; 0]; [0; 0]]) (finite [[1; 2]]) None = Ok (d', T', du', Tu') /\
    d' = d /\ du' = du.
Proof.
  assert (HvA : valid_points [[0; 0]; [1 / 2; 0]])
    by (split; [discriminate|]; intros p [<-|[<-|[]]]; reflexivity).
  assert (HvA' : valid_points [[1 / 2; 0]; [0; 0]])
    by (split; [discriminate|]; intros p [<-|[<-|[]]]; reflexivity).
  assert (HvB : valid_points [[1; 2]])
    by (split; [discriminate|]; intros p [<-|[]]; reflexivity).
  assert (Hh : 0 < effective_bandwidth 1 0 [[0; 0]; [1 / 2; 0]] None)
    by (apply default_bandwidth_pos; [left; lra|discriminate]).
  assert (Hh' : 0 < effective_bandwidth 1 0 [[1 / 2; 0]; [0; 0]] None)
    by (apply default_bandwidth_pos; [left; lra|discriminate]).
  pose proof (calculate_distance_product 1 0 0 1 _ _ None HvA HvB Hh) as Hcall.
  pose proof (calculate_distance_product 1 0 0 1 _ _ None HvA' HvB Hh') as Hcall'.
  cbv zeta in Hcall, Hcall'.
  do 8 eexists. split; [exact Hcall|]. split; [exact Hcall'|].
  destruct (distance_reorder pot_product 1 0 0 1
              [[0; 0]; [1 / 2; 0]] [[1 / 2; 0]; [0; 0]] [[1; 2]] [[1; 2]] None
              _ _ _ _ _ _ _ _ HvA HvB (perm_swap _ _ _) (Permutation_refl _)
              Hcall Hcall') as [Hw Hu].
  split.
  - apply Hw; (apply forced_plan_optimal; [|right; now rewrite length_weights]);
      apply product_plan; apply weights_distribution; discriminate.
  - apply Hu; (apply forced_plan_optimal; [|right; reflexivity]);
      apply product_plan; apply uniform_distribution; discriminate.
Defined.

End ReorderFacts.

(** ** The distance of one structure *)

Module ScriptFacts.
Import Numpy RealArrays Periodic VoronoiAnalyzer WassersteinMetric.
Import PeriodicFacts VoronoiFacts WassersteinFacts.
Import CellFacts InterpolationFacts PrimitiveCellFacts DensityFacts.
Import CalculateDistances.

Lemma finite_valid (P : list (list R)) :
  (size (finite P) =? 0)%nat = false -> width_is 2 (finite P) = true ->
  valid_points P.
Proof.
  intros Hs Hw. split.
  - intros ->. discriminate.
  - intros p Hp. unfold width_is in Hw. rewrite forallb_forall in Hw.
    specialize (Hw (map Fin p)).
    rewrite length_map in Hw. apply Nat.eqb_eq, Hw.
    unfold finite. apply in_map_iff. now exists p.
Qed.

(** A call that returns was made on valid point sets. *)
Lemma calculate_distance_valid {pot : POT} (self : metric) (P1 P2 : list (list R))
      (bandwidth : option R) (r : R * list (list R) * R * list (list R)) :
  calculate_distance self (finite P1) (finite P2) bandwidth = Ok r ->
  valid_points P1 /\ valid_points P2.
Proof.
  unfold calculate_distance.
  destruct (size (finite P1) =? 0)%nat eqn:Hs1; [discriminate|].
  destruct (size (finite P2) =? 0)%nat eqn:Hs2; [discriminate|].
  cbn [orb raise_if py_bind].
  destruct (width_is 2 (finite P1)) eqn:Hw1; [|discriminate].
  destruct (width_is 2 (finite P2)) eqn:Hw2; [|discriminate].
  intros _. split; now apply finite_valid.
Qed.

Lemma init_finite (lattice : list (list R)) (self : metric) :
  init (finite lattice) = Ok self ->
  exists a1x a1y a2x a2y,
    lattice = [[a1x; a1y]; [a2x; a2y]] /\ self = metric_of a1x a1y a2x a2y.
Proof.
  intros Hinit.
  destruct (init_inv _ _ Hinit) as [_ [a1 [a2 [E [H1 H2]]]]].
  destruct lattice as [|r1 [|r2 [|? ?]]]; try discriminate.
  inversion E; subst. rewrite length_map in H1, H2.
  two_entries r1 H1. two_entries r2 H2.
  exists x, y, x0, y0. split; [reflexivity|].
  unfold finite in Hinit. cbn [map] in Hinit.
  rewrite init_metric_of in Hinit. now inversion Hinit.
Qed.

Section Pipeline.
Context {scipy : SciPy} {pot : POT}.

(** What a distance returned by the script is. *)
Lemma process_structure_inv (structure reference : atoms)
      (lattice_vectors : list (list R)) (distance : R) :
  process_structure structure reference lattice_vectors = Some distance ->
  exists a1x a1y a2x a2y pristine_cell structure_points reference_points query_points
         padded_structure padded_reference P U cu cr T du Tu,
    lattice_vectors = [[a1x; a1y]; [a2x; a2y]] /\
    get_primitive_voronoi_cell lattice_vectors = Ok (Some pristine_cell) /\
    positions_of_type structure 0 = Some structure_points /\
    positions_of_type reference 0 = Some reference_points /\
    positions_of_type structure 3 = Some query_points /\
    pad_periodic_image structure_points (cell_2x2 structure) 2 2 = Some padded_structure /\
    pad_periodic_image reference_points (cell_2x2 reference) 2 2 = Some padded_reference /\
    interpolate_displacements padded_structure padded_reference query_points pristine_cell
      = Some (P, U, cu, cr) /\
    calculate_distance (metric_of a1x a1y a2x a2y) (finite P) (finite U) None
      = Ok (distance, T, du, Tu).
Proof.
  unfold process_structure.
  destruct (init (finite lattice_vectors)) as [self|e] eqn:Hinit; [|discriminate].
  destruct (init_finite _ _ Hinit) as [a1x [a1y [a2x [a2y [HL ->]]]]].
  destruct (get_primitive_voronoi_cell lattice_vectors) as [[cell0|]|e] eqn:Hcell;
    try discriminate.
  destruct (positions_of_type structure 0) as [sp|] eqn:Hsp; [|discriminate].
  destruct (positions_of_type reference 0) as [rp|] eqn:Hrp; [|discriminate].
  destruct (positions_of_type structure 3) as [qp|] eqn:Hqp; [|discriminate].
  destruct (pad_periodic_image sp _ 2 2) as [ps|] eqn:Hps; [|discriminate].
  destruct (pad_periodic_image rp _ 2 2) as [pr|] eqn:Hpr; [|discriminate].
  destruct (interpolate_displacements ps pr qp cell0) as [[[[P U] cu] cr]|] eqn:Hint;
    [|discriminate].
  destruct (calculate_distance _ (finite P) (finite U) None) as [[[[d T] du] Tu]|e] eqn:Hd;
    [|discriminate].
  intros E. inversion E; subst d.
  exists a1x, a1y, a2x, a2y, cell0, sp, rp, qp, ps, pr, P, U, cu, cr, T, du, Tu.
  repeat split; assumption.
Qed.

End Pipeline.

(** X21.  [process_structure] gives no distance when the primitive cell cannot
    be built (the NameError that escapes the static method is caught here, or
    the cell is [None]), when the structure has no atom of type 3 to
    interpolate at, and when it has no atom of type 0 to triangulate. *)
Theorem process_structure_none :
  forall (scipy : SciPy) (pot : POT) (structure reference : atoms)
         (lattice_vectors : list (list R)),
    (exists e, get_primitive_voronoi_cell lattice_vectors = Raise e) \/
    get_primitive_voronoi_cell lattice_vectors = Ok None \/
    positions_of_type structure 3 = Some [] \/
    positions_of_type structure 0 = Some [] ->
    process_structure structure reference lattice_vectors = None.
Proof.
  intros scipy pot structure reference L Hbad.
  destruct (process_structure structure reference L) as [d|] eqn:Hcall; [|reflexivity].
  exfalso.
  destruct (process_structure_inv _ _ _ _ Hcall)
    as (a1x & a1y & a2x & a2y & cell0 & sp & rp & qp & ps & pr & P & U & cu & cr & T & du & Tu
        & HL & Hcell & Hsp & Hrp & Hqp & Hps & Hpr & Hint & Hd).
  destruct Hbad as [[e He]|[Hn|[Hq|Hs]]]; try congruence.
  - assert (qp = []) by congruence. subst qp.
    destruct (interpolate_displacements_prepared _ _ _ _ _ Hint) as [ctx Hctx].
    destruct (prepare_inv _ _ _ _ _ Hctx) as (_ & _ & Hsize & _). discriminate.
  - assert (sp = []) by congruence. subst sp. discriminate.
Qed.

Lemma process_structure_none_witness :
  @process_structure scipy_stub pot_product example_atoms example_atoms [[1; 0]; [0; 1]]
  = None.
Proof.
  apply (process_structure_none scipy_stub pot_product).
  left. exists NameError. reflexivity.
Defined.

(** The distances of a call that returns are not negative, with a solver
    that returns transport plans. *)
Lemma calculate_distance_nonneg {pot : POT} (a1x a1y a2x a2y : R)
      (P1 P2 : list (list R)) (bandwidth : option R)
      (d du : R) (T Tu : list (list R)) :
  emd_feasible ->
  calculate_distance (metric_of a1x a1y a2x a2y) (finite P1) (finite P2) bandwidth
    = Ok (d, T, du, Tu) ->
  0 <= d /\ 0 <= du.
Proof.
  intros Hemd Hcall.
  destruct (calculate_distance_valid _ _ _ _ _ Hcall) as [Hv1 Hv2].
  destruct (calculate_distance_inv a1x a1y a2x a2y P1 P2 bandwidth d du T Tu Hv1 Hv2 Hcall)
    as [Hh [HT [HTu [-> ->]]]].
  set (h := effective_bandwidth a1x a1y P1 bandwidth) in *.
  set (C := cost_of a1x a1y a2x a2y P1 P2) in *.
  destruct (cost_of_shape a1x a1y a2x a2y P1 P2) as [Hrows Hcols].
  assert (HC := cost_of_nonneg a1x a1y a2x a2y P1 P2). fold C in HC, Hrows, Hcols.
  destruct Hv1 as [Hne1 _]. destruct Hv2 as [Hne2 _].
  destruct (Hemd (weights h P1) (weights h P2) C)
    as [T0 [HT0 [_ [_ [HTpos _]]]]]; try (now apply weights_distribution);
    try (now rewrite length_weights).
  destruct (Hemd (uniform_weights P1) (uniform_weights P2) C)
    as [Tu0 [HTu0 [_ [_ [HTupos _]]]]]; try (now apply uniform_distribution);
    try (now rewrite length_uniform_weights).
  assert (T0 = T) by congruence. assert (Tu0 = Tu) by congruence. subst.
  split; now apply sum_product_nonneg.
Qed.

(** X22.  With a solver that returns feasible plans, a distance returned by
    [process_structure] is not negative. *)
Theorem process_structure_nonneg :
  forall (scipy : SciPy) (pot : POT),
    emd_feasible ->
    forall (structure reference : atoms) (lattice_vectors : list (list R)) (distance : R),
      process_structure structure reference lattice_vectors = Some distance ->
      0 <= distance.
Proof.
  intros scipy pot Hemd structure reference L d Hcall.
  destruct (process_structure_inv _ _ _ _ Hcall)
    as (a1x & a1y & a2x & a2y & cell0 & sp & rp & qp & ps & pr & P & U & cu & cr & T & du & Tu
        & _ & _ & _ & _ & _ & _ & _ & _ & Hd).
  apply (calculate_distance_nonneg _ _ _ _ _ _ _ _ _ _ _ Hemd Hd).
Qed.

Lemma argmin_from_lt (best_i : nat) (best : R) (i : nat) (x : R) (l : list R) :
  x < best -> argmin_from best_i best i (x :: l) = argmin_from i x (S i) l.
Proof.
  intros H. cbn [argmin_from]. destruct (Rlt_dec x best); [reflexivity|contradiction].
Qed.

Lemma argmin_from_ge (best_i : nat) (best : R) (i : nat) (x : R) (l : list R) :
  best <= x -> argmin_from best_i best i (x :: l) = argmin_from best_i best (S i) l.
Proof.
  intros H. cbn [argmin_from]. destruct (Rlt_dec x best); [lra|reflexivity].
Qed.

(** Evaluation of the script on concrete structures: the nearest site of a
    long array is found one comparison at a time. *)
Ltac crunch_calls :=
  cbv -[Rplus Rminus Rmult Rdiv Rinv Ropp Rlt_dec Rle_dec Rabs sqrt atan PI pow
        IZR INR exp epsilon arctan2 distance norm RealArrays.sum
        _find_voronoi_cell calculate_distance finite metric_of pot_product].

Ltac rows_2d :=
  let p := fresh "p" in
  let H := fresh "H" in
  intros p H; repeat (destruct H as [<-|H]; [reflexivity|]); destruct H.

Ltac real_ineq := cbn [RealArrays.sum fold_right map]; lra.

Ltac step_argmin :=
  repeat first [ rewrite argmin_from_ge by real_ineq
               | rewrite argmin_from_lt by real_ineq ].

Ltac eval_find :=
  match goal with
  | |- context [_find_voronoi_cell ?q ?pts ?tri ?cc] =>
      let Hk := fresh "Hk" in
      let Hv := fresh "Hv" in
      (assert (Hk : nearest_site q pts = 0%nat)
        by (unfold nearest_site, site_distance2;
            cbv -[Rplus Rminus Rmult Rdiv Rinv Ropp Rlt_dec pow IZR argmin_from];
            step_argmin; reflexivity));
      (pose proof (find_voronoi_cell_value q pts ltac:(rows_2d) eq_refl tri cc
                 ltac:(discriminate) ltac:(simpl; lia) ltac:(rows_2d)) as Hv);
      (rewrite Hv, Hk; clear Hk Hv)
  end.

Lemma example_run :
  exists d,
    @process_structure scipy_square pot_product example_atoms example_atoms
                       [[1; 0]; [0; 1]] = Some d.
Proof.
  unfold process_structure.
  change (init (finite [[1; 0]; [0; 1]])) with (Ok (metric_of 1 0 0 1)).
  cbv beta iota.
  crunch_calls. repeat decide_real.
  eval_find. crunch_calls. repeat decide_real.
  eval_find. crunch_calls. repeat decide_real.
  match goal with
  | |- context [calculate_distance _ (finite ?P) (finite ?U) None] =>
      assert (HvP : valid_points P) by (split; [discriminate|rows_2d]);
      assert (HvU : valid_points U) by (split; [discriminate|rows_2d]);
      assert (Hh : 0 < effective_bandwidth 1 0 P None)
        by (apply default_bandwidth_pos; [left; lra|discriminate]);
      pose proof (calculate_distance_product 1 0 0 1 P U None HvP HvU Hh) as Hcall
  end.
  cbv zeta in Hcall. rewrite Hcall. eexists. reflexivity.
Qed.

Lemma process_structure_nonneg_witness :
  exists d,
    @process_structure scipy_square pot_product example_atoms example_atoms
                       [[1; 0]; [0; 1]] = Some d /\
    0 <= d.
Proof.
  destruct example_run as [d Hd]. exists d. split; [exact Hd|].
  exact (process_structure_nonneg scipy_square pot_product pot_product_feasible
           example_atoms example_atoms [[1; 0]; [0; 1]] d Hd).
Defined.

End ScriptFacts.

(** ** The table of processed distances *)

Module TableFacts.
Import Numpy RealArrays WassersteinMetric WassersteinFacts.
Import ReorderFacts.
Import ProcessDistances.

(** ** process_distances *)

(** *** The sort *)

Lemma key_lt_spec (a b : row) :
  key_lt a b = true <->
  (corruption_idx a < corruption_idx b)%Z \/
  (corruption_idx a = corruption_idx b /\ seed a < seed b)%Z.
Proof.
  unfold key_lt. rewrite orb_true_iff, andb_true_iff, !Z.ltb_lt, Z.eqb_eq. tauto.
Qed.

Lemma key_ge_spec (a b : row) :
  key_lt a b = false <->
  (corruption_idx b < corruption_idx a)%Z \/
  (corruption_idx a = corruption_idx b /\ seed b <= seed a)%Z.
Proof.
  rewrite <- not_true_iff_false, key_lt_spec. lia.
Qed.

Lemma insert_sorted_perm (x : row) (l : list row) :
  Permutation (insert_sorted x l) (x :: l).
Proof.
  induction l as [|y l IH]; cbn [insert_sorted]; [reflexivity|].
  destruct (key_lt x y); [reflexivity|].
  rewrite IH. apply perm_swap.
Qed.

Lemma insert_sorted_sorted (x : row) (l : list row) :
  StronglySorted (fun a b => key_lt b a = false) l ->
  StronglySorted (fun a b => key_lt b a = false) (insert_sorted x l).
Proof.
  induction 1 as [|y l Hs IH Hall]; cbn [insert_sorted].
  - repeat constructor.
  - destruct (key_lt x y) eqn:Hxy.
    + constructor; [now constructor|].
      apply key_lt_spec in Hxy.
      constructor; [apply key_ge_spec; lia|].
      rewrite Forall_forall in *. intros z Hz. specialize (Hall z Hz).
      apply key_ge_spec in Hall. apply key_ge_spec. lia.
    + constructor; [exact IH|].
      rewrite Forall_forall in *. intros z Hz.
      apply (Permutation_in _ (insert_sorted_perm x l)) in Hz.
      destruct Hz as [<-|Hz]; [exact Hxy|now apply Hall].
Qed.

Lemma sort_from (l acc : list row) :
  StronglySorted (fun a b => key_lt b a = false) acc ->
  let s := fold_left (fun acc x => insert_sorted x acc) l acc in
  Permutation s (l ++ acc) /\ StronglySorted (fun a b => key_lt b a = false) s.
Proof.
  revert acc. induction l as [|x l IH]; intros acc Hacc; cbn [fold_left app].
  - split; [reflexivity|exact Hacc].
  - destruct (IH (insert_sorted x acc)) as [Hp Hs].
    + now apply insert_sorted_sorted.
    + split; [|exact Hs]. rewrite Hp, insert_sorted_perm.
      symmetry. apply Permutation_middle.
Qed.

Lemma sorted_by_key_spec (l : list row) :
  Permutation (sorted_by_key l) l /\
  StronglySorted (fun a b => key_lt b a = false) (sorted_by_key l).
Proof.
  destruct (sort_from l []) as [Hp Hs]; [constructor|].
  cbv zeta in Hp. rewrite app_nil_r in Hp. split; assumption.
Qed.

(** Two sorted arrangements of the same rows are equal when no two rows
    have the same key. *)
Lemma sorted_unique (l1 l2 : list row) :
  Permutation l1 l2 ->
  StronglySorted (fun a b => key_lt a b = true) l1 ->
  StronglySorted (fun a b => key_lt b a = false) l2 ->
  l2 = l1.
Proof.
  revert l2. induction l1 as [|a l1 IH]; intros l2 Hp H1 H2.
  - now apply Permutation_nil in Hp.
  - destruct l2 as [|b l2].
    { apply Permutation_sym, Permutation_nil in Hp. discriminate. }
    inversion H1 as [|? ? Hs1 Hall1]; subst.
    inversion H2 as [|? ? Hs2 Hall2]; subst.
    rewrite Forall_forall in Hall1, Hall2.
    assert (E : b = a).
    { assert (Hb : In b (a :: l1))
        by (apply (Permutation_in b (Permutation_sym Hp)); now left).
      assert (Ha : In a (b :: l2)) by (apply (Permutation_in a Hp); now left).
      destruct Hb as [E|Hb]; [now symmetry|].
      destruct Ha as [E|Ha]; [exact E|].
      specialize (Hall1 b Hb). specialize (Hall2 a Ha).
      apply key_lt_spec in Hall1. apply key_ge_spec in Hall2. lia. }
    subst b. f_equal. apply IH; [|assumption|assumption].
    now apply Permutation_cons_inv in Hp.
Qed.

(** *** The groups *)

Lemma filter_none {A} (f : A -> bool) (l : list A) :
  (forall x, In x l -> f x = false) -> filter f l = [].
Proof.
  induction l as [|x l IH]; intros Hf; [reflexivity|]. cbn [filter].
  rewrite (Hf x) by now left. apply IH. intros y Hy. apply Hf. now right.
Qed.

Lemma groupby_nil (l : list row) : groupby l = [] -> l = [].
Proof.
  destruct l as [|x l]; [reflexivity|]. cbn [groupby].
  destruct (groupby l) as [|[k g] gs]; [discriminate|].
  destruct (_ =? _)%Z; discriminate.
Qed.

(** On rows sorted by corruption index the groups are the classes of the
    rows with one index, by increasing index. *)
Lemma groupby_spec (l : list row) :
  StronglySorted (fun a b => (corruption_idx a <= corruption_idx b)%Z) l ->
  StronglySorted Z.lt (map fst (groupby l)) /\
  (forall k g, In (k, g) (groupby l) ->
     g <> [] /\ g = filter (fun r => (corruption_idx r =? k)%Z) l) /\
  (forall r, In r l -> In (corruption_idx r) (map fst (groupby l))).
Proof.
  induction 1 as [|x l Hs IH Hall]; cbn [groupby].
  - repeat split; try constructor; intros; contradiction.
  - destruct IH as [Hkeys [Hgroups Hcover]].
    rewrite Forall_forall in Hall.
    destruct (groupby l) as [|[k g] gs] eqn:Hg.
    + apply groupby_nil in Hg. subst l. cbn.
      repeat split.
      * repeat constructor.
      * destruct H as [E|[]]. inversion E; subst. discriminate.
      * destruct H as [E|[]]. inversion E; subst. cbn.
        now rewrite Z.eqb_refl.
      * intros r [<-|[]]. now left.
    + assert (Hk : g <> [] /\ g = filter (fun r => (corruption_idx r =? k)%Z) l)
        by (apply Hgroups; now left).
      assert (Hmin : forall r, In r l -> (k <= corruption_idx r)%Z).
      { intros r Hr. specialize (Hcover r Hr). cbn [map fst] in Hcover.
        destruct Hcover as [<-|Hin]; [lia|].
        inversion Hkeys as [|? ? _ Hlt]; subst.
        rewrite Forall_forall in Hlt. specialize (Hlt _ Hin). lia. }
      assert (Hxk : (corruption_idx x <= k)%Z).
      { destruct Hk as [Hne Hgk]. destruct g as [|r g']; [congruence|].
        assert (Hr : In r (filter (fun r => (corruption_idx r =? k)%Z) l))
          by (rewrite <- Hgk; now left).
        apply filter_In in Hr as [Hr Ek]. apply Z.eqb_eq in Ek.
        specialize (Hall r Hr). lia. }
      destruct (corruption_idx x =? k)%Z eqn:Ex.
      * apply Z.eqb_eq in Ex. cbn [map fst]. repeat split.
        -- exact Hkeys.
        -- destruct H as [E|Hin].
           ++ inversion E; subst. discriminate.
           ++ apply (Hgroups k0 g0). now right.
        -- destruct H as [E|Hin].
           ++ inversion E; subst. cbn [filter]. rewrite Z.eqb_refl.
              f_equal. apply Hk.
           ++ cbn [filter].
              assert (Hne : (k < k0)%Z).
              { inversion Hkeys as [|? ? _ Hlt]; subst.
                rewrite Forall_forall in Hlt. apply Hlt.
                apply in_map_iff. now exists (k0, g0). }
              replace (corruption_idx x =? k0)%Z with false
                by (symmetry; apply Z.eqb_neq; lia).
              apply (Hgroups k0 g0). now right.
        -- intros r [<-|Hr]; [left; now symmetry|]. now apply Hcover.
      * apply Z.eqb_neq in Ex. cbn [map fst]. repeat split.
        -- constructor; [exact Hkeys|].
           constructor; [cbn; lia|].
           inversion Hkeys as [|? ? _ Hlt]; subst.
           rewrite Forall_forall in *. intros k' Hk'. specialize (Hlt k' Hk'). lia.
        -- destruct H as [E|Hin].
           ++ inversion E; subst. discriminate.
           ++ now apply (Hgroups k0 g0).
        -- destruct H as [E|Hin].
           ++ inversion E; subst. cbn [filter]. rewrite Z.eqb_refl. f_equal.
              symmetry. apply filter_none.
              intros r Hr. apply Z.eqb_neq. specialize (Hmin r Hr). lia.
           ++ cbn [filter].
              assert (Hne : (k <= k0)%Z).
              { destruct Hin as [E|Hin]; [inversion E; lia|].
                inversion Hkeys as [|? ? _ Hlt]; subst.
                rewrite Forall_forall in Hlt.
                assert (k < k0)%Z; [|lia]. apply Hlt.
                apply in_map_iff. now exists (k0, g0). }
              replace (corruption_idx x =? k0)%Z with false
                by (symmetry; apply Z.eqb_neq; lia).
              now apply (Hgroups k0 g0).
        -- intros r [<-|Hr]; [now left|]. right. now apply Hcover.
Qed.

(** *** The dictionary *)

Lemma dict_get_none (k : Z) (d : dict) :
  dict_get k d = None <-> ~ In k (map fst d).
Proof.
  induction d as [|[k' vs] d IH]; cbn [dict_get map fst In]; [tauto|].
  destruct (k =? k')%Z eqn:E.
  - apply Z.eqb_eq in E. subst. split; [discriminate|tauto].
  - apply Z.eqb_neq in E. rewrite IH. split; [intros H [?|?]; congruence|tauto].
Qed.

Lemma rows_of_append_same (k : Z) (v : row) (d : dict) :
  rows_of k (dict_append k v d) = rows_of k d ++ [v].
Proof.
  unfold rows_of. induction d as [|[k' vs] d IH]; cbn [dict_append dict_get].
  - now rewrite Z.eqb_refl.
  - destruct (k =? k')%Z eqn:E; cbn [dict_get]; rewrite E; [reflexivity|exact IH].
Qed.

Lemma rows_of_append_other (k k' : Z) (v : row) (d : dict) :
  k' <> k -> rows_of k' (dict_append k v d) = rows_of k' d.
Proof.
  intros Hne. unfold rows_of.
  induction d as [|[k0 vs] d IH]; cbn [dict_append dict_get].
  - replace (k' =? k)%Z with false by (symmetry; now apply Z.eqb_neq). reflexivity.
  - destruct (k =? k0)%Z eqn:E; cbn [dict_get].
    + apply Z.eqb_eq in E. subst k0.
      replace (k' =? k)%Z with false by (symmetry; now apply Z.eqb_neq). reflexivity.
    + destruct (k' =? k0)%Z; [reflexivity|exact IH].
Qed.

Lemma keys_append (k : Z) (v : row) (d : dict) :
  map fst (dict_append k v d) =
  if in_dec Z.eq_dec k (map fst d) then map fst d else map fst d ++ [k].
Proof.
  induction d as [|[k' vs] d IH]; cbn [dict_append map fst]; [reflexivity|].
  destruct (k =? k')%Z eqn:E.
  - apply Z.eqb_eq in E. subst k'. cbn [map fst]. clear IH.
    destruct (in_dec Z.eq_dec k (k :: map fst d)) as [_|Hn]; [reflexivity|].
    exfalso. apply Hn. now left.
  - apply Z.eqb_neq in E. cbn [map fst]. rewrite IH.
    destruct (in_dec Z.eq_dec k (map fst d)) as [Hi|Hn];
      destruct (in_dec Z.eq_dec k (k' :: map fst d)) as [Hi'|Hn']; try reflexivity.
    + exfalso. apply Hn'. now right.
    + exfalso. destruct Hi' as [?|?]; [congruence|contradiction].
Qed.

Lemma rows_of_touch (k k' : Z) (d : dict) :
  rows_of k' (dict_touch k d) = rows_of k' d.
Proof.
  unfold dict_touch. destruct (dict_get k d) as [vs|] eqn:E; [reflexivity|].
  unfold rows_of. induction d as [|[k0 vs] d IH]; cbn [app dict_get].
  - destruct (k' =? k)%Z; reflexivity.
  - cbn [dict_get] in E. destruct (k =? k0)%Z; [discriminate|].
    destruct (k' =? k0)%Z; [reflexivity|]. now apply IH.
Qed.

Lemma keys_touch (k : Z) (d : dict) :
  map fst (dict_touch k d) =
  if in_dec Z.eq_dec k (map fst d) then map fst d else map fst d ++ [k].
Proof.
  unfold dict_touch. destruct (dict_get k d) as [vs|] eqn:E.
  - destruct (in_dec _ _ _) as [_|Hn]; [reflexivity|].
    apply dict_get_none in Hn. congruence.
  - apply dict_get_none in E.
    destruct (in_dec _ _ _) as [Hi|_]; [contradiction|].
    now rewrite map_app.
Qed.

Lemma flat_map_same {A B : Type} (f g : A -> list B) (l : list A) :
  (forall a, In a l -> f a = g a) -> flat_map f l = flat_map g l.
Proof.
  induction l as [|a l IH]; intros H; [reflexivity|].
  cbn [flat_map]. rewrite (H a) by now left.
  rewrite IH; [reflexivity|]. intros b Hb. apply H. now right.
Qed.

Lemma flat_rows (d : dict) :
  NoDup (map fst d) ->
  flat_map snd d = flat_map (fun k => rows_of k d) (map fst d).
Proof.
  induction d as [|[k vs] d IH]; intros Hnd; [reflexivity|].
  cbn [map fst] in Hnd. inversion Hnd as [|? ? Hk Hnd']; subst.
  cbn [flat_map map fst snd]. unfold rows_of at 1. cbn [dict_get].
  rewrite Z.eqb_refl. f_equal. rewrite IH by assumption.
  apply flat_map_same. intros k' Hk'. unfold rows_of. cbn [dict_get].
  replace (k' =? k)%Z with false; [reflexivity|].
  symmetry. apply Z.eqb_neq. intros ->. contradiction.
Qed.

(** *** The first loop *)

Lemma first_loop (gs : list (Z * list row)) :
  forall d,
    NoDup (map fst gs) ->
    (forall k, In k (map fst gs) -> ~ In k (map fst d)) ->
    (forall k g, In (k, g) gs -> g <> []) ->
    exists d',
      fold_left group_step gs (Some d) = Some d' /\
      map fst d' = map fst d ++ map fst gs /\
      (forall k, ~ In k (map fst gs) -> rows_of k d' = rows_of k d) /\
      (forall k g, In (k, g) gs ->
         exists r, In r g /\
           rows_of k d' = [{| seed := seed r; corruption_idx := corruption_idx r;
                              dist := mean (map dist g) |}]).
Proof.
  induction gs as [|[k g] gs IH]; intros d Hnd Hnew Hne; cbn [fold_left].
  - exists d. cbn. rewrite app_nil_r. repeat split; auto. intros ? ? [].
  - cbn [map fst] in Hnd. inversion Hnd as [|? ? Hk Hnd']; subst.
    destruct g as [|r g']; [exfalso; apply (Hne k []); [now left|reflexivity]|].
    cbn [group_step snd fst average_over_relaxations].
    set (avg := {| seed := seed r; corruption_idx := corruption_idx r;
                   dist := mean (map dist (r :: g')) |}).
    assert (Hkd : ~ In k (map fst d)) by (apply Hnew; now left).
    destruct (IH (dict_append k avg d)) as [d' [Hfold [Hkeys [Hold Hrows]]]].
    + exact Hnd'.
    + intros k' Hk'. rewrite keys_append.
      destruct (in_dec _ _ _) as [Hi|_]; [contradiction|].
      rewrite in_app_iff. intros [Hin|[<-|[]]]; [|contradiction].
      apply (Hnew k'); [now right|exact Hin].
    + intros k' g0 Hin. apply (Hne k' g0). now right.
    + exists d'. split; [exact Hfold|]. split; [|split].
      * rewrite Hkeys, keys_append.
        destruct (in_dec _ _ _) as [Hi|_]; [contradiction|].
        cbn [map fst]. now rewrite <- app_assoc.
      * intros k' Hk'. cbn [map fst In] in Hk'.
        rewrite Hold by tauto. apply rows_of_append_other. intros ->. tauto.
      * intros k' g0 [E|Hin].
        -- inversion E; subst k' g0. exists r. split; [now left|].
           rewrite Hold by exact Hk. rewrite rows_of_append_same.
           unfold rows_of. apply dict_get_none in Hkd. now rewrite Hkd.
        -- now apply Hrows.
Qed.

(** *** The second loop *)

Section SecondLoop.
Variable iteration_order : list Z -> list Z.
Hypothesis iteration_perm : forall s, Permutation (iteration_order s) s.

Lemma iteration_order_nil : iteration_order [] = [].
Proof. apply Permutation_nil, Permutation_sym, iteration_perm. Qed.

Lemma append_all (c : Z) (mk : Z -> row) (ss : list Z) (d : dict) :
  In c (map fst d) ->
  let d' := fold_left (fun acc s => dict_append c (mk s) acc) ss d in
  map fst d' = map fst d /\
  rows_of c d' = rows_of c d ++ map mk ss /\
  (forall c', c' <> c -> rows_of c' d' = rows_of c' d).
Proof.
  revert d. induction ss as [|s ss IH]; intros d Hc; cbn [fold_left map].
  - rewrite app_nil_r. auto.
  - destruct (IH (dict_append c (mk s) d)) as [Hk [Hr Ho]].
    + rewrite keys_append. destruct (in_dec _ _ _); [assumption|contradiction].
    + cbv zeta in *. rewrite Hk, Hr, keys_append, rows_of_append_same, <- app_assoc.
      destruct (in_dec _ _ _); [|contradiction].
      repeat split; auto.
      intros c' Hc'. rewrite Ho by assumption. now apply rows_of_append_other.
Qed.

Lemma fill_missing_spec (d : dict) (c : Z) :
  map fst (fill_missing iteration_order d c) =
    (if in_dec Z.eq_dec c (map fst d) then map fst d else map fst d ++ [c]) /\
  rows_of c (fill_missing iteration_order d c) =
    filled_rows iteration_order c (rows_of c d) /\
  (forall c', c' <> c ->
     rows_of c' (fill_missing iteration_order d c) = rows_of c' d).
Proof.
  unfold fill_missing, filled_rows.
  rewrite (rows_of_touch c c d).
  destruct (append_all c
              (fun s => {| seed := s; corruption_idx := c;
                           dist := mean (map dist (rows_of c d)) |})
              (iteration_order (missing_seeds (rows_of c d)))
              (dict_touch c d)) as [Hk [Hr Ho]].
  { rewrite keys_touch. destruct (in_dec _ _ _) as [Hi|_]; [exact Hi|].
    apply in_app_iff. right. now left. }
  cbv zeta in Hk, Hr, Ho.
  rewrite (rows_of_touch c c d) in Hr. rewrite keys_touch in Hk.
  destruct (missing_seeds (rows_of c d)) as [|s ss] eqn:Hm.
  - rewrite iteration_order_nil in *. cbn [fold_left map] in *.
    split; [apply keys_touch|]. split; [exact Hr|].
    intros c' _. apply rows_of_touch.
  - split; [exact Hk|]. split; [exact Hr|].
    intros c' Hc'. rewrite Ho by assumption. apply rows_of_touch.
Qed.

Lemma second_loop (cs : list Z) :
  forall d,
    NoDup cs -> NoDup (map fst d) ->
    let d' := fold_left (fill_missing iteration_order) cs d in
    NoDup (map fst d') /\
    (forall k, In k (map fst d') <-> In k (map fst d) \/ In k cs) /\
    (forall c, In c cs ->
       rows_of c d' = filled_rows iteration_order c (rows_of c d)) /\
    (forall c, ~ In c cs -> rows_of c d' = rows_of c d).
Proof.
  induction cs as [|c cs IH]; intros d Hcs Hd; cbn [fold_left].
  - cbv zeta. split; [exact Hd|]. split; [intros k; cbn [In]; tauto|].
    split; [intros c []|reflexivity].
  - inversion Hcs as [|? ? Hc Hcs']; subst.
    destruct (fill_missing_spec d c) as [Hk [Hr Ho]].
    assert (Hnd : NoDup (map fst (fill_missing iteration_order d c))).
    { rewrite Hk. destruct (in_dec _ _ _) as [Hi|Hn]; [exact Hd|].
      apply NoDup_app; [exact Hd|repeat constructor; intros []|].
      intros k Hin [<-|[]]. contradiction. }
    destruct (IH (fill_missing iteration_order d c) Hcs' Hnd)
      as [Hnd' [Hkeys [Hin Hout]]].
    cbv zeta in *. split; [exact Hnd'|]. split; [|split].
    + intros k. rewrite Hkeys, Hk. cbn [In].
      destruct (in_dec _ _ _) as [Hi|Hn].
      * split; [tauto|]. intros [H|[<-|H]]; tauto.
      * rewrite in_app_iff. cbn [In]. tauto.
    + intros c' [<-|Hc'].
      * rewrite Hout by exact Hc. exact Hr.
      * rewrite Hin by exact Hc'. f_equal. apply Ho. intros ->. contradiction.
    + intros c' Hc'. cbn [In] in Hc'.
      rewrite Hout by tauto. apply Ho. intros ->. tauto.
Qed.

End SecondLoop.

(** *** The mean *)

Lemma forallb_perm {A} (f : A -> bool) (l l' : list A) :
  Permutation l l' -> forallb f l = forallb f l'.
Proof.
  induction 1 as [|x l l' _ IH|x y l|l l' l'' _ IH1 _ IH2]; cbn [forallb].
  - reflexivity.
  - now rewrite IH.
  - destruct (f x), (f y); reflexivity.
  - congruence.
Qed.

Lemma mean_perm (l l' : list num) : Permutation l l' -> mean l = mean l'.
Proof.
  intros Hp. unfold mean.
  rewrite (forallb_perm is_finite l l' Hp).
  rewrite (sum_perm (map value l) (map value l')) by now apply Permutation_map.
  rewrite (Permutation_length Hp).
  destruct l as [|a l]; destruct l' as [|a' l']; try reflexivity.
  - apply Permutation_nil in Hp. discriminate.
  - apply Permutation_sym, Permutation_nil in Hp. discriminate.
Qed.

Lemma mean_of_mean (l : list num) : mean [mean l] = mean l.
Proof.
  destruct l as [|a l]; [reflexivity|].
  unfold mean. destruct (forallb is_finite (a :: l)).
  - generalize (sum (map value (a :: l)) / INR (length (a :: l))). intros x.
    cbn [forallb is_finite andb map value sum fold_right length INR].
    f_equal. field.
  - reflexivity.
Qed.

Lemma filter_perm {A} (f : A -> bool) (l l' : list A) :
  Permutation l l' -> Permutation (filter f l) (filter f l').
Proof.
  induction 1 as [|x l l' _ IH|x y l|l l' l'' _ IH1 _ IH2]; cbn [filter].
  - constructor.
  - destruct (f x); [now constructor|exact IH].
  - destruct (f x), (f y); try reflexivity. apply perm_swap.
  - now transitivity (filter f l').
Qed.

(** *** The seeds *)

Lemma arange_spec (a b k : Z) : In k (arange a b) <-> (a <= k < b)%Z.
Proof.
  unfold arange. rewrite in_map_iff. split.
  - intros [n [<- Hn]]. apply in_seq in Hn. lia.
  - intros H. exists (Z.to_nat (k - a)). split; [lia|]. apply in_seq. lia.
Qed.

Lemma arange_nodup (a b : Z) : NoDup (arange a b).
Proof.
  unfold arange. apply Finite.Injective_map_NoDup; [|apply seq_NoDup].
  intros x y H. lia.
Qed.

Lemma missing_seeds_none : missing_seeds [] = arange 0 10.
Proof. reflexivity. Qed.

Lemma missing_seeds_one (r : row) :
  (0 <= seed r < 10)%Z ->
  Permutation (seed r :: missing_seeds [r]) (arange 0 10).
Proof.
  intros Hr. unfold missing_seeds. cbn [map existsb].
  apply NoDup_Permutation.
  - constructor.
    + rewrite filter_In, Z.eqb_refl. cbn. intros [_ H]. discriminate.
    + apply NoDup_filter, arange_nodup.
  - apply arange_nodup.
  - intros s. cbn [In]. rewrite filter_In, arange_spec, orb_false_r.
    destruct (s =? seed r)%Z eqn:E; cbn [negb].
    + apply Z.eqb_eq in E. subst s. intuition.
    + apply Z.eqb_neq in E. intuition congruence.
Qed.

(** *** Sorted lists *)

Lemma strongly_sorted_weaken {A} (R R' : A -> A -> Prop) (l : list A) :
  (forall a b, R a b -> R' a b) -> StronglySorted R l -> StronglySorted R' l.
Proof.
  intros H. induction 1 as [|a l _ IH Hall]; constructor; [exact IH|].
  revert Hall. apply Forall_impl. exact (H a).
Qed.

Lemma key_lt_trans (a b c : row) :
  key_lt a b = true -> key_lt b c = true -> key_lt a c = true.
Proof. rewrite !key_lt_spec. lia. Qed.

Lemma filled_table_sorted (data : list row) :
  StronglySorted (fun a b => key_lt a b = true) (filled_table data).
Proof.
  apply Sorted_StronglySorted.
  - intros a b c. apply key_lt_trans.
  - unfold filled_table.
    let l := eval cbv in (arange 0 12) in change (arange 0 12) with l.
    let l := eval cbv in (arange 0 10) in change (arange 0 10) with l.
    cbn [flat_map map app].
    repeat (constructor; [|first [apply HdRel_nil | apply HdRel_cons; reflexivity]]).
    constructor.
Qed.

(** *** The table *)

Section Table.
Variable iteration_order : list Z -> list Z.
Hypothesis iteration_perm : forall s, Permutation (iteration_order s) s.

Variable data : list row.
Hypothesis data_range :
  forall r, In r data ->
    (0 <= corruption_idx r < 12)%Z /\ (0 <= seed r < 10)%Z.

Lemma filled_rows_table (c : Z) (d : dict) (gs : list (Z * list row)) :
  (forall k g, In (k, g) gs ->
     g <> [] /\
     g = filter (fun r => (corruption_idx r =? k)%Z) (sorted_by_key data)) ->
  (forall r, In r (sorted_by_key data) -> In (corruption_idx r) (map fst gs)) ->
  (forall k, ~ In k (map fst gs) -> rows_of k d = []) ->
  (forall k g, In (k, g) gs ->
     exists r, In r g /\
       rows_of k d = [{| seed := seed r; corruption_idx := corruption_idx r;
                         dist := mean (map dist g) |}]) ->
  Permutation (filled_rows iteration_order c (rows_of c d))
    (map (fun s => {| seed := s; corruption_idx := c;
                      dist := index_mean data c |}) (arange 0 10)).
Proof.
  intros Hgroups Hcover Hold Hrows.
  destruct (sorted_by_key_spec data) as [Hperm _].
  destruct (in_dec Z.eq_dec c (map fst gs)) as [Hin|Hout].
  - apply in_map_iff in Hin. destruct Hin as [[k g] [Hk Hkg]]. cbn [fst] in Hk. subst k.
    destruct (Hrows c g Hkg) as [r [Hr Hd]].
    destruct (Hgroups c g Hkg) as [_ Hg].
    assert (Hrs : In r (sorted_by_key data)).
    { rewrite Hg in Hr. apply filter_In in Hr. tauto. }
    assert (Hrc : corruption_idx r = c).
    { rewrite Hg in Hr. apply filter_In in Hr. now apply Z.eqb_eq. }
    assert (Hseed : (0 <= seed r < 10)%Z).
    { apply data_range. now apply (Permutation_in _ Hperm). }
    assert (Hmean : mean (map dist g) = index_mean data c).
    { unfold index_mean. apply mean_perm, Permutation_map.
      rewrite Hg. apply filter_perm, Hperm. }
    rewrite Hd, Hrc. unfold filled_rows. cbn [map dist app].
    rewrite mean_of_mean, Hmean.
    change ({| seed := seed r; corruption_idx := c; dist := index_mean data c |} ::
            map (fun s => {| seed := s; corruption_idx := c;
                             dist := index_mean data c |})
                (iteration_order
                   (missing_seeds
                      [{| seed := seed r; corruption_idx := c;
                          dist := index_mean data c |}])))
      with (map (fun s => {| seed := s; corruption_idx := c;
                             dist := index_mean data c |})
                (seed r :: iteration_order
                   (missing_seeds
                      [{| seed := seed r; corruption_idx := c;
                          dist := index_mean data c |}]))).
    apply Permutation_map.
    etransitivity; [apply perm_skip, iteration_perm|].
    apply (missing_seeds_one {| seed := seed r; corruption_idx := c;
                                dist := index_mean data c |}).
    exact Hseed.
  - rewrite (Hold c Hout). unfold filled_rows. cbn [map app].
    rewrite missing_seeds_none.
    assert (Hmean : mean [] = index_mean data c).
    { unfold index_mean. rewrite filter_none; [reflexivity|].
      intros r Hr. apply Z.eqb_neq. intros Hc. apply Hout. rewrite <- Hc.
      apply Hcover. apply (Permutation_in _ (Permutation_sym Hperm) Hr). }
    rewrite Hmean. apply Permutation_map, iteration_perm.
Qed.

End Table.

Lemma increasing_nodup (l : list Z) : StronglySorted Z.lt l -> NoDup l.
Proof.
  induction 1 as [|a l _ IH Hall]; constructor; [|exact IH].
  intros Hin. rewrite Forall_forall in Hall. specialize (Hall a Hin). lia.
Qed.

Lemma flat_map_perm {A B} (f g : A -> list B) (l : list A) :
  (forall a, In a l -> Permutation (f a) (g a)) ->
  Permutation (flat_map f l) (flat_map g l).
Proof.
  induction l as [|a l IH]; intros H; cbn [flat_map]; [constructor|].
  apply Permutation_app; [apply H; now left|].
  apply IH. intros b Hb. apply H. now right.
Qed.

(** X23.  When every row has a corruption index in [0..11] and a seed in
    [0..9], [process_distances] returns the full table of 120 rows, one per
    index and seed, by index and then by seed, whatever the order in which
    the missing seeds are iterated.  Every row of an index carries the mean of
    all the input distances of that index (NaN when the index has no input
    row, or a distance that is not finite): the distances of the individual
    seeds are not in the result. *)
Theorem process_distances_table
  (iteration_order : list Z -> list Z) (data : list row) :
  (forall s, Permutation (iteration_order s) s) ->
  (forall r, In r data ->
     (0 <= corruption_idx r < 12)%Z /\ (0 <= seed r < 10)%Z) ->
  process_distances iteration_order data = Some (filled_table data).
Proof.
  intros Hit Hrange. unfold process_distances. cbv zeta.
  destruct (sorted_by_key_spec data) as [Hperm Hsorted].
  destruct (groupby_spec (sorted_by_key data)) as [Hkeys [Hgroups Hcover]].
  { revert Hsorted. apply strongly_sorted_weaken.
    intros a b H. apply key_ge_spec in H. lia. }
  apply increasing_nodup in Hkeys.
  destruct (first_loop (groupby (sorted_by_key data)) [] Hkeys)
    as [d0 [Hfold [Hk0 [Hold Hrows]]]].
  { intros k _ []. }
  { intros k g Hkg. apply (Hgroups k g Hkg). }
  cbn [map app] in Hk0. rewrite Hfold.
  assert (Hnd0 : NoDup (map fst d0)) by now rewrite Hk0.
  destruct (second_loop iteration_order Hit (arange 0 12) d0
              (arange_nodup 0 12) Hnd0) as [Hnd [Hkeys' [Hin _]]].
  cbv zeta in Hnd, Hkeys', Hin.
  set (d := fold_left (fill_missing iteration_order) (arange 0 12) d0) in *.
  f_equal. apply sorted_unique.
  - symmetry. etransitivity; [apply sorted_by_key_spec|].
    rewrite (flat_rows d Hnd). unfold filled_table.
    transitivity (flat_map (fun k => rows_of k d) (arange 0 12)).
    + apply Permutation_flat_map, NoDup_Permutation;
        [exact Hnd|apply arange_nodup|].
      intros k. rewrite Hkeys', Hk0. split; [|tauto].
      intros [Hk|Hk]; [|exact Hk].
      apply in_map_iff in Hk. destruct Hk as [[k' g] [<- Hkg]]. cbn [fst].
      destruct (Hgroups k' g Hkg) as [Hne Hg].
      destruct g as [|r g']; [congruence|].
      assert (Hr : In r (filter (fun r => (corruption_idx r =? k')%Z)
                                (sorted_by_key data)))
        by (rewrite <- Hg; now left).
      apply filter_In in Hr. destruct Hr as [Hr Hk].
      apply Z.eqb_eq in Hk. subst k'. apply arange_spec.
      apply Hrange. apply (Permutation_in _ Hperm Hr).
    + apply flat_map_perm. intros c Hc. rewrite (Hin c Hc).
      apply (filled_rows_table iteration_order Hit data Hrange c d0
               (groupby (sorted_by_key data))).
      * exact Hgroups.
      * exact Hcover.
      * intros k Hk. now rewrite (Hold k Hk).
      * exact Hrows.
  - apply filled_table_sorted.
  - apply sorted_by_key_spec.
Qed.

Lemma process_distances_table_witness :
  process_distances (fun s => s) example_rows = Some (filled_table example_rows).
Proof.
  apply process_distances_table.
  - intros s. apply Permutation_refl.
  - intros r [<-|[<-|[<-|[]]]]; cbn; lia.
Defined.

End TableFacts.
